(** * ayab-patterns: the ROM pattern codec and the ROM matching engine

    A shallow embedding of [extract_patterns.py] and [romscan.py], and the
    properties of the decode and matching pipelines proved over it.

    Conventions of the embedding:
    - Python integers are [Z]; a [bytes] or [bytearray] value is a
      [list Z] of values in 0..255;
    - slicing, [bytes.find], [range], [enumerate] and indexing follow the
      Python semantics, negative indices included ([Module Py]);
    - a function that can raise returns an [outcome];
    - [print] is modelled by the list of printed events;
    - the global [rom_data] of romscan.py is a Section variable;
    - image files are input and output: the matching engine starts from
      the loaded patterns, and a saved image is an [image] value. *)

From Stdlib Require Import String Ascii ZArith List Lia Bool.
Import ListNotations.
Open Scope Z_scope.

(* ===================================================================== *)
(** * Python built-ins used by the two scripts                            *)
(* ===================================================================== *)

Module Py.

Inductive exn : Type :=
| IndexError
| ValueError.

Inductive outcome (A : Type) : Type :=
| Returns (a : A)
| Raises (e : exn).

Arguments Returns {A} a.
Arguments Raises {A} e.

Definition bind {A B : Type} (m : outcome A) (k : A -> outcome B) : outcome B :=
  match m with
  | Returns a => k a
  | Raises e => Raises e
  end.

Definition len {A : Type} (l : list A) : Z := Z.of_nat (List.length l).

(** Index normalisation of a slice bound: a negative bound counts from the
    end, and every bound is clamped to [0, n]. *)
Definition clamp_index (n i : Z) : Z :=
  if i <? 0 then Z.max 0 (i + n) else Z.min i n.

(** [l[a:b]] *)
Definition slice {A : Type} (l : list A) (a b : Z) : list A :=
  let n := len l in
  let a' := clamp_index n a in
  let b' := clamp_index n b in
  firstn (Z.to_nat (b' - a')) (skipn (Z.to_nat a') l).

(** [l[a:]] *)
Definition slice_from {A : Type} (l : list A) (a : Z) : list A :=
  skipn (Z.to_nat (clamp_index (len l) a)) l.

(** [l[:b]] *)
Definition slice_to {A : Type} (l : list A) (b : Z) : list A :=
  firstn (Z.to_nat (clamp_index (len l) b)) l.

(** [l[i]]: a negative index counts from the end; out of range raises. *)
Definition getitem {A : Type} (l : list A) (i : Z) : outcome A :=
  let j := if i <? 0 then i + len l else i in
  if j <? 0 then Raises IndexError
  else match nth_error l (Z.to_nat j) with
       | Some v => Returns v
       | None => Raises IndexError
       end.

(** [l[a:b] = new] on a bytearray: the slice is replaced by [new], whatever
    its length. *)
Definition slice_assign {A : Type} (l : list A) (a b : Z) (new : list A) : list A :=
  let n := len l in
  let a' := clamp_index n a in
  let b' := Z.max a' (clamp_index n b) in
  firstn (Z.to_nat a') l ++ new ++ skipn (Z.to_nat b') l.

(** [bytes(n)]: [n] zero bytes; a negative count raises [ValueError]. *)
Definition bytes_zero (n : Z) : outcome (list Z) :=
  if n <? 0 then Raises ValueError else Returns (repeat 0 (Z.to_nat n)).

Fixpoint range_from (start : Z) (n : nat) : list Z :=
  match n with
  | O => []
  | S k => start :: range_from (start + 1) k
  end.

(** [range(start, stop)] *)
Definition range (start stop : Z) : list Z :=
  range_from start (Z.to_nat (stop - start)).

Fixpoint enumerate_from {A : Type} (i : Z) (l : list A) : list (Z * A) :=
  match l with
  | [] => []
  | x :: t => (i, x) :: enumerate_from (i + 1) t
  end.

(** [enumerate(l)] *)
Definition enumerate {A : Type} (l : list A) : list (Z * A) :=
  enumerate_from 0 l.

(** [zip(l1, l2)] is [List.combine]: it stops at the shorter list. *)

Fixpoint pos_ones (p : positive) : Z :=
  match p with
  | xH => 1
  | xO q => pos_ones q
  | xI q => 1 + pos_ones q
  end.

(** [bin(x).count('1')]: the ones among the binary digits of [|x|]. *)
Definition bin_count_ones (x : Z) : Z :=
  match x with
  | Z0 => 0
  | Zpos p => pos_ones p
  | Zneg p => pos_ones p
  end.

(** Is [sub] a prefix of [l]? *)
Fixpoint starts_with (sub l : list Z) : bool :=
  match sub, l with
  | [], _ => true
  | _ :: _, [] => false
  | a :: sub', b :: l' => (a =? b) && starts_with sub' l'
  end.

(** The scan of [bytes.find]: [l] is the data from position [pos] on, and
    [n] candidate positions remain. *)
Fixpoint find_from (sub l : list Z) (pos : Z) (n : nat) {struct n} : Z :=
  match n with
  | O => -1
  | S k =>
      if starts_with sub l then pos
      else match l with
           | [] => -1
           | _ :: t => find_from sub t (pos + 1) k
           end
  end.

(** [data.find(sub, start, end)]: the lowest index [i] with
    [start' <= i], [i + len(sub) <= end'] and [data[i:i+len(sub)] == sub],
    where [start'] and [end'] are the normalised bounds; [-1] when there
    is none. *)
Definition find (data sub : list Z) (start stop : Z) : Z :=
  let n := len data in
  let s := if start <? 0 then Z.max 0 (start + n) else start in
  let e := clamp_index n stop in
  if e - s <? len sub then -1
  else find_from sub (skipn (Z.to_nat s) data) s (Z.to_nat (e - s - len sub + 1)).

(** [a == b] on byte strings. *)
Definition bytes_eqb (a b : list Z) : bool :=
  if list_eq_dec Z.eq_dec a b then true else false.

(** [sorted(l, key=key)]: a stable sort by increasing key. The result of a
    stable sort does not depend on the algorithm; insertion is used here. *)
Fixpoint insert_by {A : Type} (key : A -> Z) (x : A) (l : list A) : list A :=
  match l with
  | [] => [x]
  | y :: t => if key x <=? key y then x :: y :: t else y :: insert_by key x t
  end.

Fixpoint sorted {A : Type} (key : A -> Z) (l : list A) : list A :=
  match l with
  | [] => []
  | x :: t => insert_by key x (sorted key t)
  end.

End Py.

Import Py.

Notation "x <- m ;; k" := (Py.bind m (fun x => k))
  (at level 61, m at next level, right associativity).

(** A byte string. *)
Definition bytes := list Z.

(* ===================================================================== *)
(** * romscan.py: the ROM matching engine                                 *)
(* ===================================================================== *)

Module RomScan.

(** A search range (a gap): the half-open byte range [(start, end)]. *)
Definition gap : Type := (Z * Z)%type.

(** [(offset, end, distance)], the tuple both searches return;
    [distance] is [None] for an exact match. *)
Definition match_range : Type := (Z * Z * option Z)%type.

(** An entry of [results]: [(basename, (start, end, distance), is_fuzzy)].
    [is_fuzzy] is [None] or [True] in the source and only tested for
    truth: it is a [bool] here. *)
Definition result_entry : Type := (string * match_range * bool)%type.

(** An entry of [patterns]:
    [(image_file, basename, byte_data, height, original_width)]. *)
Record loaded_pattern : Type := {
  image_file : string;
  basename : string;
  byte_data : bytes;
  height : Z;
  width : Z
}.

(** What the searches print (with [verbose] off). *)
Inductive event : Type :=
| MultipleOffsets (name : string) (w h : Z) (shown : list (Z * Z))
| TiedMatches (name : string) (w h : Z) (best_matches best_distance : Z)
    (shown : list Z)
| FoundFuzzy (name : string) (r : match_range).

(** The three returns of [exact_search_in_rom]: [None], ["ambiguous"] and
    [(offset, end, None)]. *)
Inductive exact_result : Type :=
| ExactNone
| ExactAmbiguous
| ExactMatch (r : match_range).

Definition index_base : Z := 0x50000.

Definition hamming_distance (bytes1 bytes2 : bytes) : Z :=
  fold_left (fun diff_bits '(b1, b2) => diff_bits + bin_count_ones (Z.lxor b1 b2))
    (combine bytes1 bytes2) 0.

Definition result_start (x : result_entry) : Z :=
  let '(_, (start, _, _), _) := x in start.

Definition result_end (x : result_entry) : Z :=
  let '(_, (_, stop, _), _) := x in stop.

Definition find_gaps_step (st : list gap * Z) (x : result_entry) : list gap * Z :=
  let '(gaps, last_end) := st in
  let '(_, (start, stop, _), _) := x in
  (if start >? last_end then gaps ++ [(last_end, start)] else gaps, stop).

Definition find_gaps (results : list result_entry) (rom_size : Z) : list gap :=
  let '(gaps, last_end) :=
    fold_left find_gaps_step (sorted result_start results) ([], index_base) in
  if last_end <? rom_size then gaps ++ [(last_end, rom_size)] else gaps.

Section Rom.

(** The global [rom_data]. *)
Variable rom_data : bytes.

(** The [while pos < end_pos] loop of [exact_search_in_rom]. [fuel] bounds
    the number of iterations; [None] means the bound was too small. *)
Fixpoint exact_scan (fuel : nat) (pattern : bytes) (end_pos pos : Z)
    (matches : list Z) : option (list Z) :=
  match fuel with
  | O => if pos <? end_pos then None else Some matches
  | S k =>
      if pos <? end_pos then
        let pos' := find rom_data pattern pos end_pos in
        if pos' <? 0 then Some matches
        else exact_scan k pattern end_pos (pos' + 1) (matches ++ [pos'])
      else Some matches
  end.

(** The [for start_pos, end_pos in search_ranges] loop. Each pass of the
    while loop moves [pos] up by at least one, so [end_pos - pos] passes
    suffice ([exact_scan_total]). *)
Fixpoint exact_matches (pattern : bytes) (prefix_len : Z)
    (search_ranges : list gap) (matches : list Z) : option (list Z) :=
  match search_ranges with
  | [] => Some matches
  | (start_pos, end_pos) :: rest =>
      if prefix_len + len pattern >? end_pos - start_pos
      then exact_matches pattern prefix_len rest matches
      else
        let pos := start_pos + prefix_len in
        match exact_scan (Z.to_nat (end_pos - pos)) pattern end_pos pos matches with
        | None => None
        | Some matches' => exact_matches pattern prefix_len rest matches'
        end
  end.

Definition exact_search_in_rom (pattern : bytes) (height : Z)
    (search_ranges : list gap) (basename : string) (width : Z)
    : option (list event * exact_result) :=
  let pattern_len := len pattern in
  let prefix_len := (height + 1) / 2 in
  match exact_matches pattern prefix_len search_ranges [] with
  | None => None
  | Some matches =>
      Some
        match matches with
        | [] => ([], ExactNone)
        | pos :: _ =>
            if len matches >? 1 then
              ([MultipleOffsets basename width height
                  (map (fun p => (p, p - prefix_len)) (slice_to matches 5))],
               ExactAmbiguous)
            else
              let offset := pos - prefix_len in
              ([], ExactMatch (offset, pos + pattern_len, None))
        end
  end.

(** The loop state of [fuzzy_search_in_rom]; [best_distance = None] is
    [float('inf')]. *)
Record fuzzy_state : Type := {
  best_pos : Z;
  best_distance : option Z;
  found_positions : list (Z * Z)
}.

Definition fuzzy_init : fuzzy_state :=
  {| best_pos := -1; best_distance := None; found_positions := [] |}.

(** [pattern_len * 8 * 0.1] is a double product; for every bit count below
    2^40 its truncation [int(...)] is the integer quotient by 10. *)
Definition max_errors (pattern_len : Z) : Z := pattern_len * 8 / 10.

Definition lt_best (distance : Z) (best : option Z) : bool :=
  match best with
  | None => true
  | Some b => distance <? b
  end.

Definition eq_best (dist : Z) (best : option Z) : bool :=
  match best with
  | None => false
  | Some b => dist =? b
  end.

Definition fuzzy_step (pattern : bytes) (st : fuzzy_state) (pos : Z) : fuzzy_state :=
  let pattern_len := len pattern in
  let distance := hamming_distance pattern (slice rom_data pos (pos + pattern_len)) in
  if distance <=? max_errors pattern_len then
    let st' :=
      if lt_best distance (best_distance st)
      then {| best_pos := pos; best_distance := Some distance;
              found_positions := found_positions st |}
      else st in
    {| best_pos := best_pos st'; best_distance := best_distance st';
       found_positions := found_positions st' ++ [(pos, distance)] |}
  else st.

Definition fuzzy_scan (pattern : bytes) (search_ranges : list gap)
    (st : fuzzy_state) : fuzzy_state :=
  fold_left
    (fun st '(start_pos, end_pos) =>
       if len pattern >? end_pos - start_pos then st
       else fold_left (fuzzy_step pattern)
              (range start_pos (end_pos - len pattern + 1)) st)
    search_ranges st.

(** The printing loop over the tied positions: at most 5 are shown. *)
Fixpoint show_ties (best : option Z) (found : list (Z * Z)) (shown : Z) : list Z :=
  match found with
  | [] => []
  | (pos, dist) :: rest =>
      if eq_best dist best && (shown <? 5)
      then pos :: show_ties best rest (shown + 1)
      else show_ties best rest shown
  end.

Definition fuzzy_search_in_rom (pattern : bytes) (height : Z)
    (search_ranges : list gap) (basename : string) (width : Z)
    : list event * option match_range :=
  let pattern_len := len pattern in
  let st := fuzzy_scan pattern search_ranges fuzzy_init in
  if best_pos st <? 0 then ([], None)
  else
    let best_matches :=
      len (filter (fun '(_, dist) => eq_best dist (best_distance st))
             (found_positions st)) in
    if best_matches >? 1 then
      ([TiedMatches basename width height best_matches
          (match best_distance st with Some d => d | None => 0 end)
          (show_ties (best_distance st) (found_positions st) 0)],
       None)
    else
      let pos := best_pos st in
      let offset := pos - (height + 1) / 2 in
      ([], Some (offset, pos + pattern_len, best_distance st)).

Definition search_pattern (basename : string) (byte_data : bytes) (height width : Z)
    (search_ranges : list gap) : option (list event * (option match_range * bool)) :=
  match exact_search_in_rom byte_data height search_ranges basename width with
  | None => None
  | Some (out, ExactAmbiguous) => Some (out, (None, true))
  | Some (out, ExactNone) => Some (out, (None, false))
  | Some (out, ExactMatch r) => Some (out, (Some r, false))
  end.

(** The state of the main script while it processes the patterns. *)
Record scan_state : Type := {
  results : list result_entry;
  gaps : list gap;
  not_found : list loaded_pattern;
  ambiguous : list string;
  still_not_found : list string;
  printed : list event
}.

Definition rom_size : Z := len rom_data.

Definition scan_init : scan_state :=
  {| results := []; gaps := [(index_base, rom_size)]; not_found := [];
     ambiguous := []; still_not_found := []; printed := [] |}.

(** One iteration of the first pass (exact matches only). *)
Definition exact_pass_step (st : scan_state) (p : loaded_pattern) : option scan_state :=
  match search_pattern (basename p) (byte_data p) (height p) (width p) (gaps st) with
  | None => None
  | Some (out, (Some r, _)) =>
      let results' := results st ++ [(basename p, r, false)] in
      Some {| results := results'; gaps := find_gaps results' rom_size;
              not_found := not_found st; ambiguous := ambiguous st;
              still_not_found := still_not_found st;
              printed := printed st ++ out |}
  | Some (out, (None, true)) =>
      Some {| results := results st; gaps := gaps st;
              not_found := not_found st;
              ambiguous := ambiguous st ++ [basename p];
              still_not_found := still_not_found st;
              printed := printed st ++ out |}
  | Some (out, (None, false)) =>
      Some {| results := results st; gaps := gaps st;
              not_found := not_found st ++ [p];
              ambiguous := ambiguous st;
              still_not_found := still_not_found st;
              printed := printed st ++ out |}
  end.

Fixpoint exact_pass (st : scan_state) (patterns : list loaded_pattern)
    : option scan_state :=
  match patterns with
  | [] => Some st
  | p :: rest =>
      match exact_pass_step st p with
      | None => None
      | Some st' => exact_pass st' rest
      end
  end.

(** One iteration of the second pass (fuzzy search of a pattern the first
    pass did not find). The source computes the base name again from the
    file name, as [load_patterns] did. The rewrite of the image file by
    [bytes_to_png] is file output and does not touch the state of the
    scan. *)
Definition fuzzy_pass_step (st : scan_state) (p : loaded_pattern) : scan_state :=
  match fuzzy_search_in_rom (byte_data p) (height p) (gaps st) (basename p) (width p) with
  | (out, Some r) =>
      let results' := results st ++ [(basename p, r, true)] in
      {| results := results'; gaps := find_gaps results' rom_size;
         not_found := not_found st; ambiguous := ambiguous st;
         still_not_found := still_not_found st;
         printed := printed st ++ out ++ [FoundFuzzy (basename p) r] |}
  | (out, None) =>
      {| results := results st; gaps := gaps st;
         not_found := not_found st; ambiguous := ambiguous st;
         still_not_found := still_not_found st ++ [basename p];
         printed := printed st ++ out |}
  end.

(** The main script from the loaded patterns on: sort by decreasing size,
    first pass, recompute the gaps, second pass. *)
Definition scan (patterns : list loaded_pattern) : option scan_state :=
  let patterns := sorted (fun p => - len (byte_data p)) patterns in
  match exact_pass scan_init patterns with
  | None => None
  | Some st =>
      let st := {| results := results st;
                   gaps := find_gaps (results st) rom_size;
                   not_found := not_found st; ambiguous := ambiguous st;
                   still_not_found := still_not_found st;
                   printed := printed st |} in
      Some (fold_left fuzzy_pass_step (not_found st) st)
  end.

(** The loop of [zero_patterns_in_rom] over the copy of the ROM. *)
Fixpoint zero_loop (rom_data_copy : bytes) (results_sorted : list result_entry)
    : outcome bytes :=
  match results_sorted with
  | [] => Returns rom_data_copy
  | (_, (start, stop, _), _) :: rest =>
      let length := stop - start in
      zeros <- bytes_zero length ;;
      zero_loop (slice_assign rom_data_copy start (start + length) zeros) rest
  end.

(** [zero_patterns_in_rom]: the buffer written to the output file. *)
Definition zero_patterns_in_rom (results_sorted : list result_entry) : outcome bytes :=
  zero_loop rom_data results_sorted.

End Rom.

End RomScan.

(* ===================================================================== *)
(** * extract_patterns.py: the pattern index and bitmap codec             *)
(* ===================================================================== *)

Module ExtractPatterns.

Definition PATTERN_COUNT : Z := 683.
Definition PATTERN_RECORD_SIZE : Z := 12.
Definition VALID_HEADERS : list bytes := [[0x02; 0x00]; [0x03; 0x00]].

(** The dict built by [read_pattern_index]. *)
Record pattern : Type := {
  p_type : Z;
  p_number : Z;
  p_width : Z;
  p_height : Z;
  p_offset : Z
}.

(** A PIL image: its mode, its size, its pixels in row-major order from
    the top row down, its palette, and the PNG text comment attached to
    it, if any. *)
Inductive mode : Type :=
| Mode1
| ModeP.

Record image : Type := {
  img_mode : mode;
  img_width : Z;
  img_height : Z;
  img_data : list Z;
  img_palette : list Z;
  img_comment : option string
}.

(** What the script prints. *)
Inductive event : Type :=
| ErrorProcessing (number : Z) (e : exn)
| Saved (number w h t : Z).

(** The loop body of [bcd_to_int] on the pair [(result, multiplier)]. *)
Definition bcd_step (st : Z * Z) (b : Z) : Z * Z :=
  let '(result, multiplier) := st in
  let low_digit := Z.land b 0x0F in
  let high_digit := Z.land (Z.shiftr b 4) 0x0F in
  (result + (low_digit + high_digit * 10) * multiplier, multiplier * 100).

Definition bcd_to_int (bs : bytes) : Z :=
  fst (fold_left bcd_step bs (0, 1)).

Definition decode_pattern_offset (bs : bytes) : outcome Z :=
  b0 <- getitem bs 0 ;;
  b2 <- getitem bs 2 ;;
  b1 <- getitem bs 1 ;;
  Returns (Z.lor (Z.lor (Z.shiftl b0 16) (Z.shiftl b2 8)) b1).

Fixpoint read_records (rom_data : bytes) (index_offset : Z) (indices : list Z)
    (patterns : list pattern) : outcome (list pattern) :=
  match indices with
  | [] => Returns patterns
  | i :: rest =>
      let record :=
        slice rom_data (index_offset + i * PATTERN_RECORD_SIZE)
          (index_offset + (i + 1) * PATTERN_RECORD_SIZE) in
      if existsb (bytes_eqb (slice record 0 2)) VALID_HEADERS then
        t <- getitem record 0 ;;
        o <- decode_pattern_offset (slice record 9 12) ;;
        read_records rom_data index_offset rest
          (patterns ++
             [{| p_type := t;
                 p_number := bcd_to_int (slice record 2 4);
                 p_width := bcd_to_int (slice record 4 6);
                 p_height := bcd_to_int (slice record 6 8);
                 p_offset := o |}])
      else read_records rom_data index_offset rest patterns
  end.

Definition read_pattern_index (rom_data : bytes) : outcome (list pattern) :=
  read_records rom_data 0x50000 (range 0 PATTERN_COUNT) [].

(** The pixels one byte of a row contributes: bit [bit] of the byte is the
    pixel of column [byte_idx * 8 + bit], kept when the column is below
    [width]. *)
Definition byte_pixels (width byte_idx byte : Z) : list Z :=
  flat_map
    (fun bit =>
       let x := byte_idx * 8 + bit in
       if x <? width
       then [if Z.land byte (Z.shiftl 1 bit) =? 0 then 0 else 1]
       else [])
    (range 0 8).

Definition decode_row (rom_data : bytes) (width row_bytes bitmap_offset row : Z) : list Z :=
  let row_offset := bitmap_offset + row * row_bytes in
  let row_data := slice rom_data row_offset (row_offset + row_bytes) in
  flat_map (fun '(byte_idx, byte) => byte_pixels width byte_idx byte)
    (enumerate row_data).

Definition decode_monochrome_bitmap (rom_data : bytes) (width height bitmap_offset : Z)
    : list (list Z) :=
  let row_bytes := (width + 7) / 8 in
  map (decode_row rom_data width row_bytes bitmap_offset) (range 0 height).

Definition digit_char (value : Z) : string :=
  String (ascii_of_nat (48 + Z.to_nat value)) EmptyString.

Definition memo_value_to_char (value : Z) : outcome string :=
  if (0 <=? value) && (value <=? 8) then Returns (digit_char value)
  else if value =? 10 then Returns "N"%string
  else if value =? 11 then Returns "F"%string
  else Raises ValueError.

(** Sequencing of a loop whose body can raise: the first error stops it. *)
Fixpoint mapM {A B : Type} (f : A -> outcome B) (l : list A) : outcome (list B) :=
  match l with
  | [] => Returns []
  | x :: t =>
      y <- f x ;;
      ys <- mapM f t ;;
      Returns (y :: ys)
  end.

Definition memo_of_row (memo_data : bytes) (row : Z) : outcome Z :=
  memo_byte <- getitem memo_data (row / 2) ;;
  if row mod 2 =? 0 then Returns (Z.land memo_byte 0x0F)
  else Returns (Z.shiftr memo_byte 4).

Definition parse_memo_data (rom_data : bytes) (offset height : Z) : outcome (list Z) :=
  let memo_bytes := (height + 1) / 2 in
  let memo_data := slice rom_data offset (offset + memo_bytes) in
  mapM (memo_of_row memo_data) (range 0 height).

(** [Image.new(mode, (w, h))]: all pixels 0; a negative size raises. *)
Definition Image_new (m : mode) (w h : Z) : outcome image :=
  if (w <? 0) || (h <? 0) then Raises ValueError
  else Returns {| img_mode := m; img_width := w; img_height := h;
                  img_data := repeat 0 (Z.to_nat (w * h));
                  img_palette := []; img_comment := None |}.

Fixpoint set_nth {A : Type} (l : list A) (n : nat) (v : A) : list A :=
  match l, n with
  | [], _ => []
  | _ :: t, O => v :: t
  | h :: t, S k => h :: set_nth t k v
  end.

(** [img.putpixel((x, y), v)], for the non-negative coordinates the
    script passes. *)
Definition putpixel (img : image) (x y v : Z) : outcome image :=
  if (0 <=? x) && (x <? img_width img) && (0 <=? y) && (y <? img_height img) then
    Returns {| img_mode := img_mode img; img_width := img_width img;
               img_height := img_height img;
               img_data := set_nth (img_data img) (Z.to_nat (y * img_width img + x)) v;
               img_palette := img_palette img; img_comment := img_comment img |}
  else Raises IndexError.

(** [img.getpixel((x, y))] *)
Definition getpixel (img : image) (x y : Z) : option Z :=
  if (0 <=? x) && (x <? img_width img) && (0 <=? y) && (y <? img_height img)
  then nth_error (img_data img) (Z.to_nat (y * img_width img + x))
  else None.

(** [img.putdata(data)]: the values fill the image from the top left on;
    the script passes exactly width * height of them. *)
Definition putdata (img : image) (data : list Z) : image :=
  {| img_mode := img_mode img; img_width := img_width img;
     img_height := img_height img;
     img_data := data ++ skipn (List.length data) (img_data img);
     img_palette := img_palette img; img_comment := img_comment img |}.

Definition putpalette (img : image) (palette : list Z) : image :=
  {| img_mode := img_mode img; img_width := img_width img;
     img_height := img_height img; img_data := img_data img;
     img_palette := palette; img_comment := img_comment img |}.

Definition set_comment (img : image) (comment : string) : image :=
  {| img_mode := img_mode img; img_width := img_width img;
     img_height := img_height img; img_data := img_data img;
     img_palette := img_palette img; img_comment := Some comment |}.

(** [for x, value in enumerate(row): img.putpixel((x, y), ...)] *)
Fixpoint put_row (img : image) (y : Z) (row : list (Z * Z)) : outcome image :=
  match row with
  | [] => Returns img
  | (x, value) :: rest =>
      img' <- putpixel img x y (if value =? 0 then 1 else 0) ;;
      put_row img' y rest
  end.

(** [for y, row in enumerate(reversed(pixels)): ...] *)
Fixpoint put_rows (img : image) (rows : list (Z * list Z)) : outcome image :=
  match rows with
  | [] => Returns img
  | (y, row) :: rest =>
      img' <- put_row img y (enumerate row) ;;
      put_rows img' rest
  end.

(** [any(memo_values)] *)
Definition any (values : list Z) : bool :=
  existsb (fun v => negb (v =? 0)) values.

(** [''.join(memo_value_to_char(v) for v in memo_values)] *)
Fixpoint join_memo (memo_values : list Z) : outcome string :=
  match memo_values with
  | [] => Returns EmptyString
  | v :: rest =>
      c <- memo_value_to_char v ;;
      s <- join_memo rest ;;
      Returns (c ++ s)%string
  end.

(** [extract_monochrome_bitmap], with what it prints. The handler of the
    [try] prints the error with the pattern number and raises it again. *)
Definition extract_monochrome_bitmap (rom_data : bytes) (p : pattern)
    : list event * outcome image :=
  let memo_bytes := (p_height p + 1) / 2 in
  let bitmap_offset := p_offset p + memo_bytes in
  match parse_memo_data rom_data (p_offset p) (p_height p) with
  | Raises e => ([], Raises e)
  | Returns memo_values =>
      let pixels :=
        decode_monochrome_bitmap rom_data (p_width p) (p_height p) bitmap_offset in
      match (img <- Image_new Mode1 (p_width p) (p_height p) ;;
             put_rows img (enumerate (rev pixels))) with
      | Raises e => ([], Raises e)
      | Returns img =>
          if any memo_values then
            match join_memo memo_values with
            | Returns s => ([], Returns (set_comment img ("AYAB:" ++ s)%string))
            | Raises ValueError =>
                ([ErrorProcessing (p_number p) ValueError], Raises ValueError)
            | Raises e => ([], Raises e)
            end
          else ([], Returns img)
      end
  end.

(** The [for i in range(3)] loop with its [break]: the memo value of the
    first plane whose pixel is set, 0 when none is. *)
Fixpoint first_plane (mono_pixels : list (list Z)) (memo_for_block : list Z)
    (base_row x : Z) (planes : list Z) : outcome Z :=
  match planes with
  | [] => Returns 0
  | i :: rest =>
      row <- getitem mono_pixels (base_row + i) ;;
      bit <- getitem row x ;;
      if bit =? 0 then first_plane mono_pixels memo_for_block base_row x rest
      else getitem memo_for_block i
  end.

Definition color_row (mono_pixels : list (list Z)) (memo_values : list Z)
    (width row : Z) : outcome (list Z) :=
  let base_row := row * 3 in
  let memo_for_block := slice memo_values base_row (base_row + 3) in
  mapM (fun x => first_plane mono_pixels memo_for_block base_row x (range 0 3))
    (range 0 width).

Definition palette : list Z :=
  [255; 255; 255; 170; 170; 170; 85; 85; 85; 0; 0; 0].

Definition extract_multicolor_bitmap (rom_data : bytes) (p : pattern) : outcome image :=
  let width := p_width p in
  let real_height := p_height p / 3 in
  let memo_bytes := (p_height p + 1) / 2 in
  let bitmap_offset := p_offset p + memo_bytes in
  memo_values <- parse_memo_data rom_data (p_offset p) (p_height p) ;;
  let mono_pixels :=
    decode_monochrome_bitmap rom_data width (p_height p) bitmap_offset in
  pixels <- mapM (color_row mono_pixels memo_values width) (range 0 real_height) ;;
  img <- Image_new ModeP width real_height ;;
  let img := putpalette img palette in
  let flattened := concat (rev pixels) in
  Returns (putdata img flattened).

Definition extract_pattern_bitmap (rom_data : bytes) (p : pattern)
    : list event * outcome image :=
  if p_type p =? 0x02 then extract_monochrome_bitmap rom_data p
  else ([], extract_multicolor_bitmap rom_data p).

(** The state of [main] in its loop over the patterns: the files saved so
    far (by pattern number), what was printed, and the exception that
    ended the run, if one did. *)
Record run : Type := {
  saved : list (Z * image);
  output : list event;
  raised : option exn
}.

(** [for pattern in patterns: ...] of [main]. Nothing catches what
    [extract_pattern_bitmap] raises. *)
Fixpoint main_loop (rom_data : bytes) (patterns : list pattern) (st : run) : run :=
  match patterns with
  | [] => st
  | p :: rest =>
      match extract_pattern_bitmap rom_data p with
      | (out, Raises e) =>
          {| saved := saved st; output := output st ++ out; raised := Some e |}
      | (out, Returns img) =>
          main_loop rom_data rest
            {| saved := saved st ++ [(p_number p, img)];
               output := output st ++ out ++
                 [Saved (p_number p) (p_width p) (p_height p) (p_type p)];
               raised := None |}
      end
  end.

Definition run_init : run := {| saved := []; output := []; raised := None |}.

(** [main], from the ROM bytes read from the file on. *)
Definition main (rom_data : bytes) : run :=
  match read_pattern_index rom_data with
  | Raises e => {| saved := []; output := []; raised := Some e |}
  | Returns patterns => main_loop rom_data patterns run_init
  end.

End ExtractPatterns.

(* ===================================================================== *)
(** * romscan.py: images, packing and offset references                  *)
(* ===================================================================== *)

Module RomScanTools.

Import RomScan ExtractPatterns.

(** [range(start, stop, step)] for a positive [step]. *)
Definition range_step (start stop step : Z) : list Z :=
  map (fun k => start + k * step) (range 0 ((stop - start + step - 1) / step)).

(** The [for bit in range(8)] loop of [line_to_bytes] on the byte being
    built; [line[i + bit]] raises [IndexError] past the end of the line. *)
Fixpoint line_bits (line : list ascii) (i : Z) (bits : list Z) (byte : Z) : outcome Z :=
  match bits with
  | [] => Returns byte
  | bit :: rest =>
      c <- getitem line (i + bit) ;;
      line_bits line i rest
        (if Ascii.eqb c "#" then Z.lor byte (Z.shiftl 1 bit) else byte)
  end.

Definition line_to_bytes (line : list ascii) : outcome bytes :=
  mapM (fun i => line_bits line i (range 0 8) 0) (range_step 0 (len line) 8).

(** [(v).to_bytes(2, byteorder='little')] for [0 <= v < 65536]. *)
Definition to_bytes_little (v : Z) : bytes := [v mod 256; v / 256].

(** The [for _ in range(5)] loop of [find_offset_references]. *)
Fixpoint refs_loop (rom_data offset_bytes : bytes) (passes : nat) (pos : Z)
    (refs : list Z) : list Z :=
  match passes with
  | O => refs
  | S k =>
      let pos := find rom_data offset_bytes pos (len rom_data) in
      if pos <? 0 then refs
      else refs_loop rom_data offset_bytes k (pos + 1) (refs ++ [pos])
  end.

Definition find_offset_references (rom_data : bytes) (offset : Z) : list Z :=
  let offset_bytes := to_bytes_little (Z.land offset 0xffff) in
  refs_loop rom_data offset_bytes 5 0 [].

(** A grayscale image ([img.convert("L")]): its size and the values of
    [getdata()], row by row from the top; an image holds width * height
    values. *)
Record gray_image : Type := {
  g_width : Z;
  g_height : Z;
  g_data : list Z
}.

(** [len(set(grayscale.getdata()))] *)
Definition unique_colors (grayscale : gray_image) : Z :=
  len (nodup Z.eq_dec (g_data grayscale)).

(** [pixels[x, y]] of the monochrome image
    [grayscale.point(lambda x: 0 if x < 128 else 255, '1')]. *)
Definition mono_pixel (grayscale : gray_image) (x y : Z) : Z :=
  if nth (Z.to_nat (y * g_width grayscale + x)) (g_data grayscale) 0 <? 128
  then 0 else 255.

(** The string [row_bits] of row [y], padding included. *)
Definition row_bits (grayscale : gray_image) (padding y : Z) : list ascii :=
  map (fun x => if mono_pixel grayscale x y =? 0 then "#"%char else "."%char)
    (range 0 (g_width grayscale))
  ++ repeat "."%char (Z.to_nat padding).

(** [bytes(all_bytes)]: every value must be in range(256). *)
Definition to_bytes (all_bytes : list Z) : outcome bytes :=
  if forallb (fun b => (0 <=? b) && (b <? 256)) all_bytes then Returns all_bytes
  else Raises ValueError.

(** The loop of [load_patterns] (with [verbose] off). An entry of
    [image_files] is the name of the file, the base name [os.path] gives
    it, and the grayscale image the file holds. The rows are packed from
    the bottom row up: [range(height - 1, -1, -1)]. *)
Fixpoint load_loop (image_files : list (string * string * gray_image))
    (patterns : list loaded_pattern) : outcome (list loaded_pattern) :=
  match image_files with
  | [] => Returns patterns
  | (file, name, grayscale) :: rest =>
      if unique_colors grayscale =? 2 then
        let width := g_width grayscale in
        let height := g_height grayscale in
        let padding := (8 - width mod 8) mod 8 in
        rows <- mapM (fun y => line_to_bytes (row_bits grayscale padding y))
                  (rev (range 0 height)) ;;
        byte_data <- to_bytes (concat rows) ;;
        load_loop rest
          (patterns ++
             [{| image_file := file; basename := name; byte_data := byte_data;
                 RomScan.height := height; RomScan.width := width |}])
      else load_loop rest patterns
  end.

Definition load_patterns (image_files : list (string * string * gray_image))
    : outcome (list loaded_pattern) :=
  load_loop image_files [].

(** What [bytes_to_png] ends with: the image it saves, the
    [ZeroDivisionError] of [len(pattern_data) // height], or another
    exception. *)
Inductive png_result : Type :=
| Png (img : image)
| ZeroDivisionError
| PngRaises (e : exn).

(** [for bit in range(8)]: [pixels[x, height - 1 - y] = not (byte & (1 << bit))]
    for the columns below the width; [True] is stored as 1. *)
Fixpoint png_bits (img : image) (byte x_byte width y' : Z) (bits : list Z)
    : outcome image :=
  match bits with
  | [] => Returns img
  | bit :: rest =>
      let x := x_byte * 8 + bit in
      if x <? width then
        img' <- putpixel img x y'
                  (if Z.land byte (Z.shiftl 1 bit) =? 0 then 1 else 0) ;;
        png_bits img' byte x_byte width y' rest
      else png_bits img byte x_byte width y' rest
  end.

(** [for x_byte in range((width + 7) // 8)] *)
Fixpoint png_row (img : image) (pattern_data : bytes) (row_start width y' : Z)
    (x_bytes : list Z) : outcome image :=
  match x_bytes with
  | [] => Returns img
  | x_byte :: rest =>
      byte <- getitem pattern_data (row_start + x_byte) ;;
      img' <- png_bits img byte x_byte width y' (range 0 8) ;;
      png_row img' pattern_data row_start width y' rest
  end.

(** [for y in range(height)] *)
Fixpoint png_rows (img : image) (pattern_data : bytes)
    (bytes_per_row width height : Z) (ys : list Z) : outcome image :=
  match ys with
  | [] => Returns img
  | y :: rest =>
      img' <- png_row img pattern_data (y * bytes_per_row) width (height - 1 - y)
                (range 0 ((width + 7) / 8)) ;;
      png_rows img' pattern_data bytes_per_row width height rest
  end.

Definition bytes_to_png (byte_data : bytes) (height width : Z) : png_result :=
  let skip_bytes := (height + 1) / 2 in
  let pattern_data := slice_from byte_data skip_bytes in
  if height =? 0 then ZeroDivisionError
  else
    let bytes_per_row := len pattern_data / height in
    match (img <- Image_new Mode1 width height ;;
           png_rows img pattern_data bytes_per_row width height (range 0 height)) with
    | Returns img => Png img
    | Raises e => PngRaises e
    end.

End RomScanTools.

(* ===================================================================== *)
(** * Vocabulary of the statements                                        *)
(* ===================================================================== *)

Import RomScan.

(* --------------------------------------------------------------------- *)
(** ** The matching engine                                                *)
(* --------------------------------------------------------------------- *)

(** [pattern] occurs in [rom] at position [p]: the bytes
    [rom[p : p + len(pattern)]] exist and are the pattern. *)
Definition occurs_at (rom pattern : bytes) (p : Z) : Prop :=
  0 <= p /\ p + len pattern <= len rom /\ slice rom p (p + len pattern) = pattern.

Definition occurs_atb (rom pattern : bytes) (p : Z) : bool :=
  (0 <=? p) && (p + len pattern <=? len rom)
  && starts_with pattern (skipn (Z.to_nat p) rom).

(** The reserved prefix of a pattern of the given height: ceil(height/2)
    memo bytes. *)
Definition prefix_of (height : Z) : Z := (height + 1) / 2.

(** Position [p] is in the region exact search scans in gap [g]: at or
    beyond the reserved prefix, and the pattern ends inside the gap. *)
Definition searched (prefix_len pattern_len : Z) (g : gap) (p : Z) : Prop :=
  fst g + prefix_len <= p /\ p < snd g /\ p + pattern_len <= snd g.

(** An occurrence of the pattern in the searched region of some gap. *)
Definition occurrence (rom pattern : bytes) (height : Z) (gaps : list gap) (p : Z) : Prop :=
  exists g, In g gaps /\ searched (prefix_of height) (len pattern) g p
            /\ occurs_at rom pattern p.

(** The occurrences in the order exact search meets them: gap by gap, by
    increasing position inside a gap. *)
Definition occurrences (rom pattern : bytes) (prefix_len : Z) (gaps : list gap) : list Z :=
  flat_map
    (fun '(start_pos, end_pos) =>
       filter (occurs_atb rom pattern)
         (range (start_pos + prefix_len)
            (Z.min end_pos (end_pos - len pattern + 1))))
    gaps.

(** Gaps are ranges of ROM addresses, which are not negative. *)
Definition gaps_nonneg (gaps : list gap) : Prop :=
  Forall (fun g : gap => 0 <= fst g) gaps.

(** No two gaps of the list overlap. *)
Definition gaps_disjoint (gaps : list gap) : Prop :=
  ForallOrdPairs (fun g1 g2 : gap => snd g1 <= fst g2 \/ snd g2 <= fst g1) gaps.

(** The bit distance between the pattern and the window of [rom] that
    starts at [p]. *)
Definition window_distance (rom pattern : bytes) (p : Z) : Z :=
  hamming_distance pattern (slice rom p (p + len pattern)).

Definition qualifiesb (rom pattern : bytes) (p : Z) : bool :=
  window_distance rom pattern p <=? max_errors (len pattern).

(** The window at [p] lies inside some gap and is within the tolerance of
    10% of the bits; [d] is its bit distance. *)
Definition qualifies (rom pattern : bytes) (gaps : list gap) (p d : Z) : Prop :=
  exists g, In g gaps /\ fst g <= p /\ p + len pattern <= snd g
            /\ d = window_distance rom pattern p
            /\ d <= len pattern * 8 / 10.

(** The positions of the qualifying windows in the order fuzzy search
    meets them. *)
Definition qualifying_positions (rom pattern : bytes) (gaps : list gap) : list Z :=
  flat_map
    (fun '(start_pos, end_pos) =>
       filter (qualifiesb rom pattern) (range start_pos (end_pos - len pattern + 1)))
    gaps.

(** The positions tied at distance [d] among the qualifying ones. *)
Definition tied_positions (rom pattern : bytes) (gaps : list gap) (d : Z) : list Z :=
  filter (fun p => window_distance rom pattern p =? d)
    (qualifying_positions rom pattern gaps).

(** The invariant of the scan of fuzzy search: [best_distance] is the
    least distance recorded so far, and [best_pos] a position recorded
    with it. *)
Definition fuzzy_inv (st : fuzzy_state) : Prop :=
  match best_distance st with
  | None => found_positions st = [] /\ best_pos st = -1
  | Some d =>
      In (best_pos st, d) (found_positions st)
      /\ (forall p' d', In (p', d') (found_positions st) -> d <= d')
  end.

(** Byte [i] lies inside the range of some entry of [results]. *)
Definition covered (results : list result_entry) (i : Z) : Prop :=
  exists x, In x results /\ result_start x <= i < result_end x.

(** The ranges of accepted matches lie inside the ROM. *)
Definition ranges_in_rom (rom : bytes) (results : list result_entry) : Prop :=
  Forall (fun x => 0 <= result_start x <= result_end x /\ result_end x <= len rom)
    results.

(** Byte [i] lies inside some gap of the list. *)
Definition in_gaps (gaps : list gap) (i : Z) : Prop :=
  exists g, In g gaps /\ fst g <= i < snd g.

(** No two accepted ranges overlap. *)
Definition ranges_disjoint (results : list result_entry) : Prop :=
  ForallOrdPairs
    (fun x y => result_end x <= result_start y \/ result_end y <= result_start x)
    results.

(** Every accepted range is a non-empty range of the search window
    [index_base, rom_size). *)
Definition ranges_in_window (rom_size : Z) (results : list result_entry) : Prop :=
  Forall
    (fun x => index_base <= result_start x /\ result_start x < result_end x
              /\ result_end x <= rom_size)
    results.

(** The gaps and the accepted ranges partition the search window: no two
    ranges overlap, no two gaps overlap, every gap is a non-empty range of
    the window, and a byte of the window lies in a gap exactly when it
    lies in no accepted range. *)
Definition window_partition (rom_size : Z) (results : list result_entry)
    (gaps : list gap) : Prop :=
  ranges_in_window rom_size results
  /\ ranges_disjoint results
  /\ gaps_disjoint gaps
  /\ Forall (fun g : gap => index_base <= fst g /\ fst g < snd g /\ snd g <= rom_size) gaps
  /\ forall i, index_base <= i < rom_size ->
       (in_gaps gaps i <-> ~ covered results i).

(** What the first pass keeps true of its state: the accepted ranges are
    disjoint ranges of the window, and the bytes of the current gaps are
    bytes of the window that no accepted range holds. *)
Definition exact_pass_inv (rom_size : Z) (st : scan_state) : Prop :=
  ranges_in_window rom_size (results st)
  /\ ranges_disjoint (results st)
  /\ gaps_nonneg (RomScan.gaps st)
  /\ gaps_disjoint (RomScan.gaps st)
  /\ forall i, in_gaps (RomScan.gaps st) i ->
       index_base <= i < rom_size /\ ~ covered (results st) i.

(** What both passes keep true of the state of the scan: every accepted
    range has its start at or below its end and a non-negative end, and
    the current gaps are pairwise disjoint ranges of non-negative
    addresses, as the statements on the two searches ask. *)
Definition scan_inv (st : scan_state) : Prop :=
  Forall (fun x => result_start x <= result_end x /\ 0 <= result_end x) (results st)
  /\ gaps_nonneg (RomScan.gaps st)
  /\ gaps_disjoint (RomScan.gaps st).

(* --------------------------------------------------------------------- *)
(** ** The codec                                                          *)
(* --------------------------------------------------------------------- *)

Import ExtractPatterns.

Definition low_nibble (b : Z) : Z := Z.land b 0x0F.

Definition high_nibble (b : Z) : Z := Z.land (Z.shiftr b 4) 0x0F.

(** The sum over the bytes, from index [i] on, of
    (low nibble + 10 * high nibble) * 100^index. *)
Fixpoint bcd_sum (bs : bytes) (i : nat) : Z :=
  match bs with
  | [] => 0
  | b :: t => (low_nibble b + 10 * high_nibble b) * 100 ^ Z.of_nat i + bcd_sum t (S i)
  end.

(** [decode_bcd] as the specification words it: a nibble above 9 is a
    decode error, valid input decodes to the sum of its digit groups. *)
Definition decode_bcd_spec (bs : bytes) : option Z :=
  if forallb (fun b => (low_nibble b <=? 9) && (high_nibble b <=? 9)) bs
  then Some (bcd_sum bs 0)
  else None.

(** The memo values that have a symbol: 0..8, 10 (N) and 11 (F). *)
Definition valid_memo (v : Z) : Prop := 0 <= v <= 8 \/ v = 10 \/ v = 11.

(** Where the bitmap of a pattern starts, and the bytes of one row. *)
Definition bitmap_offset_of (p : pattern) : Z := p_offset p + (p_height p + 1) / 2.

Definition row_bytes_of (p : pattern) : Z := (p_width p + 7) / 8.

(** The memo array and the bitmap of the pattern lie inside the ROM. *)
Definition pattern_in_rom (rom : bytes) (p : pattern) : Prop :=
  0 <= p_offset p /\ 0 <= p_width p /\ 0 <= p_height p
  /\ bitmap_offset_of p + p_height p * row_bytes_of p <= len rom.

Definition rom_byte (rom : bytes) (i : Z) : Z := nth (Z.to_nat i) rom 0.

(** The pixel a byte holds at bit [bit]: 1 when the bit is set. *)
Definition pixel_of (byte bit : Z) : Z :=
  if Z.land byte (Z.shiftl 1 bit) =? 0 then 0 else 1.

(** The monochrome bit of source row [row] at column [x]. *)
Definition mono_bit (rom : bytes) (p : pattern) (row x : Z) : Z :=
  pixel_of (rom_byte rom (bitmap_offset_of p + row * row_bytes_of p + x / 8)) (x mod 8).

(** The memo value of source row [row]: the low nibble of its byte for an
    even row, the high nibble for an odd row. *)
Definition memo_value (rom : bytes) (p : pattern) (row : Z) : Z :=
  let b := rom_byte rom (p_offset p + row / 2) in
  if row mod 2 =? 0 then Z.land b 0x0F else Z.shiftr b 4.

(** The color of visible row [r] at column [x]: the memo value of the
    first of the source rows 3r, 3r+1, 3r+2 whose bit is set at [x], and 0
    when none is. *)
Definition plane_color (rom : bytes) (p : pattern) (r x : Z) : Z :=
  if negb (mono_bit rom p (3 * r) x =? 0) then memo_value rom p (3 * r)
  else if negb (mono_bit rom p (3 * r + 1) x =? 0) then memo_value rom p (3 * r + 1)
  else if negb (mono_bit rom p (3 * r + 2) x =? 0) then memo_value rom p (3 * r + 2)
  else 0.

(* --------------------------------------------------------------------- *)
(** ** Concrete inputs                                                    *)
(* --------------------------------------------------------------------- *)

(** A ROM whose bytes below the index base are 0 and whose bytes from the
    index base on are [tail]. *)
Definition rom_with_tail (tail : bytes) : bytes :=
  repeat 0 (Z.to_nat index_base) ++ tail.

(** Two 8x2 candidate images, one byte per row. *)
Definition candidate_a : loaded_pattern :=
  {| image_file := "a.png"; basename := "a"; byte_data := [0x11; 0x22];
     height := 2; width := 8 |}.

Definition candidate_b : loaded_pattern :=
  {| image_file := "b.png"; basename := "b"; byte_data := [0x33; 0x44];
     height := 2; width := 8 |}.

(** A ROM that holds, from the index base on, the memo byte and the two
    rows of [candidate_a], then the two rows of [candidate_b] with one bit
    flipped and no memo byte before them, then two filler bytes. *)
Definition overlap_rom : bytes :=
  rom_with_tail [0x00; 0x11; 0x22; 0x33; 0x45; 0xFF; 0xFF].

(** A ROM that holds the memo byte and the two rows of [candidate_a] at
    the index base, where the index table is. *)
Definition table_rom : bytes := rom_with_tail [0x00; 0x11; 0x22].

(** A small search window used in the examples. *)
Definition small_rom : bytes := [1; 2; 3; 1; 2; 3; 4].

(** Two 8x2 monochrome patterns one after the other; the memo byte of
    the first one holds the value 9 for row 0. *)
Definition memo_rom : bytes := [0x09; 0xFF; 0x00; 0x00; 0x0F; 0xF0].

Definition memo_pattern_1 : pattern :=
  {| p_type := 0x02; p_number := 1; p_width := 8; p_height := 2; p_offset := 0 |}.

Definition memo_pattern_2 : pattern :=
  {| p_type := 0x02; p_number := 2; p_width := 8; p_height := 2; p_offset := 3 |}.

(** A 3x3 multicolor pattern: memo values 1, 5, 3 for the three planes,
    whose bits are set at columns {0}, {0, 1} and {2}. *)
Definition color_rom : bytes := [0x51; 0x03; 0x01; 0x03; 0x04].

Definition color_pattern : pattern :=
  {| p_type := 0x03; p_number := 1; p_width := 3; p_height := 3; p_offset := 0 |}.

(* --------------------------------------------------------------------- *)
(** ** The index table, images and packed rows                            *)
(* --------------------------------------------------------------------- *)

Import RomScanTools.

(** Where record [i] of the index table starts. *)
Definition slot_base (i : Z) : Z := 0x50000 + i * 12.

(** Record [i] is in use: its header is 02 00 or 03 00. *)
Definition listed (rom : bytes) (i : Z) : bool :=
  ((rom_byte rom (slot_base i) =? 2) || (rom_byte rom (slot_base i) =? 3))
  && (rom_byte rom (slot_base i + 1) =? 0).

(** The descriptor record [i] holds: the type is byte 0, the number, the
    width and the height are the BCD fields at bytes 2-3, 4-5 and 6-7, and
    the offset is byte 9 * 65536 + byte 11 * 256 + byte 10. *)
Definition slot_pattern (rom : bytes) (i : Z) : pattern :=
  let b := fun k => rom_byte rom (slot_base i + k) in
  {| p_type := b 0;
     p_number := bcd_to_int [b 2; b 3];
     p_width := bcd_to_int [b 4; b 5];
     p_height := bcd_to_int [b 6; b 7];
     p_offset := b 9 * 65536 + b 11 * 256 + b 10 |}.

(** The pixel a character of a line stands for: 1 for [#]. *)
Definition char_pixel (c : ascii) : Z := if Ascii.eqb c "#" then 1 else 0.

(** The gray value of the image at column [x] of row [y]. *)
Definition gray_at (g : gray_image) (x y : Z) : Z :=
  nth (Z.to_nat (y * g_width g + x)) (g_data g) 0.

(** The image is well formed: it holds width * height values. *)
Definition gray_wf (g : gray_image) : Prop :=
  0 <= g_width g /\ 0 <= g_height g /\ len (g_data g) = g_width g * g_height g.

(* ===================================================================== *)
(** * Facts on the Python built-ins                                       *)
(* ===================================================================== *)

Section PyFacts.

Lemma len_nonneg {A : Type} (l : list A) : 0 <= len l.
Proof. unfold len. lia. Qed.

Lemma len_app {A : Type} (l1 l2 : list A) : len (l1 ++ l2) = len l1 + len l2.
Proof. unfold len. rewrite length_app. lia. Qed.

Lemma len_cons {A : Type} (x : A) (l : list A) : len (x :: l) = 1 + len l.
Proof. unfold len. cbn [List.length]. lia. Qed.

Lemma range_from_length start n : length (range_from start n) = n.
Proof. revert start. induction n; intros; simpl; auto. Qed.

Lemma In_range_from x start n :
  In x (range_from start n) <-> start <= x < start + Z.of_nat n.
Proof.
  revert start. induction n as [|n IH]; intros start; simpl.
  - lia.
  - rewrite IH. lia.
Qed.

Lemma In_range x a b : In x (range a b) <-> a <= x < b.
Proof. unfold range. rewrite In_range_from. split; lia. Qed.

Lemma range_empty a b : b <= a -> range a b = [].
Proof.
  intros H. unfold range. replace (Z.to_nat (b - a)) with O by lia. reflexivity.
Qed.

Lemma range_cons a b : a < b -> range a b = a :: range (a + 1) b.
Proof.
  intros H. unfold range.
  replace (Z.to_nat (b - a)) with (S (Z.to_nat (b - (a + 1)))) by lia.
  reflexivity.
Qed.

Lemma range_from_app start n m :
  range_from start (n + m) = range_from start n ++ range_from (start + Z.of_nat n) m.
Proof.
  revert start. induction n as [|n IH]; intros start.
  - simpl. f_equal. lia.
  - cbn [Nat.add range_from app]. rewrite IH. do 3 f_equal. lia.
Qed.

Lemma range_app a m b : a <= m <= b -> range a b = range a m ++ range m b.
Proof.
  intros H. unfold range.
  replace (Z.to_nat (b - a)) with (Z.to_nat (m - a) + Z.to_nat (b - m))%nat by lia.
  rewrite range_from_app. do 2 f_equal. lia.
Qed.

Lemma range_length a b : len (range a b) = Z.max 0 (b - a).
Proof. unfold len, range. rewrite range_from_length. lia. Qed.

Lemma NoDup_range a b : NoDup (range a b).
Proof.
  unfold range. generalize (Z.to_nat (b - a)) as n. intros n. revert a.
  induction n as [|n IH]; intros a; simpl; constructor.
  - rewrite In_range_from. lia.
  - apply IH.
Qed.

Lemma filter_none {A : Type} (f : A -> bool) (l : list A) :
  (forall x, In x l -> f x = false) -> filter f l = [].
Proof.
  induction l as [|x l IH]; intros H; simpl; auto.
  rewrite (H x) by (left; reflexivity). apply IH. intros y Hy. apply H. now right.
Qed.

Lemma starts_with_firstn sub l :
  starts_with sub l = true <-> firstn (length sub) l = sub.
Proof.
  revert l. induction sub as [|a sub IH]; intros l; simpl.
  - tauto.
  - destruct l as [|b l]; simpl.
    + split; discriminate.
    + rewrite andb_true_iff, Z.eqb_eq, IH. split.
      * intros [-> ->]. reflexivity.
      * intros H. injection H as H1 H2. split; [symmetry; exact H1 | exact H2].
Qed.

Lemma skipn_skipn_add {A : Type} (i j : nat) (l : list A) :
  skipn j (skipn i l) = skipn (i + j) l.
Proof.
  revert l. induction i as [|i IH]; intros l; simpl; auto.
  destruct l; simpl; auto. now destruct j.
Qed.

(** [find_from] returns the first of its [n] candidates at which [sub]
    starts, and -1 when there is none. *)
Lemma find_from_spec sub l pos n :
  (find_from sub l pos n = -1 /\
   forall j, (j < n)%nat -> starts_with sub (skipn j l) = false)
  \/ (exists j, (j < n)%nat /\ find_from sub l pos n = pos + Z.of_nat j /\
        starts_with sub (skipn j l) = true /\
        forall j', (j' < j)%nat -> starts_with sub (skipn j' l) = false).
Proof.
  revert l pos. induction n as [|n IH]; intros l pos; simpl.
  - left. split; [reflexivity|]. intros j Hj. lia.
  - destruct (starts_with sub l) eqn:E.
    + right. exists O. split; [lia|]. split; [lia|]. split; [exact E|].
      intros j' Hj'. lia.
    + destruct l as [|b t].
      * left. split; [reflexivity|]. intros j _. destruct j; simpl; exact E.
      * destruct (IH t (pos + 1)) as [[H1 H2] | (j & Hj & H1 & H2 & H3)].
        -- left. split; [exact H1|]. intros j Hj. destruct j; simpl; [exact E|].
           apply H2. lia.
        -- right. exists (S j). split; [lia|]. split; [rewrite H1; lia|].
           split; [exact H2|].
           intros j' Hj'. destruct j'; simpl; [exact E|]. apply H3. lia.
Qed.

End PyFacts.

Section FindFacts.

Lemma slice_inside {A : Type} (l : list A) (a b : Z) :
  0 <= a -> a <= b -> b <= len l ->
  slice l a b = firstn (Z.to_nat (b - a)) (skipn (Z.to_nat a) l).
Proof.
  intros Ha Hab Hb. unfold slice, clamp_index.
  destruct (a <? 0) eqn:E1; [lia|]. destruct (b <? 0) eqn:E2; [lia|].
  rewrite !Z.min_l by lia. reflexivity.
Qed.

Lemma len_to_nat {A : Type} (l : list A) : Z.to_nat (len l) = length l.
Proof. unfold len. lia. Qed.

Lemma occurs_atb_true rom pattern p :
  occurs_atb rom pattern p = true <-> occurs_at rom pattern p.
Proof.
  unfold occurs_atb, occurs_at.
  rewrite !andb_true_iff, Z.leb_le, Z.leb_le, starts_with_firstn.
  pose proof (len_nonneg pattern) as Hl.
  split.
  - intros [[H1 H2] H3]. repeat split; auto.
    rewrite slice_inside by lia.
    replace (p + len pattern - p) with (len pattern) by lia.
    rewrite len_to_nat. exact H3.
  - intros (H1 & H2 & H3). repeat split; auto.
    rewrite slice_inside in H3 by lia.
    replace (p + len pattern - p) with (len pattern) in H3 by lia.
    rewrite len_to_nat in H3. exact H3.
Qed.

Lemma occurs_atb_inside rom pattern p :
  occurs_atb rom pattern p = true -> 0 <= p /\ p + len pattern <= len rom.
Proof.
  unfold occurs_atb. rewrite !andb_true_iff, !Z.leb_le. tauto.
Qed.

(** What [find] returns for non-negative bounds. *)
Lemma find_spec data sub s e :
  0 <= s -> 0 <= e ->
  (find data sub s e = -1 /\
   forall i, s <= i -> i + len sub <= e -> occurs_atb data sub i = false)
  \/ (s <= find data sub s e /\ find data sub s e + len sub <= e /\
      occurs_atb data sub (find data sub s e) = true /\
      forall i, s <= i < find data sub s e -> occurs_atb data sub i = false).
Proof.
  intros Hs He. unfold find, clamp_index.
  destruct (s <? 0) eqn:E1; [lia|]. destruct (e <? 0) eqn:E2; [lia|].
  pose proof (len_nonneg sub) as Hsub.
  destruct (Z.min e (len data) - s <? len sub) eqn:E3.
  - left. split; [reflexivity|]. intros i Hi1 Hi2.
    destruct (occurs_atb data sub i) eqn:E; [|reflexivity].
    apply occurs_atb_inside in E. lia.
  - apply Z.ltb_ge in E3.
    set (n := Z.to_nat (Z.min e (len data) - s - len sub + 1)).
    destruct (find_from_spec sub (skipn (Z.to_nat s) data) s n)
      as [[H1 H2] | (j & Hj & H1 & H2 & H3)].
    + left. split; [exact H1|]. intros i Hi1 Hi2.
      unfold occurs_atb.
      destruct (i + len sub <=? len data) eqn:E4;
        [|rewrite andb_false_r; reflexivity].
      apply Z.leb_le in E4.
      specialize (H2 (Z.to_nat (i - s))).
      rewrite skipn_skipn_add in H2.
      replace (Z.to_nat s + Z.to_nat (i - s))%nat with (Z.to_nat i) in H2 by lia.
      rewrite H2; [apply andb_false_r|]. unfold n. lia.
    + right. rewrite H1.
      assert (Hn : Z.of_nat j < Z.min e (len data) - s - len sub + 1)
        by (unfold n in Hj; lia).
      split; [lia|]. split; [lia|]. split.
      * unfold occurs_atb.
        rewrite skipn_skipn_add in H2.
        replace (Z.to_nat (s + Z.of_nat j)) with (Z.to_nat s + j)%nat by lia.
        rewrite H2.
        replace (0 <=? s + Z.of_nat j) with true by (symmetry; apply Z.leb_le; lia).
        replace (s + Z.of_nat j + len sub <=? len data) with true
          by (symmetry; apply Z.leb_le; lia).
        reflexivity.
      * intros i Hi. unfold occurs_atb.
        specialize (H3 (Z.to_nat (i - s))).
        rewrite skipn_skipn_add in H3.
        replace (Z.to_nat s + Z.to_nat (i - s))%nat with (Z.to_nat i) in H3 by lia.
        rewrite H3; [apply andb_false_r|]. lia.
Qed.

(** Whatever the bounds, a position [find] returns is not below its
    [start]: the while loop of the exact search moves forward. *)
Lemma find_lower data sub s e :
  find data sub s e = -1 \/ (s <= find data sub s e /\ 0 <= find data sub s e).
Proof.
  unfold find.
  set (s' := if s <? 0 then Z.max 0 (s + len data) else s).
  assert (Hs' : s <= s' /\ 0 <= s').
  { unfold s'. destruct (s <? 0) eqn:E; [apply Z.ltb_lt in E | apply Z.ltb_ge in E]; lia. }
  destruct (clamp_index (len data) e - s' <? len sub); [left; reflexivity|].
  match goal with |- context [find_from ?a ?b ?c ?d] =>
    destruct (find_from_spec a b c d) as [[H1 _] | (j & _ & H1 & _)] end.
  - left. exact H1.
  - right. rewrite H1. lia.
Qed.

End FindFacts.

(* ===================================================================== *)
(** * Exact search                                                        *)
(* ===================================================================== *)

Section ExactSearch.

Variable rom : bytes.
Variable pattern : bytes.

(** The while loop ends within [end_pos - pos] passes, whatever the
    bounds. *)
Lemma exact_scan_total end_pos :
  forall fuel pos acc,
    (Z.to_nat (end_pos - pos) <= fuel)%nat ->
    exists ms, exact_scan rom fuel pattern end_pos pos acc = Some ms.
Proof.
  induction fuel as [|k IH]; intros pos acc Hfuel; simpl.
  - destruct (pos <? end_pos) eqn:E; [apply Z.ltb_lt in E; lia|]. eauto.
  - destruct (pos <? end_pos) eqn:E; [|eauto].
    apply Z.ltb_lt in E.
    destruct (find_lower rom pattern pos end_pos) as [H | [H1 H2]].
    + rewrite H. simpl. eauto.
    + destruct (find rom pattern pos end_pos <? 0) eqn:E2; [eauto|].
      apply IH. lia.
Qed.

Lemma exact_matches_total prefix_len :
  forall search_ranges acc,
    exists ms, exact_matches rom pattern prefix_len search_ranges acc = Some ms.
Proof.
  induction search_ranges as [|[s e] rest IH]; intros acc; simpl.
  - eauto.
  - destruct (prefix_len + len pattern >? e - s); [apply IH|].
    destruct (exact_scan_total e (Z.to_nat (e - (s + prefix_len))) (s + prefix_len) acc)
      as [ms Hms]; [lia|].
    rewrite Hms. apply IH.
Qed.

(** From a non-negative position on, the loop collects the occurrences
    of the pattern that end inside the range, in increasing order. *)
Lemma exact_scan_spec end_pos :
  forall fuel pos acc,
    0 <= pos ->
    (Z.to_nat (end_pos - pos) <= fuel)%nat ->
    exact_scan rom fuel pattern end_pos pos acc =
    Some (acc ++ filter (occurs_atb rom pattern)
                   (range pos (Z.min end_pos (end_pos - len pattern + 1)))).
Proof.
  pose proof (len_nonneg pattern) as Hlen.
  induction fuel as [|k IH]; intros pos acc Hpos Hfuel; simpl.
  - destruct (pos <? end_pos) eqn:E; [apply Z.ltb_lt in E; lia|].
    apply Z.ltb_ge in E. rewrite range_empty by lia. simpl. now rewrite app_nil_r.
  - destruct (pos <? end_pos) eqn:E.
    2:{ apply Z.ltb_ge in E. rewrite range_empty by lia. simpl. now rewrite app_nil_r. }
    apply Z.ltb_lt in E.
    destruct (find_spec rom pattern pos end_pos) as [[H1 H2] | (H1 & H2 & H3 & H4)];
      try lia.
    + rewrite H1. simpl. rewrite filter_none; [now rewrite app_nil_r|].
      intros x Hx. apply In_range in Hx. apply H2; lia.
    + set (r := find rom pattern pos end_pos) in *.
      destruct (r <? 0) eqn:E2; [apply Z.ltb_lt in E2; lia|].
      assert (Hr : r < end_pos).
      { destruct (Z_lt_le_dec r end_pos) as [Hlt | Hge]; [exact Hlt|]. exfalso.
        assert (Hp : occurs_atb rom pattern pos = true).
        { apply occurs_atb_inside in H3. unfold occurs_atb.
          assert (Hnil : pattern = []).
          { destruct pattern as [|b t]; [reflexivity|]. rewrite len_cons in *.
            pose proof (len_nonneg t). lia. }
          rewrite Hnil in *. simpl.
          rewrite andb_true_r, andb_true_iff, !Z.leb_le. unfold len in *. simpl in *. lia. }
        rewrite H4 in Hp by lia. discriminate. }
      rewrite IH by lia.
      rewrite (range_app pos r) by lia.
      rewrite (range_cons r) by lia.
      rewrite filter_app. simpl. rewrite H3.
      rewrite (filter_none _ (range pos r)).
      2:{ intros x Hx. apply In_range in Hx. apply H4. lia. }
      simpl. rewrite <- app_assoc. reflexivity.
Qed.

(** The list of matches exact search builds is the list of occurrences. *)
Lemma exact_matches_spec prefix_len :
  0 <= prefix_len ->
  forall search_ranges acc,
    gaps_nonneg search_ranges ->
    exact_matches rom pattern prefix_len search_ranges acc =
    Some (acc ++ occurrences rom pattern prefix_len search_ranges).
Proof.
  intros Hp. pose proof (len_nonneg pattern) as Hlen.
  induction search_ranges as [|[s e] rest IH]; intros acc Hnn; simpl.
  - now rewrite app_nil_r.
  - inversion Hnn as [|g gs Hg Hrest]; subst. simpl in Hg.
    destruct (prefix_len + len pattern >? e - s) eqn:E.
    + apply Z.gtb_lt in E. rewrite range_empty by lia. simpl. apply IH, Hrest.
    + rewrite exact_scan_spec by lia.
      rewrite IH by exact Hrest. rewrite <- app_assoc. reflexivity.
Qed.

End ExactSearch.

Section ExactOutcome.

Lemma prefix_of_nonneg height : 0 <= height -> 0 <= prefix_of height.
Proof. intros H. unfold prefix_of. apply Z.div_pos; lia. Qed.

Lemma slice_to_firstn {A : Type} (l : list A) (k : Z) :
  0 <= k -> slice_to l k = firstn (Z.to_nat k) l.
Proof.
  intros Hk. unfold slice_to, clamp_index.
  destruct (k <? 0) eqn:E; [apply Z.ltb_lt in E; lia|].
  destruct (Z_le_gt_dec k (len l)) as [H | H].
  - rewrite Z.min_l by lia. reflexivity.
  - rewrite Z.min_r by lia. rewrite len_to_nat.
    rewrite firstn_all. symmetry. apply firstn_all2. unfold len in H. lia.
Qed.

Lemma In_occurrences rom pattern height gaps p :
  In p (occurrences rom pattern (prefix_of height) gaps)
  <-> occurrence rom pattern height gaps p.
Proof.
  unfold occurrences, occurrence, searched. rewrite in_flat_map. split.
  - intros ([s e] & Hg & Hp). apply filter_In in Hp. destruct Hp as [Hr Ho].
    apply In_range in Hr. apply occurs_atb_true in Ho.
    exists (s, e). simpl. split; [exact Hg | split; [lia | exact Ho]].
  - intros ([s e] & Hg & (H1 & H2 & H3) & Ho). simpl in *.
    exists (s, e). split; [exact Hg|]. apply filter_In. split.
    + apply In_range. lia.
    + apply occurs_atb_true, Ho.
Qed.

(** An occurrence lies in the gap it was found in. *)
Lemma searched_in_gap prefix_len pattern_len g p :
  0 <= prefix_len -> 0 <= pattern_len ->
  searched prefix_len pattern_len g p ->
  fst g <= p - prefix_len /\ p + pattern_len <= snd g /\ fst g <= p < snd g.
Proof. unfold searched. lia. Qed.

Lemma NoDup_occurrences rom pattern height gaps :
  0 <= height -> gaps_disjoint gaps ->
  NoDup (occurrences rom pattern (prefix_of height) gaps).
Proof.
  intros Hh Hd. pose proof (prefix_of_nonneg height Hh) as Hp.
  induction Hd as [|[s e] rest Hg Hrest IH].
  - constructor.
  - change (occurrences rom pattern (prefix_of height) ((s, e) :: rest))
      with (filter (occurs_atb rom pattern)
              (range (s + prefix_of height) (Z.min e (e - len pattern + 1)))
            ++ occurrences rom pattern (prefix_of height) rest).
    apply NoDup_app.
    + apply NoDup_filter, NoDup_range.
    + exact IH.
    + intros p Hin1 Hin2. apply filter_In in Hin1. destruct Hin1 as [Hr _].
      apply In_range in Hr. apply In_occurrences in Hin2.
      destruct Hin2 as (g & Hgin & (H1 & H2 & H3) & _).
      rewrite Forall_forall in Hg. specialize (Hg g Hgin). simpl in Hg. lia.
Qed.

Lemma nodup_singleton (l : list Z) (P : Z) :
  NoDup l -> (forall p, In p l <-> p = P) -> l = [P].
Proof.
  intros Hnd H. destruct l as [|x l].
  - exfalso. apply (proj2 (H P) eq_refl).
  - assert (x = P) by (apply H; now left). subst x.
    destruct l as [|y l]; [reflexivity|]. exfalso.
    assert (y = P) by (apply H; right; now left). subst y.
    inversion Hnd as [|? ? Hnotin _]. apply Hnotin. now left.
Qed.

Lemma two_members (l : list Z) (P Q : Z) :
  P <> Q -> In P l -> In Q l -> exists x y t, l = x :: y :: t.
Proof.
  intros Hne HP HQ. destruct l as [|x [|y t]].
  - destruct HP.
  - simpl in HP, HQ. exfalso. intuition congruence.
  - eauto.
Qed.

(** C1. Exact search sorts its outcome by the number of occurrences of
    the pattern in the searched regions of the gaps (gaps being ranges of
    non-negative addresses): one occurrence only, at [P], in pairwise
    disjoint gaps, gives the single match [(P - ceil(height/2),
    P + len(pattern))]; two distinct occurrences give the ambiguous
    outcome, nothing accepted, and the first 5 positions met are printed;
    no occurrence gives no match. The positions met are exactly the
    occurrences. *)
Theorem exact_search_outcome rom pattern height gaps basename width :
  0 <= height ->
  gaps_nonneg gaps ->
  (forall P,
      gaps_disjoint gaps ->
      (forall p, occurrence rom pattern height gaps p <-> p = P) ->
      exact_search_in_rom rom pattern height gaps basename width =
      Some ([], ExactMatch (P - prefix_of height, P + len pattern, None)))
  /\ (forall P Q,
        P <> Q ->
        occurrence rom pattern height gaps P ->
        occurrence rom pattern height gaps Q ->
        exact_search_in_rom rom pattern height gaps basename width =
        Some ([MultipleOffsets basename width height
                 (map (fun p => (p, p - prefix_of height))
                    (firstn 5 (occurrences rom pattern (prefix_of height) gaps)))],
              ExactAmbiguous))
  /\ ((forall p, ~ occurrence rom pattern height gaps p) ->
      exact_search_in_rom rom pattern height gaps basename width =
      Some ([], ExactNone))
  /\ (forall p, In p (occurrences rom pattern (prefix_of height) gaps)
                <-> occurrence rom pattern height gaps p).
Proof.
  intros Hh Hnn. pose proof (prefix_of_nonneg height Hh) as Hp.
  unfold exact_search_in_rom. fold (prefix_of height).
  rewrite exact_matches_spec by assumption. cbn [app].
  set (occs := occurrences rom pattern (prefix_of height) gaps).
  repeat split.
  - intros P Hd HP.
    assert (Hocc : occs = [P]).
    { apply nodup_singleton.
      - apply NoDup_occurrences; assumption.
      - intros p. unfold occs. rewrite In_occurrences. apply HP. }
    rewrite Hocc. reflexivity.
  - intros P Q Hne HP HQ.
    apply In_occurrences in HP. apply In_occurrences in HQ. fold occs in HP, HQ.
    destruct (two_members occs P Q Hne HP HQ) as (x & y & t & Hocc).
    rewrite Hocc. rewrite slice_to_firstn by lia.
    replace (len (x :: y :: t) >? 1) with true; [reflexivity|].
    symmetry. apply Z.gtb_lt. rewrite !len_cons. pose proof (len_nonneg t). lia.
  - intros Hnone. destruct occs as [|x t] eqn:Hocc; [reflexivity|]. exfalso.
    apply (Hnone x). apply In_occurrences. fold occs. rewrite Hocc. now left.
  - apply In_occurrences.
  - apply In_occurrences.
Qed.

(** C10. A single match of the exact search comes from an occurrence at
    some [P] in the searched region of a gap [g] of the list, and its
    range [(P - ceil(height/2), P + len(pattern))] lies inside [g]: the
    start is not below the start of the gap, because [P] is at least the
    prefix beyond it, and the end is not above the end of the gap. *)
Theorem exact_match_within_gap rom pattern height gaps basename width out start stop dist :
  0 <= height ->
  gaps_nonneg gaps ->
  exact_search_in_rom rom pattern height gaps basename width =
    Some (out, ExactMatch (start, stop, dist)) ->
  exists g P,
    In g gaps /\ occurs_at rom pattern P
    /\ fst g + prefix_of height <= P
    /\ start = P - prefix_of height /\ stop = P + len pattern
    /\ fst g <= start /\ stop <= snd g.
Proof.
  intros Hh Hnn. pose proof (prefix_of_nonneg height Hh) as Hp.
  unfold exact_search_in_rom. fold (prefix_of height).
  rewrite exact_matches_spec by assumption. cbn [app].
  destruct (occurrences rom pattern (prefix_of height) gaps) as [|P t] eqn:Hocc;
    [discriminate|].
  destruct (len (P :: t) >? 1); [discriminate|].
  intros H. injection H as _ Hs He _.
  assert (HP : occurrence rom pattern height gaps P).
  { apply In_occurrences. rewrite Hocc. now left. }
  destruct HP as (g & Hg & (H1 & H2 & H3) & Ho).
  exists g, P. split; [exact Hg|]. split; [exact Ho|]. lia.
Qed.

End ExactOutcome.

(* ===================================================================== *)
(** * Fuzzy search                                                        *)
(* ===================================================================== *)

Section FuzzySearch.

Variable rom : bytes.
Variable pattern : bytes.

Local Abbreviation with_distance := (fun p : Z => (p, window_distance rom pattern p)).

Lemma fuzzy_step_found st pos :
  found_positions (fuzzy_step rom pattern st pos) =
  found_positions st ++ map with_distance (filter (qualifiesb rom pattern) [pos]).
Proof.
  unfold fuzzy_step, qualifiesb. fold (window_distance rom pattern pos). simpl.
  destruct (window_distance rom pattern pos <=? max_errors (len pattern)); simpl.
  - destruct (lt_best _ _); reflexivity.
  - now rewrite app_nil_r.
Qed.

Lemma fuzzy_step_inv st pos :
  fuzzy_inv st -> fuzzy_inv (fuzzy_step rom pattern st pos).
Proof.
  intros Hinv. unfold fuzzy_step. fold (window_distance rom pattern pos).
  set (d := window_distance rom pattern pos).
  destruct (d <=? max_errors (len pattern)); [|exact Hinv].
  unfold fuzzy_inv in *. destruct (best_distance st) as [b|] eqn:Hb; simpl.
  - destruct Hinv as [Hin Hmin]. destruct (d <? b) eqn:E; simpl.
    + apply Z.ltb_lt in E. split.
      * apply in_or_app. right. now left.
      * intros p' d' H. apply in_app_or in H. destruct H as [H | [H | []]].
        -- specialize (Hmin _ _ H). lia.
        -- injection H as _ H. lia.
    + apply Z.ltb_ge in E. rewrite Hb. split.
      * apply in_or_app. now left.
      * intros p' d' H. apply in_app_or in H. destruct H as [H | [H | []]].
        -- exact (Hmin _ _ H).
        -- injection H as _ H. lia.
  - destruct Hinv as [Hnil _]. rewrite Hnil. simpl. split.
    + now left.
    + intros p' d' [H | []]. injection H as _ H. lia.
Qed.

Lemma fuzzy_fold positions :
  forall st,
    fuzzy_inv st ->
    fuzzy_inv (fold_left (fuzzy_step rom pattern) positions st)
    /\ found_positions (fold_left (fuzzy_step rom pattern) positions st) =
       found_positions st ++ map with_distance (filter (qualifiesb rom pattern) positions).
Proof.
  induction positions as [|pos rest IH]; intros st Hinv; simpl.
  - split; [exact Hinv | now rewrite app_nil_r].
  - destruct (IH _ (fuzzy_step_inv st pos Hinv)) as [H1 H2].
    split; [exact H1|]. rewrite H2, fuzzy_step_found. simpl.
    destruct (qualifiesb rom pattern pos); simpl.
    + now rewrite <- app_assoc.
    + now rewrite app_nil_r.
Qed.

(** After the scan, the positions recorded are the qualifying ones, each
    with its distance. *)
Lemma fuzzy_scan_spec search_ranges :
  forall st,
    fuzzy_inv st ->
    fuzzy_inv (fuzzy_scan rom pattern search_ranges st)
    /\ found_positions (fuzzy_scan rom pattern search_ranges st) =
       found_positions st
       ++ map with_distance (qualifying_positions rom pattern search_ranges).
Proof.
  unfold fuzzy_scan.
  induction search_ranges as [|[s e] rest IH]; intros st Hinv; simpl.
  - split; [exact Hinv | now rewrite app_nil_r].
  - destruct (len pattern >? e - s) eqn:E.
    + apply Z.gtb_lt in E. rewrite range_empty by lia. simpl. apply IH, Hinv.
    + destruct (fuzzy_fold (range s (e - len pattern + 1)) st Hinv) as [H1 H2].
      destruct (IH _ H1) as [H3 H4]. split; [exact H3|].
      rewrite H4, H2, map_app, <- app_assoc. reflexivity.
Qed.

Lemma In_qualifying gaps p d :
  In (p, d) (map with_distance (qualifying_positions rom pattern gaps))
  <-> qualifies rom pattern gaps p d.
Proof.
  unfold qualifying_positions, qualifies. rewrite in_map_iff. split.
  - intros (q & Heq & Hin). injection Heq as -> <-.
    apply in_flat_map in Hin. destruct Hin as ([s e] & Hg & Hin).
    apply filter_In in Hin. destruct Hin as [Hr Hq]. apply In_range in Hr.
    unfold qualifiesb, max_errors in Hq. apply Z.leb_le in Hq.
    exists (s, e). simpl. repeat split; auto; lia.
  - intros ([s e] & Hg & H1 & H2 & -> & H3). simpl in *.
    exists p. split; [reflexivity|]. apply in_flat_map. exists (s, e).
    split; [exact Hg|]. apply filter_In. split.
    + apply In_range. lia.
    + unfold qualifiesb, max_errors. apply Z.leb_le. exact H3.
Qed.

Lemma qualifying_positions_in_gap gaps p :
  In p (qualifying_positions rom pattern gaps) ->
  exists g, In g gaps /\ fst g <= p /\ p + len pattern <= snd g.
Proof.
  unfold qualifying_positions. intros Hin.
  apply in_flat_map in Hin. destruct Hin as ([s e] & Hg & Hin).
  apply filter_In in Hin. destruct Hin as [Hr _]. apply In_range in Hr.
  exists (s, e). simpl. split; [exact Hg | lia].
Qed.

Lemma NoDup_qualifying gaps :
  pattern <> [] -> gaps_disjoint gaps ->
  NoDup (qualifying_positions rom pattern gaps).
Proof.
  intros Hne Hd.
  assert (Hlen : 0 < len pattern).
  { destruct pattern as [|b t]; [congruence|]. rewrite len_cons.
    pose proof (len_nonneg t). lia. }
  induction Hd as [|[s e] rest Hg Hrest IH].
  - constructor.
  - change (qualifying_positions rom pattern ((s, e) :: rest))
      with (filter (qualifiesb rom pattern) (range s (e - len pattern + 1))
            ++ qualifying_positions rom pattern rest).
    apply NoDup_app.
    + apply NoDup_filter, NoDup_range.
    + exact IH.
    + intros p Hin1 Hin2. apply filter_In in Hin1. destruct Hin1 as [Hr _].
      apply In_range in Hr.
      apply qualifying_positions_in_gap in Hin2.
      destruct Hin2 as (g & Hgin & H1 & H2).
      rewrite Forall_forall in Hg. specialize (Hg g Hgin). simpl in Hg. lia.
Qed.

Lemma filter_with_distance d (l : list Z) :
  filter (fun '(_, dist) => eq_best dist (Some d)) (map with_distance l) =
  map with_distance (filter (fun p => window_distance rom pattern p =? d) l).
Proof.
  induction l as [|p l IH]; [reflexivity|].
  simpl. destruct (window_distance rom pattern p =? d); simpl; [f_equal|]; apply IH.
Qed.

Lemma show_ties_spec d (l : list Z) :
  forall shown,
    0 <= shown <= 5 ->
    show_ties (Some d) (map with_distance l) shown =
    firstn (Z.to_nat (5 - shown))
      (filter (fun p => window_distance rom pattern p =? d) l).
Proof.
  induction l as [|p l IH]; intros shown Hs; cbn [map show_ties filter eq_best].
  - now rewrite firstn_nil.
  - destruct (window_distance rom pattern p =? d); cbn [andb].
    + destruct (shown <? 5) eqn:E.
      * apply Z.ltb_lt in E. rewrite IH by lia.
        replace (Z.to_nat (5 - shown)) with (S (Z.to_nat (5 - (shown + 1)))) by lia.
        reflexivity.
      * apply Z.ltb_ge in E. rewrite IH by lia.
        replace (Z.to_nat (5 - shown)) with O by lia. reflexivity.
    + apply IH, Hs.
Qed.

End FuzzySearch.

Section FuzzyOutcome.

Lemma fuzzy_inv_init : fuzzy_inv fuzzy_init.
Proof. unfold fuzzy_inv, fuzzy_init. simpl. auto. Qed.

Lemma In_tied rom pattern gaps p d :
  In p (tied_positions rom pattern gaps d) <-> qualifies rom pattern gaps p d.
Proof.
  unfold tied_positions. rewrite filter_In, Z.eqb_eq, <- In_qualifying, in_map_iff.
  split.
  - intros [Hin Hd]. exists p. split; [now rewrite Hd | exact Hin].
  - intros (q & Heq & Hin). injection Heq as -> <-. auto.
Qed.

Lemma nodup_all_equal (l : list Z) (P : Z) :
  NoDup l -> (forall p, In p l -> p = P) -> len l <= 1.
Proof.
  intros Hnd H. destruct l as [|x [|y t]]; unfold len; simpl; try lia.
  exfalso. assert (x = P) by (apply H; now left).
  assert (y = P) by (apply H; right; now left). subst.
  inversion Hnd as [|? ? Hnotin _]. apply Hnotin. now left.
Qed.

Lemma two_members_len (l : list Z) (P Q : Z) :
  P <> Q -> In P l -> In Q l -> 2 <= len l.
Proof.
  intros Hne HP HQ. destruct (two_members l P Q Hne HP HQ) as (x & y & t & ->).
  rewrite !len_cons. pose proof (len_nonneg t). lia.
Qed.

Lemma len_map {A B : Type} (f : A -> B) (l : list A) : len (map f l) = len l.
Proof. unfold len. now rewrite length_map. Qed.

(** C2. Fuzzy search looks at the window of len(pattern) bytes at every
    position of every gap (gaps being ranges of non-negative addresses);
    a window qualifies when its bit distance to the pattern is at most
    floor(len(pattern) * 8 / 10). When one position only attains the
    least qualifying distance (pattern not empty, gaps pairwise disjoint),
    it is accepted with start = pos - ceil(height/2),
    end = pos + len(pattern) and that distance; when two distinct
    positions attain it, nothing is accepted and the first 5 tied
    positions are printed; when no window qualifies, nothing is
    accepted. *)
Theorem fuzzy_search_outcome rom pattern height gaps basename width :
  gaps_nonneg gaps ->
  (forall P d,
      pattern <> [] ->
      gaps_disjoint gaps ->
      qualifies rom pattern gaps P d ->
      (forall p' d', qualifies rom pattern gaps p' d' -> d <= d') ->
      (forall p', qualifies rom pattern gaps p' d -> p' = P) ->
      fuzzy_search_in_rom rom pattern height gaps basename width =
      ([], Some (P - prefix_of height, P + len pattern, Some d)))
  /\ (forall P Q d,
        P <> Q ->
        qualifies rom pattern gaps P d ->
        qualifies rom pattern gaps Q d ->
        (forall p' d', qualifies rom pattern gaps p' d' -> d <= d') ->
        fuzzy_search_in_rom rom pattern height gaps basename width =
        ([TiedMatches basename width height
            (len (tied_positions rom pattern gaps d)) d
            (firstn 5 (tied_positions rom pattern gaps d))],
         None))
  /\ ((forall p d, ~ qualifies rom pattern gaps p d) ->
      fuzzy_search_in_rom rom pattern height gaps basename width = ([], None))
  /\ (forall p d, In p (tied_positions rom pattern gaps d)
                  <-> qualifies rom pattern gaps p d).
Proof.
  intros Hnn.
  destruct (fuzzy_scan_spec rom pattern gaps fuzzy_init fuzzy_inv_init) as [Hinv Hfound].
  cbn [fuzzy_init found_positions app] in Hfound.
  assert (Hbest : forall P d,
            qualifies rom pattern gaps P d ->
            (forall p' d', qualifies rom pattern gaps p' d' -> d <= d') ->
            best_distance (fuzzy_scan rom pattern gaps fuzzy_init) = Some d
            /\ qualifies rom pattern gaps
                 (best_pos (fuzzy_scan rom pattern gaps fuzzy_init)) d
            /\ 0 <= best_pos (fuzzy_scan rom pattern gaps fuzzy_init)).
  { intros P d HP Hmin. unfold fuzzy_inv in Hinv.
    apply In_qualifying in HP. rewrite <- Hfound in HP.
    destruct (best_distance (fuzzy_scan rom pattern gaps fuzzy_init)) as [b|].
    - destruct Hinv as [Hin Hle]. rewrite Hfound in Hin. apply In_qualifying in Hin.
      assert (b = d) by (specialize (Hle _ _ HP); specialize (Hmin _ _ Hin); lia).
      subst b. split; [reflexivity|]. split; [exact Hin|].
      destruct Hin as (g & Hg & H1 & _). unfold gaps_nonneg in Hnn.
      rewrite Forall_forall in Hnn. specialize (Hnn g Hg). simpl in Hnn. lia.
    - destruct Hinv as [Hnil _]. rewrite Hnil in HP. destruct HP. }
  unfold fuzzy_search_in_rom.
  set (st := fuzzy_scan rom pattern gaps fuzzy_init) in *.
  repeat split.
  - intros P d Hne Hd HP Hmin Huniq.
    destruct (Hbest P d HP Hmin) as (Hb & Hq & Hpos).
    apply Huniq in Hq.
    destruct (best_pos st <? 0) eqn:E; [apply Z.ltb_lt in E; lia|].
    rewrite Hb, Hfound, filter_with_distance, len_map.
    fold (tied_positions rom pattern gaps d).
    assert (Hlen : len (tied_positions rom pattern gaps d) <= 1).
    { apply (nodup_all_equal _ P).
      - apply NoDup_filter, NoDup_qualifying; assumption.
      - intros p Hp. apply Huniq, In_tied, Hp. }
    destruct (len (tied_positions rom pattern gaps d) >? 1) eqn:E2;
      [apply Z.gtb_lt in E2; lia|].
    rewrite Hq. reflexivity.
  - intros P Q d Hne HP HQ Hmin.
    destruct (Hbest P d HP Hmin) as (Hb & Hq & Hpos).
    destruct (best_pos st <? 0) eqn:E; [apply Z.ltb_lt in E; lia|].
    rewrite Hb, Hfound, filter_with_distance, len_map.
    fold (tied_positions rom pattern gaps d).
    assert (Hlen : 2 <= len (tied_positions rom pattern gaps d)).
    { apply (two_members_len _ P Q Hne); apply In_tied; assumption. }
    destruct (len (tied_positions rom pattern gaps d) >? 1) eqn:E2;
      [|rewrite Z.gtb_ltb in E2; apply Z.ltb_ge in E2; lia].
    rewrite show_ties_spec by lia. reflexivity.
  - intros Hnone. unfold fuzzy_inv in Hinv. rewrite Hfound in Hinv.
    destruct (best_distance st) as [b|].
    + destruct Hinv as [Hin _]. apply In_qualifying in Hin.
      exfalso. exact (Hnone _ _ Hin).
    + destruct Hinv as [_ Hneg]. rewrite Hneg. reflexivity.
  - apply In_tied.
  - apply In_tied.
Qed.

End FuzzyOutcome.

(* ===================================================================== *)
(** * The redacted copy of the ROM                                        *)
(* ===================================================================== *)

Section ZeroRanges.

Lemma getitem_nth_error {A : Type} (l : list A) (i : Z) :
  0 <= i ->
  getitem l i = match nth_error l (Z.to_nat i) with
                | Some v => Returns v
                | None => Raises IndexError
                end.
Proof.
  intros Hi. unfold getitem.
  destruct (i <? 0) eqn:E; [apply Z.ltb_lt in E; lia|]. rewrite E. reflexivity.
Qed.

Lemma covered_dec results i : covered results i \/ ~ covered results i.
Proof.
  induction results as [|x rest IH].
  - right. intros (y & [] & _).
  - destruct IH as [(y & Hy & Hr) | Hn].
    + left. exists y. split; [now right | exact Hr].
    + destruct (Z_le_dec (result_start x) i) as [H1 | H1];
        [destruct (Z_lt_dec i (result_end x)) as [H2 | H2]|].
      * left. exists x. split; [now left | lia].
      * right. intros (y & [<- | Hy] & Hr); [lia|]. apply Hn. exists y. auto.
      * right. intros (y & [<- | Hy] & Hr); [lia|]. apply Hn. exists y. auto.
Qed.

(** Assigning zeros to an in-range slice keeps the length and changes the
    bytes of the slice only. *)
Lemma slice_assign_zeros (c : bytes) (start stop : Z) :
  0 <= start <= stop -> stop <= len c ->
  let c' := slice_assign c start (start + (stop - start))
              (repeat 0 (Z.to_nat (stop - start))) in
  len c' = len c
  /\ forall i, 0 <= i < len c ->
       nth_error c' (Z.to_nat i) =
       if (start <=? i) && (i <? stop) then Some 0 else nth_error c (Z.to_nat i).
Proof.
  intros H1 H2. unfold slice_assign, clamp_index.
  destruct (start <? 0) eqn:E1; [apply Z.ltb_lt in E1; lia|].
  destruct (start + (stop - start) <? 0) eqn:E2; [apply Z.ltb_lt in E2; lia|].
  replace (start + (stop - start)) with stop by lia.
  rewrite (Z.min_l start) by lia. rewrite (Z.min_l stop) by lia.
  rewrite Z.max_r by lia. cbn zeta.
  assert (Hf : length (firstn (Z.to_nat start) c) = Z.to_nat start).
  { rewrite length_firstn. unfold len in *. lia. }
  split.
  - unfold len in *. rewrite !length_app, Hf, repeat_length, length_skipn. lia.
  - intros i Hi.
    destruct (start <=? i) eqn:E3; [apply Z.leb_le in E3 | apply Z.leb_gt in E3].
    + rewrite nth_error_app2 by lia. rewrite Hf.
      destruct (i <? stop) eqn:E4; [apply Z.ltb_lt in E4 | apply Z.ltb_ge in E4]; cbn [andb].
      * rewrite nth_error_app1 by (rewrite repeat_length; lia).
        apply nth_error_repeat. lia.
      * rewrite nth_error_app2 by (rewrite repeat_length; lia).
        rewrite repeat_length, nth_error_skipn. f_equal. lia.
    + cbn [andb]. rewrite nth_error_app1 by lia.
      rewrite nth_error_firstn.
      replace (Z.to_nat i <? Z.to_nat start)%nat with true; [reflexivity|].
      symmetry. apply Nat.ltb_lt. lia.
Qed.

Lemma zero_loop_spec results :
  forall c,
    Forall (fun x => 0 <= result_start x <= result_end x /\ result_end x <= len c)
      results ->
    exists out,
      zero_loop c results = Returns out
      /\ len out = len c
      /\ forall i, 0 <= i < len c ->
           (covered results i -> nth_error out (Z.to_nat i) = Some 0)
           /\ (~ covered results i ->
               nth_error out (Z.to_nat i) = nth_error c (Z.to_nat i)).
Proof.
  induction results as [|x rest IH]; intros c Hv.
  - exists c. split; [reflexivity|]. split; [reflexivity|].
    intros i Hi. split; [intros (y & [] & _) | reflexivity].
  - inversion Hv as [|? ? Hx Hrest]; subst.
    destruct x as [[name [[start stop] dist]] fz]. simpl in Hx.
    cbn [zero_loop]. unfold bytes_zero.
    destruct (stop - start <? 0) eqn:E; [apply Z.ltb_lt in E; lia|].
    cbn [Py.bind].
    destruct (slice_assign_zeros c start stop) as [Hlen Hnth]; [lia | lia |].
    set (c' := slice_assign c start (start + (stop - start))
                 (repeat 0 (Z.to_nat (stop - start)))) in *.
    destruct (IH c') as (out & Hout & Hlenout & Hbytes).
    { rewrite Hlen. exact Hrest. }
    exists out. split; [exact Hout|]. split; [lia|].
    intros i Hi. rewrite Hlen in Hbytes. destruct (Hbytes i Hi) as [Hc Hnc].
    specialize (Hnth i Hi).
    destruct (covered_dec rest i) as [Hcov | Hncov].
    + split; [intros _; exact (Hc Hcov)|].
      intros Hn. exfalso. apply Hn. destruct Hcov as (y & Hy & Hr).
      exists y. split; [now right | exact Hr].
    + rewrite (Hnc Hncov), Hnth. split.
      * intros (y & [<- | Hy] & Hr).
        -- simpl in Hr.
           replace (start <=? i) with true by (symmetry; apply Z.leb_le; lia).
           replace (i <? stop) with true by (symmetry; apply Z.ltb_lt; lia).
           reflexivity.
        -- exfalso. apply Hncov. exists y. auto.
      * intros Hn.
        destruct ((start <=? i) && (i <? stop)) eqn:E2; [|reflexivity].
        exfalso. apply Hn. exists (name, (start, stop, dist), fz).
        apply andb_true_iff in E2. destruct E2 as [E3 E4].
        apply Z.leb_le in E3. apply Z.ltb_lt in E4.
        split; [now left | simpl; lia].
Qed.

(** C9. For a ROM and accepted matches whose ranges lie inside it,
    [zero_patterns_in_rom] returns a buffer of the length of the ROM in
    which every byte inside some accepted range [start, end) is zero and
    every other byte is the byte of the ROM. The ROM is a value of the
    model: the buffer is built from a copy and the ROM is not changed. *)
Theorem zero_patterns_frame rom results :
  ranges_in_rom rom results ->
  exists out,
    zero_patterns_in_rom rom results = Returns out
    /\ len out = len rom
    /\ forall i, 0 <= i < len rom ->
         (covered results i -> getitem out i = Returns 0)
         /\ (~ covered results i -> getitem out i = getitem rom i).
Proof.
  intros Hv. unfold zero_patterns_in_rom.
  destruct (zero_loop_spec results rom Hv) as (out & Hout & Hlen & Hbytes).
  exists out. split; [exact Hout|]. split; [exact Hlen|].
  intros i Hi. destruct (Hbytes i Hi) as [Hc Hnc].
  rewrite !getitem_nth_error by lia. split.
  - intros H. now rewrite (Hc H).
  - intros H. now rewrite (Hnc H).
Qed.

End ZeroRanges.

(* ===================================================================== *)
(** * The numeric codec                                                   *)
(* ===================================================================== *)

Section NumericCodec.

Lemma bcd_fold bs :
  forall result i,
    fold_left bcd_step bs (result, 100 ^ Z.of_nat i) =
    (result + bcd_sum bs i, 100 ^ Z.of_nat (i + length bs)).
Proof.
  induction bs as [|b t IH]; intros result i; cbn [fold_left bcd_sum length].
  - rewrite Nat.add_0_r. f_equal. lia.
  - unfold bcd_step at 2. fold (low_nibble b). fold (high_nibble b).
    replace (100 ^ Z.of_nat i * 100) with (100 ^ Z.of_nat (S i))
      by (rewrite Nat2Z.inj_succ, Z.pow_succ_r by lia; lia).
    rewrite IH. f_equal.
    + lia.
    + f_equal. lia.
Qed.

(** C6 as the code has it. [bcd_to_int] never fails: for every byte
    sequence, nibbles above 9 included, it returns the sum over the byte
    index i of (low nibble + 10 * high nibble) * 100^i. On valid BCD this
    is the value the specification asks for, and the four fixtures
    hold. *)
Theorem bcd_to_int_value bs :
  bcd_to_int bs = bcd_sum bs 0
  /\ (forall v, decode_bcd_spec bs = Some v -> bcd_to_int bs = v)
  /\ bcd_to_int [0x01; 0x00] = 1
  /\ bcd_to_int [0x19; 0x06] = 619
  /\ bcd_to_int [0x66; 0x00] = 66
  /\ bcd_to_int [0x00; 0x01] = 100.
Proof.
  assert (H : bcd_to_int bs = bcd_sum bs 0).
  { unfold bcd_to_int. change 1 with (100 ^ Z.of_nat 0).
    rewrite bcd_fold. simpl. reflexivity. }
  split; [exact H|]. split.
  - intros v Hv. unfold decode_bcd_spec in Hv.
    destruct (forallb _ bs); [|discriminate]. injection Hv as <-. exact H.
  - repeat split; reflexivity.
Qed.

(** C6, the failing part: the byte 0x0A has the low nibble 10, the
    specification asks for a decode error, and [bcd_to_int] returns 10. *)
Lemma bcd_to_int_accepts_invalid_nibble :
  9 < low_nibble 0x0A
  /\ decode_bcd_spec [0x0A; 0x00] = None
  /\ bcd_to_int [0x0A; 0x00] = 10.
Proof. repeat split; reflexivity. Qed.

End NumericCodec.

(* ===================================================================== *)
(** * The bitmap codec                                                    *)
(* ===================================================================== *)

Section MonochromeRows.

Lemma range_from_range a n : range_from a n = range a (a + Z.of_nat n).
Proof. unfold range. f_equal. lia. Qed.

(** Keeping the elements of a run of integers that are below a bound. *)
Lemma flat_map_below (f : Z -> Z) (w : Z) :
  forall n a,
    flat_map (fun i => if i <? w then [f i] else []) (range_from a n) =
    map f (range a (Z.min w (a + Z.of_nat n))).
Proof.
  induction n as [|n IH]; intros a; cbn [range_from flat_map].
  - rewrite range_empty by lia. reflexivity.
  - rewrite IH. destruct (a <? w) eqn:E.
    + apply Z.ltb_lt in E. rewrite (range_cons a) by lia. cbn [map app].
      do 3 f_equal. lia.
    + apply Z.ltb_ge in E. rewrite !range_empty by lia. reflexivity.
Qed.

Lemma map_range_shift (f : Z -> Z) (c : Z) :
  forall n a,
    map (fun i => f (c + i)) (range_from a n) = map f (range_from (c + a) n).
Proof.
  induction n as [|n IH]; intros a; cbn [range_from map]; [reflexivity|].
  rewrite IH. do 3 f_equal. lia.
Qed.

Lemma flat_map_range_shift {B : Type} (g : Z -> list B) (c : Z) :
  forall n a,
    flat_map (fun i => g (c + i)) (range_from a n) = flat_map g (range_from (c + a) n).
Proof.
  induction n as [|n IH]; intros a; cbn [range_from flat_map]; [reflexivity|].
  rewrite IH. do 3 f_equal. lia.
Qed.

(** The pixels of byte [k] of a row are the columns 8k .. 8k+7 that are
    below the width. *)
Lemma byte_pixels_spec width k b :
  byte_pixels width k b =
  map (fun x => pixel_of b (x - 8 * k)) (range (8 * k) (Z.min width (8 * k + 8))).
Proof.
  unfold byte_pixels, range at 1. cbn [Z.sub Z.opp Z.add Z.to_nat Pos.to_nat Pos.iter_op Nat.add].
  rewrite (flat_map_ext _
             (fun bit => (fun x => if x <? width then [pixel_of b (x - 8 * k)] else [])
                           (8 * k + bit))).
  2:{ intros bit. replace (8 * k + bit - 8 * k) with bit by lia.
      replace (k * 8 + bit) with (8 * k + bit) by lia. reflexivity. }
  rewrite (flat_map_range_shift
             (fun x => if x <? width then [pixel_of b (x - 8 * k)] else [])).
  rewrite flat_map_below.
  replace (8 * k + 0 + Z.of_nat (Pos.to_nat 8)) with (8 * k + 8) by lia.
  replace (8 * k + 0) with (8 * k) by lia. reflexivity.
Qed.

Lemma range_split_min a b c w :
  a <= b <= c ->
  range a (Z.min w c) = range a (Z.min w b) ++ range b (Z.min w c).
Proof.
  intros H. destruct (Z_le_gt_dec w b) as [Hw | Hw].
  - rewrite (range_empty b) by lia. rewrite app_nil_r. f_equal. lia.
  - rewrite (Z.min_r w b) by lia. apply range_app. lia.
Qed.

(** The pixels of the bytes [l], numbered from [k]: column x holds bit
    x mod 8 of byte x / 8, for the columns below the width. *)
Lemma row_pixels_spec width :
  forall l k,
    0 <= k ->
    flat_map (fun '(byte_idx, byte) => byte_pixels width byte_idx byte)
      (enumerate_from k l) =
    map (fun x => pixel_of (nth (Z.to_nat (x / 8 - k)) l 0) (x mod 8))
      (range (8 * k) (Z.min width (8 * (k + len l)))).
Proof.
  induction l as [|b t IH]; intros k Hk; cbn [enumerate_from flat_map].
  - rewrite range_empty; [reflexivity|]. unfold len. cbn [length]. lia.
  - rewrite IH by lia. rewrite byte_pixels_spec. rewrite len_cons.
    rewrite (range_split_min (8 * k) (8 * k + 8) (8 * (k + (1 + len t))))
      by (pose proof (len_nonneg t); lia).
    rewrite map_app. f_equal.
    + apply map_ext_in. intros x Hx. apply In_range in Hx.
      assert (Hq : x / 8 = k).
      { symmetry. apply Z.div_unique with (r := x - 8 * k); lia. }
      rewrite Hq. replace (Z.to_nat (k - k)) with O by lia. cbn [nth].
      f_equal. rewrite Z.mod_eq by lia. rewrite Hq. lia.
    + replace (8 * (k + 1)) with (8 * k + 8) by lia.
      replace (8 * (k + 1 + len t)) with (8 * (k + (1 + len t))) by lia.
      apply map_ext_in. intros x Hx. apply In_range in Hx.
      assert (Hq : k + 1 <= x / 8).
      { apply Z.div_le_lower_bound; lia. }
      replace (Z.to_nat (x / 8 - k)) with (S (Z.to_nat (x / 8 - (k + 1)))) by lia.
      reflexivity.
Qed.

End MonochromeRows.

Section DecodedPlanes.

Lemma mapM_returns {A B : Type} (f : A -> outcome B) (g : A -> B) (l : list A) :
  (forall x, In x l -> f x = Returns (g x)) -> mapM f l = Returns (map g l).
Proof.
  induction l as [|x t IH]; intros H; cbn [mapM map]; [reflexivity|].
  rewrite (H x) by (now left). cbn [Py.bind].
  rewrite IH by (intros y Hy; apply H; now right). reflexivity.
Qed.

Lemma mapM_length {A B : Type} (f : A -> outcome B) (l : list A) (ys : list B) :
  mapM f l = Returns ys -> length ys = length l.
Proof.
  revert ys. induction l as [|x t IH]; intros ys; cbn [mapM].
  - intros H. injection H as <-. reflexivity.
  - destruct (f x); cbn [Py.bind]; [|discriminate].
    destruct (mapM f t) as [zs|]; cbn [Py.bind]; [|discriminate].
    intros H. injection H as <-. simpl. f_equal. apply IH. reflexivity.
Qed.

(** What a loop that raised, raised: the error of one of its passes. *)
Lemma mapM_raises {A B : Type} (f : A -> outcome B) (l : list A) (e : exn) :
  mapM f l = Raises e -> exists x, In x l /\ f x = Raises e.
Proof.
  induction l as [|x t IH]; cbn [mapM]; [discriminate|].
  destruct (f x) eqn:E; cbn [Py.bind].
  - destruct (mapM f t) as [zs|e']; cbn [Py.bind]; [discriminate|].
    intros H. injection H as ->. destruct (IH eq_refl) as (y & Hy & Hf).
    exists y. split; [now right | exact Hf].
  - intros H. injection H as ->. exists x. split; [now left | exact E].
Qed.

Lemma len_slice_inside {A : Type} (l : list A) (a b : Z) :
  0 <= a -> a <= b -> b <= len l -> len (slice l a b) = b - a.
Proof.
  intros Ha Hab Hb. rewrite slice_inside by assumption.
  unfold len in *. rewrite length_firstn, length_skipn. lia.
Qed.

Lemma nth_slice_inside (l : bytes) (a b j : Z) :
  0 <= a -> a <= b -> b <= len l -> 0 <= j < b - a ->
  nth (Z.to_nat j) (slice l a b) 0 = rom_byte l (a + j).
Proof.
  intros Ha Hab Hb Hj. rewrite slice_inside by assumption. unfold rom_byte.
  rewrite nth_firstn, nth_skipn.
  replace (Z.to_nat j <? Z.to_nat (b - a))%nat with true
    by (symmetry; apply Nat.ltb_lt; lia).
  f_equal. lia.
Qed.

Lemma row_bytes_cover width : 0 <= width -> width <= 8 * ((width + 7) / 8) /\ 0 <= (width + 7) / 8.
Proof.
  intros H. pose proof (Z.div_mod (width + 7) 8 ltac:(lia)).
  pose proof (Z.mod_pos_bound (width + 7) 8 ltac:(lia)). lia.
Qed.

(** Row [row] of the decoded bitmap holds the bits of the ROM. *)
Lemma decode_row_spec rom p row :
  pattern_in_rom rom p ->
  0 <= row < p_height p ->
  decode_row rom (p_width p) (row_bytes_of p) (bitmap_offset_of p) row =
  map (mono_bit rom p row) (range 0 (p_width p)).
Proof.
  intros (Ho & Hw & Hh & Hin) Hrow.
  destruct (row_bytes_cover (p_width p) Hw) as [Hc Hrb]. fold (row_bytes_of p) in Hc, Hrb.
  assert (Hmb : 0 <= (p_height p + 1) / 2) by (apply Z.div_pos; lia).
  unfold bitmap_offset_of in *.
  set (bo := p_offset p + (p_height p + 1) / 2) in *.
  set (rb := row_bytes_of p) in *.
  assert (Hlo : 0 <= bo + row * rb) by nia.
  assert (Hhi : bo + row * rb + rb <= len rom) by nia.
  unfold decode_row, enumerate.
  rewrite row_pixels_spec by lia.
  rewrite len_slice_inside by lia.
  replace (8 * 0) with 0 by lia.
  replace (Z.min (p_width p) (8 * (0 + (bo + row * rb + rb - (bo + row * rb)))))
    with (p_width p) by lia.
  apply map_ext_in. intros x Hx. apply In_range in Hx.
  unfold mono_bit, bitmap_offset_of. fold bo. fold rb. f_equal.
  replace (x / 8 - 0) with (x / 8) by lia.
  apply nth_slice_inside; try lia.
  assert (0 <= x / 8) by (apply Z.div_pos; lia).
  assert (x / 8 < rb) by (apply Z.div_lt_upper_bound; lia).
  lia.
Qed.

Lemma decode_monochrome_bitmap_spec rom p :
  pattern_in_rom rom p ->
  decode_monochrome_bitmap rom (p_width p) (p_height p) (bitmap_offset_of p) =
  map (fun row => map (mono_bit rom p row) (range 0 (p_width p)))
    (range 0 (p_height p)).
Proof.
  intros Hin. unfold decode_monochrome_bitmap. fold (row_bytes_of p).
  apply map_ext_in. intros row Hrow. apply In_range in Hrow.
  apply decode_row_spec; assumption.
Qed.

(** A decoded row never has more pixels than the width. *)
Lemma decode_row_length rom width row_bytes bitmap_offset row :
  0 <= width ->
  len (decode_row rom width row_bytes bitmap_offset row) <= width.
Proof.
  intros Hw. unfold decode_row, enumerate. rewrite row_pixels_spec by lia.
  rewrite len_map, range_length. lia.
Qed.

(** The memo values parsed are the nibbles of the ROM. *)
Lemma parse_memo_data_spec rom p :
  pattern_in_rom rom p ->
  parse_memo_data rom (p_offset p) (p_height p) =
  Returns (map (memo_value rom p) (range 0 (p_height p))).
Proof.
  intros (Ho & Hw & Hh & Hin).
  destruct (row_bytes_cover (p_width p) Hw) as [_ Hrb]. fold (row_bytes_of p) in Hrb.
  unfold bitmap_offset_of in Hin.
  assert (Hmb : 0 <= (p_height p + 1) / 2) by (apply Z.div_pos; lia).
  unfold parse_memo_data. apply mapM_returns.
  intros row Hrow. apply In_range in Hrow.
  assert (Hr2 : 0 <= row / 2 < (p_height p + 1) / 2).
  { split; [apply Z.div_pos; lia|].
    apply Z.div_lt_upper_bound; [lia|].
    pose proof (Z.div_mod (p_height p + 1) 2 ltac:(lia)).
    pose proof (Z.mod_pos_bound (p_height p + 1) 2 ltac:(lia)). lia. }
  unfold memo_of_row, memo_value.
  rewrite getitem_nth_error by lia.
  assert (Hlen : len (slice rom (p_offset p) (p_offset p + (p_height p + 1) / 2))
                 = (p_height p + 1) / 2).
  { rewrite len_slice_inside by nia. lia. }
  destruct (nth_error _ (Z.to_nat (row / 2))) as [b|] eqn:E.
  - apply (nth_error_nth _ _ 0) in E.
    rewrite nth_slice_inside in E by nia. rewrite E.
    cbn [Py.bind]. destruct (row mod 2 =? 0); reflexivity.
  - apply nth_error_None in E. unfold len in Hlen. lia.
Qed.

End DecodedPlanes.

Section Multicolor.

Lemma nth_error_range_from a n j :
  (j < n)%nat -> nth_error (range_from a n) j = Some (a + Z.of_nat j).
Proof.
  revert a j. induction n as [|n IH]; intros a j Hj; [lia|].
  destruct j as [|j]; cbn [range_from nth_error].
  - f_equal. lia.
  - rewrite IH by lia. f_equal. lia.
Qed.

Lemma nth_error_range a b i :
  a <= i < b -> nth_error (range a b) (Z.to_nat (i - a)) = Some i.
Proof.
  intros H. unfold range. rewrite nth_error_range_from by lia. f_equal. lia.
Qed.

Lemma getitem_map_range {B : Type} (f : Z -> B) (n i : Z) :
  0 <= i < n -> getitem (map f (range 0 n)) i = Returns (f i).
Proof.
  intros H. rewrite getitem_nth_error by lia. rewrite nth_error_map.
  replace (Z.to_nat i) with (Z.to_nat (i - 0)) by lia.
  rewrite nth_error_range by lia. reflexivity.
Qed.

Lemma slice_map_range {B : Type} (f : Z -> B) (n a b : Z) :
  0 <= a -> a <= b -> b <= n ->
  slice (map f (range 0 n)) a b = map f (range a b).
Proof.
  intros Ha Hab Hb.
  rewrite slice_inside; try lia.
  2:{ rewrite len_map, range_length. lia. }
  rewrite (range_app 0 a n) by lia. rewrite map_app.
  rewrite skipn_app.
  replace (Z.to_nat a - length (map f (range 0 a)))%nat with O.
  2:{ rewrite length_map. pose proof (range_length 0 a) as Hl. unfold len in Hl. lia. }
  rewrite skipn_all2.
  2:{ rewrite length_map. pose proof (range_length 0 a) as Hl. unfold len in Hl. lia. }
  cbn [app skipn].
  rewrite (range_app a b n) by lia. rewrite map_app.
  rewrite firstn_app.
  replace (Z.to_nat (b - a) - length (map f (range a b)))%nat with O.
  2:{ rewrite length_map. pose proof (range_length a b) as Hl. unfold len in Hl. lia. }
  rewrite firstn_all2.
  2:{ rewrite length_map. pose proof (range_length a b) as Hl. unfold len in Hl. lia. }
  cbn [firstn]. now rewrite app_nil_r.
Qed.

Lemma nth_error_app_some {A : Type} (l l' : list A) (n : nat) (v : A) :
  nth_error l n = Some v -> nth_error (l ++ l') n = Some v.
Proof.
  intros H. rewrite nth_error_app1; [exact H|].
  apply nth_error_Some. rewrite H. discriminate.
Qed.

(** Pixel (x, y) of a grid stored row after row. *)
Lemma nth_error_concat_rows {A : Type} (w : nat) :
  forall (rows : list (list A)) (y x : nat) (row : list A) (v : A),
    Forall (fun r => length r = w) rows ->
    nth_error rows y = Some row ->
    nth_error row x = Some v ->
    nth_error (concat rows) (y * w + x) = Some v.
Proof.
  induction rows as [|r0 rest IH]; intros y x row v Hall Hrow Hx.
  - destruct y; discriminate.
  - inversion Hall as [|? ? Hr0 Hrest]; subst.
    destruct y as [|y]; cbn [nth_error concat] in *.
    + injection Hrow as ->. simpl. apply nth_error_app_some, Hx.
    + rewrite nth_error_app2 by (simpl; lia).
      replace (S y * length r0 + x - length r0)%nat with (y * length r0 + x)%nat
        by (simpl; lia).
      eapply IH; eauto.
Qed.

Variable rom : bytes.
Variable p : pattern.
Hypothesis Hin : pattern_in_rom rom p.

Local Abbreviation mono :=
  (map (fun row => map (mono_bit rom p row) (range 0 (p_width p)))
     (range 0 (p_height p))).
Local Abbreviation memo := (map (memo_value rom p) (range 0 (p_height p))).

(** The loop over the three planes computes the color of the pixel. *)
Lemma first_plane_spec r x :
  0 <= r < p_height p / 3 ->
  0 <= x < p_width p ->
  first_plane mono (slice memo (r * 3) (r * 3 + 3)) (r * 3) x (range 0 3) =
  Returns (plane_color rom p r x).
Proof.
  intros Hr Hx.
  assert (Hrows : r * 3 + 3 <= p_height p).
  { pose proof (Z.div_mod (p_height p) 3 ltac:(lia)).
    pose proof (Z.mod_pos_bound (p_height p) 3 ltac:(lia)). lia. }
  rewrite slice_map_range by lia.
  change (range 0 3) with [0; 1; 2].
  assert (Hblock : range (r * 3) (r * 3 + 3) = [r * 3; r * 3 + 1; r * 3 + 2]).
  { unfold range. replace (Z.to_nat (r * 3 + 3 - r * 3)) with 3%nat by lia.
    cbn [range_from]. replace (r * 3 + 1 + 1) with (r * 3 + 2) by lia. reflexivity. }
  rewrite Hblock. cbn [map first_plane].
  unfold plane_color.
  replace (3 * r) with (r * 3) by lia.
  replace (r * 3 + 0) with (r * 3) by lia.
  rewrite !getitem_map_range by lia. cbn [Py.bind].
  rewrite !getitem_map_range by lia. cbn [Py.bind].
  destruct (mono_bit rom p (r * 3) x =? 0); cbn [negb]; [|reflexivity].
  destruct (mono_bit rom p (r * 3 + 1) x =? 0); cbn [negb]; [|reflexivity].
  destruct (mono_bit rom p (r * 3 + 2) x =? 0); cbn [negb]; reflexivity.
Qed.

Lemma color_row_spec r :
  0 <= r < p_height p / 3 ->
  color_row mono memo (p_width p) r =
  Returns (map (plane_color rom p r) (range 0 (p_width p))).
Proof.
  intros Hr. unfold color_row. apply mapM_returns.
  intros x Hx. apply In_range in Hx. apply first_plane_spec; assumption.
Qed.

(** The multicolor decoder on a pattern that lies inside the ROM: the
    image it returns, pixel by pixel. *)
Lemma extract_multicolor_spec :
  exists img,
    extract_multicolor_bitmap rom p = Returns img
    /\ img_mode img = ModeP
    /\ img_width img = p_width p
    /\ img_height img = p_height p / 3
    /\ forall r x,
         0 <= r < p_height p / 3 ->
         0 <= x < p_width p ->
         getpixel img x (p_height p / 3 - 1 - r) = Some (plane_color rom p r x).
Proof.
  destruct Hin as (Ho & Hw & Hh & Hrom).
  assert (Hrh : 0 <= p_height p / 3) by (apply Z.div_pos; lia).
  unfold extract_multicolor_bitmap.
  rewrite parse_memo_data_spec by exact Hin. cbn [Py.bind].
  fold (bitmap_offset_of p).
  rewrite decode_monochrome_bitmap_spec by exact Hin.
  rewrite (mapM_returns _ (fun r => map (plane_color rom p r) (range 0 (p_width p)))).
  2:{ intros r Hr. apply In_range in Hr. apply color_row_spec. exact Hr. }
  cbn [Py.bind]. unfold Image_new.
  destruct (p_width p <? 0) eqn:E1; [apply Z.ltb_lt in E1; lia|].
  destruct (p_height p / 3 <? 0) eqn:E2; [apply Z.ltb_lt in E2; lia|].
  cbn [orb Py.bind]. eexists. split; [reflexivity|].
  split; [reflexivity|]. split; [reflexivity|]. split; [reflexivity|].
  intros r x Hr Hx. unfold getpixel, putdata, putpalette.
  cbn [img_width img_height img_data].
  replace ((0 <=? x) && (x <? p_width p) && (0 <=? p_height p / 3 - 1 - r)
           && (p_height p / 3 - 1 - r <? p_height p / 3)) with true.
  2:{ symmetry. rewrite !andb_true_iff, !Z.leb_le, !Z.ltb_lt. lia. }
  apply nth_error_app_some.
  replace (Z.to_nat ((p_height p / 3 - 1 - r) * p_width p + x))
    with (Z.to_nat (p_height p / 3 - 1 - r) * Z.to_nat (p_width p) + Z.to_nat x)%nat
    by nia.
  apply nth_error_concat_rows
    with (row := map (plane_color rom p r) (range 0 (p_width p))).
  - apply Forall_forall. intros row Hrow. apply in_rev in Hrow.
    apply in_map_iff in Hrow. destruct Hrow as (r' & <- & _).
    rewrite length_map. pose proof (range_length 0 (p_width p)) as Hl.
    unfold len in Hl. lia.
  - rewrite nth_error_rev, length_map.
    pose proof (range_length 0 (p_height p / 3)) as Hl. unfold len in Hl.
    replace (Z.to_nat (p_height p / 3 - 1 - r) <? length (range 0 (p_height p / 3)))%nat
      with true by (symmetry; apply Nat.ltb_lt; lia).
    rewrite nth_error_map.
    replace (length (range 0 (p_height p / 3)) - S (Z.to_nat (p_height p / 3 - 1 - r)))%nat
      with (Z.to_nat (r - 0)) by lia.
    rewrite nth_error_range by lia. reflexivity.
  - rewrite nth_error_map.
    replace (Z.to_nat x) with (Z.to_nat (x - 0)) by lia.
    rewrite nth_error_range by lia. reflexivity.
Qed.

End Multicolor.

Section MulticolorClaims.

(** C7. For a pattern of the multicolor kind (header 0x03) that lies
    inside the ROM, the decoded grid has the width of the descriptor and
    the height floor(height / 3), and the pixel of visible row r and
    column x, which is on output row height/3 - 1 - r (the rows are
    stored bottom to top and written top to bottom), is the memo value of
    the first of the source rows 3r, 3r+1, 3r+2 whose bit is set at x,
    and 0 when none is. *)
Theorem multicolor_grid rom p :
  p_type p = 0x03 ->
  pattern_in_rom rom p ->
  exists img,
    extract_pattern_bitmap rom p = ([], Returns img)
    /\ img_width img = p_width p
    /\ img_height img = p_height p / 3
    /\ forall r x,
         0 <= r < p_height p / 3 ->
         0 <= x < p_width p ->
         getpixel img x (p_height p / 3 - 1 - r) = Some (plane_color rom p r x).
Proof.
  intros Ht Hin.
  destruct (extract_multicolor_spec rom p Hin) as (img & H1 & _ & H2 & H3 & H4).
  exists img. unfold extract_pattern_bitmap. rewrite Ht. cbn [Z.eqb Pos.eqb].
  rewrite H1. auto.
Qed.

Lemma getitem_raises {A : Type} (l : list A) (i : Z) (e : exn) :
  getitem l i = Raises e -> e = IndexError.
Proof.
  unfold getitem. destruct (_ <? 0); [congruence|].
  destruct (nth_error _ _); congruence.
Qed.

Lemma first_plane_raises mono_pixels memo_for_block base_row x planes e :
  first_plane mono_pixels memo_for_block base_row x planes = Raises e ->
  e = IndexError.
Proof.
  induction planes as [|i rest IH]; cbn [first_plane]; [discriminate|].
  destruct (getitem mono_pixels (base_row + i)) as [row|e1] eqn:E1; cbn [Py.bind].
  - destruct (getitem row x) as [bit|e2] eqn:E2; cbn [Py.bind].
    + destruct (bit =? 0); [exact IH|]. apply getitem_raises.
    + intros H. injection H as <-. exact (getitem_raises _ _ _ E2).
  - intros H. injection H as <-. exact (getitem_raises _ _ _ E1).
Qed.

Lemma parse_memo_data_raises rom offset height e :
  parse_memo_data rom offset height = Raises e -> e = IndexError.
Proof.
  unfold parse_memo_data. intros H. apply mapM_raises in H.
  destruct H as (row & _ & H). unfold memo_of_row in H.
  destruct (getitem _ (row / 2)) eqn:E; cbn [Py.bind] in H.
  - destruct (row mod 2 =? 0); discriminate.
  - injection H as <-. exact (getitem_raises _ _ _ E).
Qed.

(** C8 as the code has it. The multicolor decoder has no check of the
    palette range: on a pattern of non-negative size it never raises the
    decode error [ValueError] (an [IndexError] on a ROM that is too short
    is all it can raise), and on a pattern that lies inside the ROM it
    returns an image in which a pixel whose memo value is above 3 holds
    that value as its color index. *)
Theorem multicolor_no_palette_check rom p :
  0 <= p_width p ->
  0 <= p_height p ->
  extract_multicolor_bitmap rom p <> Raises ValueError
  /\ (pattern_in_rom rom p ->
      exists img,
        extract_multicolor_bitmap rom p = Returns img
        /\ forall r x,
             0 <= r < p_height p / 3 ->
             0 <= x < p_width p ->
             3 < plane_color rom p r x ->
             getpixel img x (p_height p / 3 - 1 - r) = Some (plane_color rom p r x)).
Proof.
  intros Hw Hh. split.
  - unfold extract_multicolor_bitmap. intros H.
    destruct (parse_memo_data rom (p_offset p) (p_height p)) as [memo|e] eqn:E1;
      cbn [Py.bind] in H.
    2:{ injection H as ->. apply parse_memo_data_raises in E1. discriminate. }
    match type of H with
    | Py.bind (mapM ?f ?l) _ = _ => destruct (mapM f l) as [pixels|e] eqn:E2
    end; cbn [Py.bind] in H.
    2:{ injection H as ->. apply mapM_raises in E2. destruct E2 as (r & _ & E2).
        unfold color_row in E2. apply mapM_raises in E2. destruct E2 as (x & _ & E2).
        apply first_plane_raises in E2. discriminate. }
    unfold Image_new in H.
    assert (Hrh : 0 <= p_height p / 3) by (apply Z.div_pos; lia).
    destruct (p_width p <? 0) eqn:E3; [apply Z.ltb_lt in E3; lia|].
    destruct (p_height p / 3 <? 0) eqn:E4; [apply Z.ltb_lt in E4; lia|].
    cbn [orb Py.bind] in H. discriminate.
  - intros Hin.
    destruct (extract_multicolor_spec rom p Hin) as (img & H1 & _ & _ & _ & H4).
    exists img. split; [exact H1|]. intros r x Hr Hx _. apply H4; assumption.
Qed.

End MulticolorClaims.

(* ===================================================================== *)
(** * Malformed memo values and the batch                                 *)
(* ===================================================================== *)

Section MalformedMemo.

Lemma put_row_ok :
  forall (row : list Z) (k : Z) (img : image) (y : Z),
    0 <= k -> k + len row <= img_width img -> 0 <= y < img_height img ->
    exists img',
      put_row img y (enumerate_from k row) = Returns img'
      /\ img_width img' = img_width img /\ img_height img' = img_height img.
Proof.
  induction row as [|v t IH]; intros k img y Hk Hw Hy; cbn [enumerate_from put_row].
  - eauto.
  - rewrite len_cons in Hw. pose proof (len_nonneg t) as Ht.
    unfold putpixel.
    replace ((0 <=? k) && (k <? img_width img) && (0 <=? y) && (y <? img_height img))
      with true
      by (symmetry; rewrite !andb_true_iff, !Z.leb_le, !Z.ltb_lt; lia).
    cbn [Py.bind].
    match goal with |- context [put_row ?i _ _] =>
      destruct (IH (k + 1) i y) as (img' & H1 & H2 & H3) end;
      cbn [img_width img_height]; try lia.
    exists img'. auto.
Qed.

Lemma put_rows_ok :
  forall (rows : list (list Z)) (k : Z) (img : image),
    0 <= k -> k + len rows <= img_height img ->
    Forall (fun row => len row <= img_width img) rows ->
    exists img',
      put_rows img (enumerate_from k rows) = Returns img'
      /\ img_width img' = img_width img /\ img_height img' = img_height img.
Proof.
  induction rows as [|row t IH]; intros k img Hk Hh Hall; cbn [enumerate_from put_rows].
  - eauto.
  - rewrite len_cons in Hh. pose proof (len_nonneg t) as Ht.
    inversion Hall as [|? ? Hrow Hrest]; subst.
    destruct (put_row_ok row 0 img k) as (img1 & H1 & H2 & H3); try lia.
    unfold enumerate. rewrite H1. cbn [Py.bind].
    destruct (IH (k + 1) img1) as (img' & H4 & H5 & H6); try lia.
    { rewrite H2. exact Hrest. }
    exists img'. split; [exact H4|]. split; congruence.
Qed.

(** The pixels of a monochrome pattern of non-negative size always fit
    the image: the decoder reaches the memo values. *)
Lemma monochrome_pixels_ok rom width height bitmap_offset :
  0 <= width -> 0 <= height ->
  exists img,
    (img <- Image_new Mode1 width height ;;
     put_rows img
       (enumerate (rev (decode_monochrome_bitmap rom width height bitmap_offset))))
    = Returns img.
Proof.
  intros Hw Hh. unfold Image_new.
  destruct (width <? 0) eqn:E1; [apply Z.ltb_lt in E1; lia|].
  destruct (height <? 0) eqn:E2; [apply Z.ltb_lt in E2; lia|].
  cbn [orb Py.bind]. unfold enumerate.
  match goal with |- context [put_rows ?i (enumerate_from 0 ?rows)] =>
    destruct (put_rows_ok rows 0 i) as (img' & H & _) end.
  - lia.
  - cbn [img_height]. unfold len. rewrite length_rev.
    unfold decode_monochrome_bitmap. rewrite length_map.
    pose proof (range_length 0 height) as Hl. unfold len in Hl. lia.
  - cbn [img_width]. apply Forall_forall. intros row Hrow. apply in_rev in Hrow.
    unfold decode_monochrome_bitmap in Hrow. apply in_map_iff in Hrow.
    destruct Hrow as (r & <- & _). apply decode_row_length. exact Hw.
  - exists img'. exact H.
Qed.

Lemma memo_value_to_char_cases v :
  (valid_memo v /\ exists c, memo_value_to_char v = Returns c)
  \/ (~ valid_memo v /\ memo_value_to_char v = Raises ValueError).
Proof.
  unfold memo_value_to_char, valid_memo.
  destruct ((0 <=? v) && (v <=? 8)) eqn:E1.
  - apply andb_true_iff in E1. rewrite !Z.leb_le in E1. left. split; [lia | eauto].
  - apply andb_false_iff in E1. rewrite !Z.leb_gt in E1.
    destruct (v =? 10) eqn:E2; [apply Z.eqb_eq in E2; left; split; [lia | eauto]|].
    destruct (v =? 11) eqn:E3; [apply Z.eqb_eq in E3; left; split; [lia | eauto]|].
    apply Z.eqb_neq in E2. apply Z.eqb_neq in E3. right. split; [lia | reflexivity].
Qed.

Lemma join_memo_invalid memo v :
  In v memo -> ~ valid_memo v -> join_memo memo = Raises ValueError.
Proof.
  intros Hin Hv. induction memo as [|h t IH]; [destruct Hin|].
  cbn [join_memo].
  destruct (memo_value_to_char_cases h) as [[Hh (c & Hc)] | [_ Hc]];
    rewrite Hc; cbn [Py.bind]; [|reflexivity].
  destruct Hin as [-> | Hin]; [contradiction|].
  rewrite (IH Hin). reflexivity.
Qed.

(** A malformed memo value stops the decoding of a monochrome pattern:
    the error is printed with the pattern number and raised again. *)
Lemma extract_monochrome_malformed rom p memo v :
  0 <= p_width p ->
  parse_memo_data rom (p_offset p) (p_height p) = Returns memo ->
  In v memo -> ~ valid_memo v ->
  extract_monochrome_bitmap rom p =
  ([ErrorProcessing (p_number p) ValueError], Raises ValueError).
Proof.
  intros Hw Hmemo Hin Hv. unfold extract_monochrome_bitmap. rewrite Hmemo.
  assert (Hh : 0 <= p_height p).
  { unfold parse_memo_data in Hmemo. apply mapM_length in Hmemo.
    pose proof (range_length 0 (p_height p)) as Hl. unfold len in Hl.
    destruct memo; [destruct Hin|]. simpl in Hmemo. lia. }
  destruct (monochrome_pixels_ok rom (p_width p) (p_height p)
              (p_offset p + (p_height p + 1) / 2) Hw Hh) as (img & Himg).
  rewrite Himg.
  replace (any memo) with true.
  2:{ symmetry. unfold any. apply existsb_exists. exists v. split; [exact Hin|].
      apply negb_true_iff, Z.eqb_neq. intros ->. apply Hv. unfold valid_memo. lia. }
  rewrite (join_memo_invalid memo v Hin Hv). reflexivity.
Qed.

(** The patterns that decode are saved one after the other. *)
Lemma main_loop_app rom before rest :
  (forall q, In q before ->
     exists out img, extract_pattern_bitmap rom q = (out, Returns img)) ->
  forall st,
    main_loop rom (before ++ rest) st = main_loop rom rest (main_loop rom before st)
    /\ map fst (saved (main_loop rom before st)) =
       map fst (saved st) ++ map p_number before.
Proof.
  induction before as [|q t IH]; intros Hok st; cbn [app main_loop map].
  - now rewrite app_nil_r.
  - destruct (Hok q (or_introl eq_refl)) as (out & img & Hq). rewrite Hq.
    match goal with |- context [main_loop rom (t ++ rest) ?s] =>
      destruct (IH (fun q' H => Hok q' (or_intror H)) s) as [H1 H2] end.
    split; [exact H1|]. rewrite H2. cbn [saved]. rewrite map_app, <- app_assoc.
    reflexivity.
Qed.

(** C5 as the code has it. When the decoding of a monochrome pattern of
    a batch meets a malformed memo value (one outside 0..8, 10, 11), the
    decoding of that pattern is given up with an error report that holds
    the pattern number, and the error is raised again: the run ends
    there. The patterns before it are saved; none of the patterns after
    it is decoded. *)
Theorem batch_stops_at_malformed_memo rom before p after memo v :
  (forall q, In q before ->
     exists out img, extract_pattern_bitmap rom q = (out, Returns img)) ->
  p_type p = 0x02 ->
  0 <= p_width p ->
  parse_memo_data rom (p_offset p) (p_height p) = Returns memo ->
  In v memo ->
  ~ valid_memo v ->
  let done := main_loop rom before run_init in
  main_loop rom (before ++ p :: after) run_init =
    {| saved := saved done;
       output := output done ++ [ErrorProcessing (p_number p) ValueError];
       raised := Some ValueError |}
  /\ map fst (saved done) = map p_number before.
Proof.
  intros Hok Ht Hw Hmemo Hin Hv done.
  destruct (main_loop_app rom before (p :: after) Hok run_init) as [H1 H2].
  rewrite H1. fold done. split; [|exact H2].
  cbn [main_loop]. unfold extract_pattern_bitmap. rewrite Ht. cbn [Z.eqb Pos.eqb].
  rewrite (extract_monochrome_malformed rom p memo v Hw Hmemo Hin Hv).
  reflexivity.
Qed.

End MalformedMemo.

(* ===================================================================== *)
(** * The gap set after exact matches                                     *)
(* ===================================================================== *)

Section SortedFacts.

Context {A : Type} (key : A -> Z).

Lemma In_insert_by x l y : In y (insert_by key x l) <-> y = x \/ In y l.
Proof.
  induction l as [|z t IH]; simpl.
  - intuition.
  - destruct (key x <=? key z); simpl; rewrite ?IH; intuition.
Qed.

Lemma In_sorted l y : In y (sorted key l) <-> In y l.
Proof.
  induction l as [|x t IH]; simpl; [tauto|].
  rewrite In_insert_by, IH. intuition.
Qed.

Lemma Forall_sorted (P : A -> Prop) l : Forall P l -> Forall P (sorted key l).
Proof.
  rewrite !Forall_forall. intros H y Hy. apply H, In_sorted, Hy.
Qed.

Lemma insert_by_ordered x l :
  ForallOrdPairs (fun a b => key a <= key b) l ->
  ForallOrdPairs (fun a b => key a <= key b) (insert_by key x l).
Proof.
  induction 1 as [|z t Hz Ht IH]; simpl.
  - constructor; constructor.
  - destruct (key x <=? key z) eqn:E.
    + apply Z.leb_le in E. constructor; [|constructor; assumption].
      constructor; [exact E|]. rewrite Forall_forall in *. intros y Hy.
      specialize (Hz y Hy). simpl in Hz. lia.
    + apply Z.leb_gt in E. constructor; [|exact IH].
      rewrite Forall_forall in *. intros y Hy. apply In_insert_by in Hy.
      destruct Hy as [-> | Hy]; [lia | exact (Hz y Hy)].
Qed.

(** [sorted] sorts by increasing key. *)
Lemma sorted_ordered l :
  ForallOrdPairs (fun a b => key a <= key b) (sorted key l).
Proof.
  induction l as [|x t IH]; simpl; [constructor|]. apply insert_by_ordered, IH.
Qed.

Lemma insert_by_pairs (R : A -> A -> Prop) x l :
  (forall a b, R a b -> R b a) ->
  Forall (R x) l -> ForallOrdPairs R l -> ForallOrdPairs R (insert_by key x l).
Proof.
  intros Hsym Hx Hl. induction Hl as [|z t Hz Ht IH]; simpl.
  - constructor; constructor.
  - inversion Hx as [|? ? Hxz Hxt]; subst.
    destruct (key x <=? key z).
    + constructor; [constructor; assumption|]. constructor; assumption.
    + constructor; [|apply IH; exact Hxt].
      rewrite Forall_forall in *. intros y Hy. apply In_insert_by in Hy.
      destruct Hy as [-> | Hy]; [apply Hsym, Hxz | exact (Hz y Hy)].
Qed.

(** A symmetric relation that holds of every two elements of a list holds
    of every two elements of the sorted list. *)
Lemma sorted_pairs (R : A -> A -> Prop) l :
  (forall a b, R a b -> R b a) ->
  ForallOrdPairs R l -> ForallOrdPairs R (sorted key l).
Proof.
  intros Hsym. induction 1 as [|x t Hx Ht IH]; simpl; [constructor|].
  apply insert_by_pairs; [exact Hsym | | exact IH].
  rewrite Forall_forall in *. intros y Hy. apply Hx, In_sorted, Hy.
Qed.

Lemma pairs_app_one (R : A -> A -> Prop) l x :
  ForallOrdPairs R l -> Forall (fun y => R y x) l -> ForallOrdPairs R (l ++ [x]).
Proof.
  induction 1 as [|z t Hz Ht IH]; intros Hx; simpl.
  - constructor; constructor.
  - inversion Hx as [|? ? Hzx Htx]; subst. constructor; [|apply IH, Htx].
    apply Forall_app. split; [exact Hz | constructor; [exact Hzx | constructor]].
Qed.

End SortedFacts.

Section FindGaps.

Lemma find_gaps_step_eq gaps last_end x :
  find_gaps_step (gaps, last_end) x =
  (if result_start x >? last_end then gaps ++ [(last_end, result_start x)] else gaps,
   result_end x).
Proof. destruct x as [[name [[start stop] dist]] fz]. reflexivity. Qed.

Lemma in_gaps_app g1 g2 i : in_gaps (g1 ++ g2) i <-> in_gaps g1 i \/ in_gaps g2 i.
Proof.
  unfold in_gaps. split.
  - intros (g & Hg & Hi). apply in_app_or in Hg. destruct Hg; eauto.
  - intros [(g & Hg & Hi) | (g & Hg & Hi)]; exists g; split; auto;
      apply in_or_app; auto.
Qed.

Lemma in_gaps_one a b i : in_gaps [(a, b)] i <-> a <= i < b.
Proof.
  unfold in_gaps. split.
  - intros (g & [<- | []] & Hi). exact Hi.
  - intros Hi. exists (a, b). split; [now left | exact Hi].
Qed.

Lemma in_gaps_nil i : ~ in_gaps [] i.
Proof. intros (g & [] & _). Qed.

Lemma covered_cons x results i :
  covered (x :: results) i <-> result_start x <= i < result_end x \/ covered results i.
Proof.
  unfold covered. split.
  - intros (y & [<- | Hy] & Hi); eauto.
  - intros [Hi | (y & Hy & Hi)]; [exists x | exists y]; split; auto;
      [now left | now right].
Qed.

(** Sorted by start, pairwise disjoint and non-empty ranges follow one
    another. *)
Lemma ranges_chain results :
  ForallOrdPairs (fun x y => result_start x <= result_start y) results ->
  ranges_disjoint results ->
  Forall (fun x => result_start x < result_end x) results ->
  ForallOrdPairs (fun x y => result_end x <= result_start y) results.
Proof.
  induction 1 as [|x t Hx Ht IH]; intros Hd Hne; [constructor|].
  inversion Hd as [|? ? Hdx Hdt]; subst. inversion Hne as [|? ? Hnx Hnt]; subst.
  constructor; [|apply IH; assumption].
  rewrite Forall_forall in *. intros y Hy.
  specialize (Hx y Hy). specialize (Hdx y Hy). specialize (Hnt y Hy).
  simpl in *. lia.
Qed.

(** The loop of [find_gaps] over ranges that follow one another, from
    [last_end] on: the gaps it adds are the bytes between [last_end] and
    the last end that no range holds. *)
Lemma find_gaps_fold :
  forall rs acc last_end,
    ForallOrdPairs (fun x y => result_end x <= result_start y) rs ->
    Forall (fun x => last_end <= result_start x /\ result_start x < result_end x) rs ->
    exists new last,
      fold_left find_gaps_step rs (acc, last_end) = (acc ++ new, last)
      /\ last_end <= last
      /\ (last = last_end \/ exists x, In x rs /\ last = result_end x)
      /\ Forall (fun x => result_end x <= last) rs
      /\ Forall (fun g : gap => last_end <= fst g /\ fst g < snd g /\ snd g <= last) new
      /\ ForallOrdPairs (fun g1 g2 : gap => snd g1 <= fst g2) new
      /\ forall i, last_end <= i < last -> (in_gaps new i <-> ~ covered rs i).
Proof.
  induction rs as [|x t IH]; intros acc last_end Hchain Hall.
  - exists [], last_end. cbn [fold_left]. rewrite app_nil_r.
    repeat split; auto; try constructor; try lia.
  - inversion Hchain as [|? ? Hx Ht]; subst. inversion Hall as [|? ? Hx0 Ht0]; subst.
    cbn [fold_left]. rewrite find_gaps_step_eq.
    set (s := result_start x) in *. set (e := result_end x) in *.
    set (first := if s >? last_end then [(last_end, s)] else []).
    assert (Hacc : (if s >? last_end then acc ++ [(last_end, s)] else acc)
                   = acc ++ first).
    { unfold first. destruct (s >? last_end); [reflexivity | now rewrite app_nil_r]. }
    rewrite Hacc.
    assert (Ht1 : Forall (fun y => e <= result_start y /\ result_start y < result_end y) t).
    { rewrite Forall_forall in *. intros y Hy. split; [exact (Hx y Hy)|].
      exact (proj2 (Ht0 y Hy)). }
    destruct (IH (acc ++ first) e Ht Ht1) as (new & last & Hf & Hle & Hlast & Hends & Hg & Hord & Hcompl).
    exists (first ++ new), last. rewrite app_assoc.
    split; [exact Hf|]. split; [lia|].
    assert (Hfirst : forall i, in_gaps first i <-> last_end <= i < s).
    { intros i. unfold first. destruct (s >? last_end) eqn:E.
      - apply in_gaps_one.
      - rewrite Z.gtb_ltb in E. apply Z.ltb_ge in E. split.
        + intros H. destruct (in_gaps_nil _ H).
        + lia. }
    assert (Hnew : forall i, in_gaps new i -> e <= i).
    { intros i (g & Hgin & Hi). rewrite Forall_forall in Hg.
      specialize (Hg g Hgin). lia. }
    assert (Hcov : forall i, covered t i -> e <= i).
    { intros i (y & Hy & Hi). rewrite Forall_forall in Ht1.
      specialize (Ht1 y Hy). lia. }
    split; [|split; [|split; [|split]]].
    + destruct Hlast as [-> | (y & Hy & ->)]; right.
      * exists x. split; [now left | reflexivity].
      * exists y. split; [now right | reflexivity].
    + constructor; [lia | exact Hends].
    + apply Forall_app. split.
      * unfold first. destruct (s >? last_end) eqn:E; constructor; [|constructor].
        apply Z.gtb_lt in E. simpl. lia.
      * rewrite Forall_forall in *. intros g Hgin. specialize (Hg g Hgin). lia.
    + unfold first. destruct (s >? last_end); cbn [app]; [|exact Hord].
      constructor; [|exact Hord]. rewrite Forall_forall in *.
      intros g Hgin. specialize (Hg g Hgin). simpl. lia.
    + intros i Hi. rewrite in_gaps_app, covered_cons, Hfirst. fold s e.
      destruct (Z_lt_le_dec i e) as [Hie | Hie].
      * split.
        -- intros [H | H]; [|apply Hnew in H; lia].
           intros [Hc | Hc]; [lia | apply Hcov in Hc; lia].
        -- intros Hn. left. destruct (Z_lt_le_dec i s); [lia|].
           exfalso. apply Hn. left. lia.
      * pose proof (Hcompl i ltac:(lia)) as Hci. split.
        -- intros [H | H]; [lia|]. intros [Hc | Hc]; [lia|].
           apply (proj1 Hci H Hc).
        -- intros Hn. right. apply Hci. intros Hc. apply Hn. right. exact Hc.
Qed.

End FindGaps.

Section FindGapsPartition.

Lemma pairs_impl {A : Type} (R1 R2 : A -> A -> Prop) (l : list A) :
  (forall a b, R1 a b -> R2 a b) -> ForallOrdPairs R1 l -> ForallOrdPairs R2 l.
Proof.
  intros Himp. induction 1 as [|x t Hx Ht IH]; constructor; [|exact IH].
  rewrite Forall_forall in *. intros y Hy. apply Himp, Hx, Hy.
Qed.

Lemma covered_sorted rs i :
  covered (sorted result_start rs) i <-> covered rs i.
Proof.
  unfold covered. split; intros (x & Hx & Hi); exists x; split; auto;
    apply (In_sorted result_start); exact Hx.
Qed.

(** [find_gaps] on disjoint, non-empty ranges of the window: the gaps are
    the complement of the ranges in the window. *)
Lemma find_gaps_partition rs rom_size :
  ranges_in_window rom_size rs ->
  ranges_disjoint rs ->
  window_partition rom_size rs (find_gaps rs rom_size).
Proof.
  intros Hw Hd. unfold window_partition.
  split; [exact Hw|]. split; [exact Hd|].
  set (S := sorted result_start rs).
  assert (HwS : ranges_in_window rom_size S) by (apply Forall_sorted, Hw).
  assert (HdS : ranges_disjoint S).
  { apply sorted_pairs; [|exact Hd]. intros a b H. tauto. }
  assert (Hchain : ForallOrdPairs (fun x y => result_end x <= result_start y) S).
  { apply ranges_chain; [apply sorted_ordered | exact HdS |].
    unfold ranges_in_window in HwS. rewrite Forall_forall in *.
    intros x Hx. specialize (HwS x Hx). lia. }
  assert (Hall : Forall (fun x => index_base <= result_start x
                                  /\ result_start x < result_end x) S).
  { unfold ranges_in_window in HwS. rewrite Forall_forall in *.
    intros x Hx. specialize (HwS x Hx). lia. }
  destruct (find_gaps_fold S [] index_base Hchain Hall)
    as (new & last & Hf & Hle & Hlast & Hends & Hg & Hord & Hcompl).
  unfold find_gaps. fold S. rewrite Hf. cbn [app].
  assert (Hhi : last = index_base \/ last <= rom_size).
  { destruct Hlast as [-> | (x & Hx & ->)]; [now left | right].
    unfold ranges_in_window in HwS. rewrite Forall_forall in HwS.
    specialize (HwS x Hx). lia. }
  assert (Hnew : Forall (fun g : gap => index_base <= fst g /\ fst g < snd g
                                        /\ snd g <= rom_size) new).
  { rewrite Forall_forall in *. intros g Hgin. specialize (Hg g Hgin). lia. }
  assert (Hcov : forall i, last <= i -> ~ covered rs i).
  { intros i Hi Hc. apply covered_sorted in Hc. fold S in Hc.
    destruct Hc as (x & Hx & Hr). rewrite Forall_forall in Hends.
    specialize (Hends x Hx). lia. }
  assert (Hin : forall i, in_gaps new i -> index_base <= i < last).
  { intros i (g & Hgin & Hi). rewrite Forall_forall in Hg.
    specialize (Hg g Hgin). lia. }
  destruct (last <? rom_size) eqn:E;
    [apply Z.ltb_lt in E | apply Z.ltb_ge in E].
  - split; [|split].
    + apply pairs_impl with (R1 := fun g1 g2 : gap => snd g1 <= fst g2);
        [intros a b H; now left|].
      apply pairs_app_one; [exact Hord|].
      rewrite Forall_forall in *. intros g Hgin. specialize (Hg g Hgin).
      simpl. lia.
    + apply Forall_app. split; [exact Hnew|].
      constructor; [simpl; lia | constructor].
    + intros i Hi. rewrite in_gaps_app, in_gaps_one.
      destruct (Z_lt_le_dec i last) as [Hil | Hil].
      * rewrite <- covered_sorted. fold S. rewrite <- (Hcompl i) by lia.
        split; [intros [H | H]; [exact H | lia] | intros H; now left].
      * split; [intros _; apply Hcov; exact Hil | intros _; right; lia].
  - split; [|split].
    + apply pairs_impl with (R1 := fun g1 g2 : gap => snd g1 <= fst g2);
        [intros a b H; now left | exact Hord].
    + exact Hnew.
    + intros i Hi. rewrite <- covered_sorted. fold S.
      apply Hcompl. lia.
Qed.

End FindGapsPartition.

Section ExactPass.

Variable rom : bytes.

Lemma single_match_occurrence pattern height gaps basename width out start stop dist :
  0 <= height ->
  gaps_nonneg gaps ->
  exact_search_in_rom rom pattern height gaps basename width =
    Some (out, ExactMatch (start, stop, dist)) ->
  exists P,
    occurrence rom pattern height gaps P
    /\ start = P - prefix_of height /\ stop = P + len pattern.
Proof.
  intros Hh Hnn. pose proof (prefix_of_nonneg height Hh) as Hp.
  unfold exact_search_in_rom. fold (prefix_of height).
  rewrite exact_matches_spec by assumption. cbn [app].
  destruct (occurrences rom pattern (prefix_of height) gaps) as [|P t] eqn:Hocc;
    [discriminate|].
  destruct (len (P :: t) >? 1); [discriminate|].
  intros H. injection H as _ Hs He _.
  exists P. split; [|split; congruence].
  apply In_occurrences. rewrite Hocc. now left.
Qed.

Lemma exact_search_total pattern height gaps basename width :
  exists r, exact_search_in_rom rom pattern height gaps basename width = Some r.
Proof.
  unfold exact_search_in_rom.
  destruct (exact_matches_total rom pattern ((height + 1) / 2) gaps []) as [ms Hms].
  rewrite Hms. eauto.
Qed.

Lemma exact_pass_inv_init : exact_pass_inv (rom_size rom) (scan_init rom).
Proof.
  unfold exact_pass_inv, scan_init. cbn [results RomScan.gaps].
  split; [constructor|]. split; [constructor|].
  split; [constructor; [unfold index_base; simpl; lia | constructor]|].
  split; [constructor; constructor|].
  intros i Hi. apply in_gaps_one in Hi. split; [exact Hi|].
  intros (x & [] & _).
Qed.

(** A pass of the first loop keeps the invariant: a range accepted by
    exact search lies inside a current gap, hence in the window and apart
    from the ranges accepted before. *)
Lemma exact_pass_step_inv st p st' :
  0 <= height p ->
  byte_data p <> [] ->
  exact_pass_inv (rom_size rom) st ->
  exact_pass_step rom st p = Some st' ->
  exact_pass_inv (rom_size rom) st'.
Proof.
  intros Hh Hne (Hw & Hd & Hnn & Hgd & Hpts).
  unfold exact_pass_step, search_pattern.
  destruct (exact_search_in_rom rom (byte_data p) (height p) (RomScan.gaps st)
              (basename p) (width p)) as [[out res]|] eqn:E; [|discriminate].
  destruct res as [| |r].
  - intros H. injection H as <-. unfold exact_pass_inv. cbn [results RomScan.gaps]. auto.
  - intros H. injection H as <-. unfold exact_pass_inv. cbn [results RomScan.gaps]. auto.
  - intros H. injection H as <-. destruct r as [[start stop] dist].
    destruct (single_match_occurrence _ _ _ _ _ _ _ _ _ Hh Hnn E)
      as (P & (g & Hg & (H1 & H2 & H3) & _) & Hs & He).
    pose proof (prefix_of_nonneg (height p) Hh) as Hp.
    assert (Hlen : 0 < len (byte_data p)).
    { destruct (byte_data p) as [|b t]; [congruence|]. rewrite len_cons.
      pose proof (len_nonneg t). lia. }
    assert (Hin : forall i, start <= i < stop ->
                   index_base <= i < rom_size rom /\ ~ covered (results st) i).
    { intros i Hi. apply Hpts. exists g. split; [exact Hg | lia]. }
    assert (Hw' : ranges_in_window (rom_size rom)
                    (results st ++ [(basename p, (start, stop, dist), false)])).
    { apply Forall_app. split; [exact Hw|]. constructor; [|constructor].
      cbn [result_start result_end].
      pose proof (Hin start ltac:(lia)). pose proof (Hin (stop - 1) ltac:(lia)). lia. }
    assert (Hd' : ranges_disjoint
                    (results st ++ [(basename p, (start, stop, dist), false)])).
    { apply pairs_app_one; [exact Hd|]. unfold ranges_in_window in Hw.
      rewrite Forall_forall in *. intros x Hx. specialize (Hw x Hx).
      cbn [result_start result_end].
      destruct (Z_le_gt_dec (result_end x) start) as [|Hgt]; [now left|].
      destruct (Z_le_gt_dec stop (result_start x)) as [|Hgt2]; [now right|].
      exfalso.
      destruct (Hin (Z.max start (result_start x)) ltac:(lia)) as [_ Hnc].
      apply Hnc. exists x. split; [exact Hx | lia]. }
    destruct (find_gaps_partition _ _ Hw' Hd') as (_ & _ & Hgd' & Hgw & Hcompl).
    unfold exact_pass_inv. cbn [results RomScan.gaps].
    split; [exact Hw'|]. split; [exact Hd'|]. split; [|split; [exact Hgd'|]].
    + unfold gaps_nonneg. rewrite Forall_forall in *. intros g' Hg'.
      specialize (Hgw g' Hg'). unfold index_base in Hgw. lia.
    + intros i (g' & Hg' & Hi). rewrite Forall_forall in Hgw.
      specialize (Hgw g' Hg').
      assert (Hiw : index_base <= i < rom_size rom) by lia.
      split; [exact Hiw|]. apply (Hcompl i Hiw). exists g'. auto.
Qed.

(** X6. The first pass runs to its end and keeps the gap-set invariant:
    the ranges it accepts and the gaps recomputed from them partition the
    search window [0x50000, rom_size). *)
Proposition exact_pass_partition patterns :
  Forall (fun p => 0 <= height p /\ byte_data p <> []) patterns ->
  exists st,
    exact_pass rom (scan_init rom) patterns = Some st
    /\ window_partition (rom_size rom) (results st)
         (find_gaps (results st) (rom_size rom)).
Proof.
  intros Hall.
  assert (Hgen : forall st0,
             exact_pass_inv (rom_size rom) st0 ->
             exists st, exact_pass rom st0 patterns = Some st
                        /\ exact_pass_inv (rom_size rom) st).
  { induction Hall as [|p t [Hh Hne] Ht IH]; intros st0 Hinv; cbn [exact_pass].
    - eauto.
    - assert (Hstep : exists st1, exact_pass_step rom st0 p = Some st1).
      { unfold exact_pass_step, search_pattern.
        destruct (exact_search_total (byte_data p) (height p) (RomScan.gaps st0)
                    (basename p) (width p)) as [[out res] Hr].
        rewrite Hr. destruct res; eauto. }
      destruct Hstep as [st1 Hst1]. rewrite Hst1.
      apply IH. exact (exact_pass_step_inv st0 p st1 Hh Hne Hinv Hst1). }
  destruct (Hgen (scan_init rom) exact_pass_inv_init) as (st & Hst & Hw & Hd & _).
  exists st. split; [exact Hst|]. apply find_gaps_partition; assumption.
Qed.

End ExactPass.

Section GapSetsOfTheScan.

(** The loop of [find_gaps] over ranges sorted by start, overlapping or
    not: the gaps it adds follow one another. *)
Lemma find_gaps_fold_ordered :
  forall rs acc last_end,
    ForallOrdPairs (fun x y => result_start x <= result_start y) rs ->
    Forall (fun x => result_start x <= result_end x /\ 0 <= result_end x) rs ->
    0 <= last_end ->
    ForallOrdPairs (fun g1 g2 : gap => snd g1 <= fst g2) acc ->
    Forall (fun g : gap => 0 <= fst g /\ snd g <= last_end) acc ->
    Forall (fun g : gap => Forall (fun x => snd g <= result_start x) rs) acc ->
    ForallOrdPairs (fun g1 g2 : gap => snd g1 <= fst g2)
      (fst (fold_left find_gaps_step rs (acc, last_end)))
    /\ Forall (fun g : gap => 0 <= fst g
                              /\ snd g <= snd (fold_left find_gaps_step rs (acc, last_end)))
         (fst (fold_left find_gaps_step rs (acc, last_end)))
    /\ 0 <= snd (fold_left find_gaps_step rs (acc, last_end)).
Proof.
  induction rs as [|x t IH]; intros acc last_end Hsort Hall Hle Hord Hacc Hbefore.
  - cbn [fold_left fst snd]. auto.
  - inversion Hsort as [|? ? Hx Ht]; subst. inversion Hall as [|? ? [Hx1 Hx2] Hall']; subst.
    cbn [fold_left]. rewrite find_gaps_step_eq.
    assert (Hs : Forall (fun g : gap => snd g <= result_start x) acc).
    { rewrite Forall_forall in *. intros g Hg. specialize (Hbefore g Hg).
      inversion Hbefore; assumption. }
    assert (Hrest : Forall (fun g : gap => Forall (fun y => snd g <= result_start y) t) acc).
    { rewrite Forall_forall in *. intros g Hg. specialize (Hbefore g Hg).
      inversion Hbefore; assumption. }
    apply IH; try assumption.
    + destruct (result_start x >? last_end); [|exact Hord].
      apply pairs_app_one; [exact Hord|].
      rewrite Forall_forall in *. intros g Hg. specialize (Hacc g Hg). simpl. lia.
    + destruct (result_start x >? last_end).
      * apply Forall_app. split.
        -- rewrite Forall_forall in *. intros g Hg.
           specialize (Hacc g Hg). specialize (Hs g Hg). lia.
        -- constructor; [simpl; lia | constructor].
      * rewrite Forall_forall in *. intros g Hg.
        specialize (Hacc g Hg). specialize (Hs g Hg). lia.
    + destruct (result_start x >? last_end); [|exact Hrest].
      apply Forall_app. split; [exact Hrest|]. constructor; [|constructor].
      simpl. exact Hx.
Qed.

(** The gap sets [find_gaps] computes are pairwise disjoint ranges of
    non-negative addresses, whether the accepted ranges overlap or not. *)
Lemma find_gaps_wellformed rs rom_size :
  Forall (fun x => result_start x <= result_end x /\ 0 <= result_end x) rs ->
  gaps_nonneg (find_gaps rs rom_size) /\ gaps_disjoint (find_gaps rs rom_size).
Proof.
  intros Hall.
  destruct (find_gaps_fold_ordered (sorted result_start rs) [] index_base)
    as (Hord & Hg & Hlast).
  - apply sorted_ordered.
  - apply Forall_sorted, Hall.
  - unfold index_base. lia.
  - constructor.
  - constructor.
  - constructor.
  - unfold find_gaps.
    destruct (fold_left find_gaps_step (sorted result_start rs) ([], index_base))
      as [new last]. cbn [fst snd] in *.
    assert (Hnn : gaps_nonneg new).
    { unfold gaps_nonneg. rewrite Forall_forall in *. intros g Hgin.
      specialize (Hg g Hgin). lia. }
    destruct (last <? rom_size).
    + split.
      * apply Forall_app. split; [exact Hnn | constructor; [simpl; lia | constructor]].
      * apply pairs_impl with (R1 := fun g1 g2 : gap => snd g1 <= fst g2);
          [intros a b H; now left|].
        apply pairs_app_one; [exact Hord|].
        rewrite Forall_forall in *. intros g Hgin. specialize (Hg g Hgin). simpl. lia.
    + split; [exact Hnn|].
      apply pairs_impl with (R1 := fun g1 g2 : gap => snd g1 <= fst g2);
        [intros a b H; now left | exact Hord].
Qed.

Variable rom : bytes.

(** A match of the fuzzy search is a qualifying window at a non-negative
    position. *)
Lemma fuzzy_match_position pattern height gaps basename width out start stop dist :
  gaps_nonneg gaps ->
  fuzzy_search_in_rom rom pattern height gaps basename width =
    (out, Some (start, stop, dist)) ->
  exists pos,
    0 <= pos /\ In pos (qualifying_positions rom pattern gaps)
    /\ start = pos - prefix_of height /\ stop = pos + len pattern.
Proof.
  intros Hnn. unfold fuzzy_search_in_rom.
  destruct (fuzzy_scan_spec rom pattern gaps fuzzy_init fuzzy_inv_init) as [Hinv Hfound].
  cbn [fuzzy_init found_positions app] in Hfound.
  set (st := fuzzy_scan rom pattern gaps fuzzy_init) in *.
  destruct (best_pos st <? 0) eqn:E; [discriminate|]. apply Z.ltb_ge in E.
  destruct (_ >? 1); [discriminate|].
  intros H. injection H as _ Hs He _.
  exists (best_pos st). split; [exact E|]. fold (prefix_of height) in Hs.
  split; [|split; congruence].
  unfold fuzzy_inv in Hinv. destruct (best_distance st) as [b|].
  - destruct Hinv as [Hin _]. rewrite Hfound in Hin. apply in_map_iff in Hin.
    destruct Hin as (q & Hq & Hin). injection Hq as Hq _. subst q. exact Hin.
  - destruct Hinv as [_ Hneg]. lia.
Qed.

Lemma scan_inv_accept st name start stop dist fz :
  scan_inv st ->
  start <= stop -> 0 <= stop ->
  scan_inv
    {| results := results st ++ [(name, (start, stop, dist), fz)];
       gaps := find_gaps (results st ++ [(name, (start, stop, dist), fz)]) (rom_size rom);
       not_found := not_found st; ambiguous := ambiguous st;
       still_not_found := still_not_found st; printed := printed st |}.
Proof.
  intros (Hr & _ & _) H1 H2. unfold scan_inv. cbn [results RomScan.gaps].
  assert (Hr' : Forall (fun x => result_start x <= result_end x /\ 0 <= result_end x)
                  (results st ++ [(name, (start, stop, dist), fz)])).
  { apply Forall_app. split; [exact Hr|]. constructor; [simpl; lia | constructor]. }
  split; [exact Hr'|]. apply find_gaps_wellformed, Hr'.
Qed.

Lemma exact_pass_step_scan_inv st p st' :
  0 <= height p ->
  scan_inv st ->
  exact_pass_step rom st p = Some st' ->
  scan_inv st'.
Proof.
  intros Hh Hinv. pose proof Hinv as (Hr & Hnn & Hgd).
  unfold exact_pass_step, search_pattern.
  destruct (exact_search_in_rom rom (byte_data p) (height p) (RomScan.gaps st)
              (basename p) (width p)) as [[out res]|] eqn:E; [|discriminate].
  destruct res as [| |r].
  - intros H. injection H as <-. exact Hinv.
  - intros H. injection H as <-. exact Hinv.
  - intros H. injection H as <-. destruct r as [[start stop] dist].
    destruct (single_match_occurrence rom _ _ _ _ _ _ _ _ _ Hh Hnn E)
      as (P & (g & Hg & (H1 & H2 & H3) & (H4 & _)) & Hs & He).
    pose proof (prefix_of_nonneg (height p) Hh).
    pose proof (len_nonneg (byte_data p)).
    pose proof (scan_inv_accept st (basename p) start stop dist false Hinv
                  ltac:(lia) ltac:(lia)) as (Ha & Hb & Hc).
    unfold scan_inv. cbn [results RomScan.gaps] in *. auto.
Qed.

Lemma fuzzy_pass_step_scan_inv st p :
  0 <= height p ->
  scan_inv st ->
  scan_inv (fuzzy_pass_step rom st p).
Proof.
  intros Hh Hinv. pose proof Hinv as (Hr & Hnn & Hgd).
  unfold fuzzy_pass_step.
  destruct (fuzzy_search_in_rom rom (byte_data p) (height p) (RomScan.gaps st)
              (basename p) (width p)) as [out [r|]] eqn:E.
  - destruct r as [[start stop] dist].
    destruct (fuzzy_match_position _ _ _ _ _ _ _ _ _ Hnn E) as (pos & Hpos & _ & Hs & He).
    pose proof (prefix_of_nonneg (height p) Hh).
    pose proof (len_nonneg (byte_data p)).
    pose proof (scan_inv_accept st (basename p) start stop dist true Hinv
                  ltac:(lia) ltac:(lia)) as (Ha & Hb & Hc).
    unfold scan_inv. cbn [results RomScan.gaps] in *. auto.
  - exact Hinv.
Qed.

Lemma fuzzy_pass_scan_inv patterns :
  Forall (fun p => 0 <= height p) patterns ->
  forall st, scan_inv st -> scan_inv (fold_left (fuzzy_pass_step rom) patterns st).
Proof.
  induction 1 as [|p t Hp Ht IH]; intros st Hinv; cbn [fold_left]; [exact Hinv|].
  apply IH, fuzzy_pass_step_scan_inv; assumption.
Qed.

(** Every gap set the two searches are called with during a pass is a
    list of pairwise disjoint ranges of non-negative addresses: the
    invariant holds at the start and after every pattern of either
    pass. *)
Proposition scan_gap_sets_wellformed :
  scan_inv (scan_init rom)
  /\ (forall st p st',
        0 <= height p -> scan_inv st -> exact_pass_step rom st p = Some st' ->
        scan_inv st')
  /\ (forall st p, 0 <= height p -> scan_inv st -> scan_inv (fuzzy_pass_step rom st p))
  /\ (forall rs, Forall (fun x => result_start x <= result_end x /\ 0 <= result_end x) rs ->
        gaps_nonneg (find_gaps rs (rom_size rom))
        /\ gaps_disjoint (find_gaps rs (rom_size rom))).
Proof.
  split; [|split; [|split]].
  - unfold scan_inv, scan_init. cbn [results RomScan.gaps].
    split; [constructor|]. split.
    + constructor; [unfold index_base; simpl; lia | constructor].
    + constructor; constructor.
  - exact exact_pass_step_scan_inv.
  - exact fuzzy_pass_step_scan_inv.
  - intros rs. apply find_gaps_wellformed.
Qed.

Lemma exact_pass_scan_inv patterns :
  Forall (fun p => 0 <= height p) patterns ->
  forall st0,
    scan_inv st0 ->
    exists st, exact_pass rom st0 patterns = Some st /\ scan_inv st.
Proof.
  induction 1 as [|p t Hp Ht IH]; intros st0 Hinv; cbn [exact_pass]; [eauto|].
  assert (Hstep : exists st1, exact_pass_step rom st0 p = Some st1).
  { unfold exact_pass_step, search_pattern.
    destruct (exact_search_total rom (byte_data p) (height p) (RomScan.gaps st0)
                (basename p) (width p)) as [[out res] Hr].
    rewrite Hr. destruct res; eauto. }
  destruct Hstep as [st1 Hst1]. rewrite Hst1.
  apply IH. exact (exact_pass_step_scan_inv st0 p st1 Hp Hinv Hst1).
Qed.

(** The scan of a list of patterns of non-negative heights runs to its
    end, and its last state satisfies the invariant. *)
Proposition scan_total patterns :
  Forall (fun p => 0 <= height p) patterns ->
  exists st, scan rom patterns = Some st /\ scan_inv st.
Proof.
  intros Hall. unfold scan.
  destruct (exact_pass_scan_inv (sorted (fun p => - len (byte_data p)) patterns)
              (Forall_sorted _ _ _ Hall) (scan_init rom)
              (proj1 scan_gap_sets_wellformed))
    as (st1 & Hst1 & Hinv1).
  rewrite Hst1. eexists. split; [reflexivity|].
  assert (Hnf : Forall (fun p => 0 <= height p) (not_found st1)).
  { clear Hinv1. revert Hst1.
    assert (Hgen : forall ps st0,
               Forall (fun p => 0 <= height p) ps ->
               Forall (fun p => 0 <= height p) (not_found st0) ->
               exact_pass rom st0 ps = Some st1 ->
               Forall (fun p => 0 <= height p) (not_found st1)).
    { induction ps as [|p t IH]; intros st0 Hps Hnf0; cbn [exact_pass].
      - intros H. injection H as <-. exact Hnf0.
      - inversion Hps as [|? ? Hp Ht]; subst.
        destruct (exact_pass_step rom st0 p) as [st2|] eqn:E; [|discriminate].
        apply IH; [exact Ht|].
        unfold exact_pass_step in E.
        destruct (search_pattern rom (basename p) (byte_data p) (height p) (width p)
                    (RomScan.gaps st0)) as [[out [[r|] [|]]]|];
          try discriminate; injection E as <-; cbn [not_found]; try exact Hnf0.
        apply Forall_app. split; [exact Hnf0 | constructor; [exact Hp | constructor]]. }
    apply Hgen; [apply Forall_sorted, Hall | constructor]. }
  apply fuzzy_pass_scan_inv; [exact Hnf|].
  destruct Hinv1 as (Hr & _ & _). unfold scan_inv. cbn [results RomScan.gaps].
  split; [exact Hr|]. apply find_gaps_wellformed, Hr.
Qed.

End GapSetsOfTheScan.

(* ===================================================================== *)
(** * The searches and the gap set                                        *)
(* ===================================================================== *)

Section SearchesAndGaps.

(** C4 as the code has it. Both searches look at windows inside the gaps
    they are given only (gaps being ranges of non-negative addresses):
    every position exact search meets and every window fuzzy search
    retains lies inside a gap of the list, the range of an exact match
    lies inside the gap it was found in, and the window
    [start + ceil(height/2), end) of a fuzzy match lies inside a gap. The
    index table is not set apart: the first gap set is the whole window
    from the index base to the end of the ROM. *)
Theorem searches_stay_in_gaps rom pattern height gaps basename width :
  0 <= height ->
  gaps_nonneg gaps ->
  (forall out start stop dist,
      exact_search_in_rom rom pattern height gaps basename width =
        Some (out, ExactMatch (start, stop, dist)) ->
      exists g, In g gaps /\ fst g <= start /\ stop <= snd g)
  /\ (forall p,
        In p (occurrences rom pattern (prefix_of height) gaps) ->
        exists g, In g gaps /\ fst g <= p /\ p + len pattern <= snd g)
  /\ (forall out start stop dist,
        fuzzy_search_in_rom rom pattern height gaps basename width =
          (out, Some (start, stop, dist)) ->
        exists g, In g gaps /\ fst g <= start + prefix_of height /\ stop <= snd g)
  /\ (forall p,
        In p (qualifying_positions rom pattern gaps) ->
        exists g, In g gaps /\ fst g <= p /\ p + len pattern <= snd g)
  /\ RomScan.gaps (scan_init rom) = [(index_base, rom_size rom)].
Proof.
  intros Hh Hnn. pose proof (prefix_of_nonneg height Hh) as Hp.
  assert (Hocc : forall p,
             In p (occurrences rom pattern (prefix_of height) gaps) ->
             exists g, In g gaps /\ fst g + prefix_of height <= p
                       /\ p + len pattern <= snd g).
  { intros p Hin. apply In_occurrences in Hin.
    destruct Hin as (g & Hg & (H1 & H2 & H3) & _). exists g. auto. }
  split; [|split; [|split; [|split]]].
  - intros out start stop dist. unfold exact_search_in_rom. fold (prefix_of height).
    rewrite exact_matches_spec by assumption. cbn [app].
    destruct (occurrences rom pattern (prefix_of height) gaps) as [|P t] eqn:E;
      [discriminate|].
    destruct (len (P :: t) >? 1); [discriminate|].
    intros H. injection H as _ Hs He _.
    destruct (Hocc P (or_introl eq_refl)) as (g & Hg & H1 & H2).
    exists g. split; [exact Hg | lia].
  - intros p Hin. destruct (Hocc p Hin) as (g & Hg & H1 & H2).
    exists g. split; [exact Hg | lia].
  - intros out start stop dist. unfold fuzzy_search_in_rom.
    destruct (fuzzy_scan_spec rom pattern gaps fuzzy_init fuzzy_inv_init) as [Hinv Hfound].
    cbn [fuzzy_init found_positions app] in Hfound.
    set (st := fuzzy_scan rom pattern gaps fuzzy_init) in *.
    destruct (best_pos st <? 0) eqn:E; [discriminate|]. apply Z.ltb_ge in E.
    destruct (_ >? 1); [discriminate|].
    intros H. injection H as _ Hs He _.
    unfold fuzzy_inv in Hinv. destruct (best_distance st) as [b|].
    + destruct Hinv as [Hin _]. rewrite Hfound in Hin. apply in_map_iff in Hin.
      destruct Hin as (q & Hq & Hin). injection Hq as Hq _. subst q.
      destruct (qualifying_positions_in_gap _ _ _ _ Hin) as (g & Hg & H1 & H2).
      exists g. split; [exact Hg|]. fold (prefix_of height) in Hs. lia.
    + destruct Hinv as [_ Hneg]. lia.
  - apply qualifying_positions_in_gap.
  - reflexivity.
Qed.

(** C4, the failing part: over the first gap set, exact search accepts a
    match at the index base, in the bytes of the index table. *)
Lemma exact_match_inside_index_table :
  exists start stop,
    exact_search_in_rom table_rom (byte_data candidate_a) (height candidate_a)
      (RomScan.gaps (scan_init table_rom)) (basename candidate_a) (width candidate_a)
    = Some ([], ExactMatch (start, stop, None))
    /\ index_base <= start
    /\ stop <= index_base
               + ExtractPatterns.PATTERN_COUNT * ExtractPatterns.PATTERN_RECORD_SIZE.
Proof.
  exists 0x50000, 0x50003. split; [vm_compute; reflexivity|].
  split; [discriminate|]. discriminate.
Qed.

(** C3, on a concrete run: the first pass accepts [candidate_a] at
    [0x50000, 0x50003); fuzzy search of [candidate_b] then scans the gap
    [0x50003, 0x50007) from its first byte and accepts
    [0x50002, 0x50005). Byte 0x50002 lies in both accepted ranges. *)
Theorem scan_fuzzy_overlap :
  exists st,
    scan overlap_rom [candidate_a; candidate_b] = Some st
    /\ results st =
       [("a"%string, (0x50000, 0x50003, None), false);
        ("b"%string, (0x50002, 0x50005, Some 1), true)]
    /\ RomScan.gaps st = [(0x50005, 0x50007)]
    /\ (forall x, In x (results st) -> result_start x <= 0x50002 < result_end x).
Proof.
  eexists. split; [vm_compute; reflexivity|].
  split; [reflexivity|]. split; [reflexivity|].
  intros x [<- | [<- | []]]; simpl; lia.
Qed.

End SearchesAndGaps.

(* ===================================================================== *)
(** * The statements on concrete inputs                                   *)
(* ===================================================================== *)

Section ConcreteRuns.

Lemma small_gaps_nonneg : gaps_nonneg [(0, 7)].
Proof. constructor; [simpl; lia | constructor]. Qed.

Lemma small_gaps_disjoint : gaps_disjoint [(0, 7)].
Proof. constructor; constructor. Qed.

(** In [small_rom], the pattern 3 4 behind a prefix of two bytes occurs
    at position 5 only: exact search returns the range (3, 7). *)
Lemma exact_search_outcome_witness :
  0 <= 4 /\ gaps_nonneg [(0, 7)] /\ gaps_disjoint [(0, 7)]
  /\ (forall p, occurrence small_rom [3; 4] 4 [(0, 7)] p <-> p = 5)
  /\ exact_search_in_rom small_rom [3; 4] 4 [(0, 7)] "a" 8 =
     Some ([], ExactMatch (3, 7, None)).
Proof.
  assert (H0 : 0 <= 4) by lia.
  assert (Hu : forall p, occurrence small_rom [3; 4] 4 [(0, 7)] p <-> p = 5).
  { intros p. rewrite <- In_occurrences.
    change (occurrences small_rom [3; 4] (prefix_of 4) [(0, 7)]) with [5].
    simpl. intuition. }
  split; [exact H0|]. split; [exact small_gaps_nonneg|].
  split; [exact small_gaps_disjoint|]. split; [exact Hu|].
  exact (proj1 (exact_search_outcome small_rom [3; 4] 4 [(0, 7)] "a"%string 8
                  H0 small_gaps_nonneg) 5 small_gaps_disjoint Hu).
Defined.

(** The same search seen from its result. *)
Lemma exact_match_within_gap_witness :
  exists g P,
    In g [(0, 7)] /\ occurs_at small_rom [3; 4] P
    /\ fst g + prefix_of 4 <= P
    /\ 3 = P - prefix_of 4 /\ 7 = P + len [3; 4]
    /\ fst g <= 3 /\ 7 <= snd g.
Proof.
  apply (exact_match_within_gap small_rom [3; 4] 4 [(0, 7)] "a"%string 8 [] 3 7 None).
  - lia.
  - exact small_gaps_nonneg.
  - reflexivity.
Defined.

(** In [small_rom], the window at position 5 is the only one within one
    bit of the pattern 3 4: fuzzy search accepts it. *)
Lemma fuzzy_search_outcome_witness :
  gaps_nonneg [(0, 7)] /\ gaps_disjoint [(0, 7)]
  /\ qualifies small_rom [3; 4] [(0, 7)] 5 0
  /\ fuzzy_search_in_rom small_rom [3; 4] 2 [(0, 7)] "a" 8 =
     ([], Some (4, 7, Some 0)).
Proof.
  assert (Hq : forall p d, qualifies small_rom [3; 4] [(0, 7)] p d <-> p = 5 /\ d = 0).
  { intros p d. rewrite <- In_qualifying.
    change (qualifying_positions small_rom [3; 4] [(0, 7)]) with [5].
    simpl. split.
    - intros [H | []]. injection H as <- <-. split; reflexivity.
    - intros [-> ->]. left. reflexivity. }
  assert (H5 : qualifies small_rom [3; 4] [(0, 7)] 5 0) by (apply Hq; auto).
  split; [exact small_gaps_nonneg|]. split; [exact small_gaps_disjoint|].
  split; [exact H5|].
  apply (proj1 (fuzzy_search_outcome small_rom [3; 4] 2 [(0, 7)] "a"%string 8
                  small_gaps_nonneg) 5 0).
  - discriminate.
  - exact small_gaps_disjoint.
  - exact H5.
  - intros p' d' H. apply Hq in H. lia.
  - intros p' H. apply Hq in H. tauto.
Defined.

(** Both searches on [small_rom] keep to the gap (0, 7). *)
Lemma searches_stay_in_gaps_witness :
  (exists g, In g [(0, 7)] /\ fst g <= 3 /\ 7 <= snd g)
  /\ (exists g, In g [(0, 7)] /\ fst g <= 3 + prefix_of 4 /\ 7 <= snd g).
Proof.
  pose proof (searches_stay_in_gaps small_rom [3; 4] 4 [(0, 7)] "a"%string 8
                ltac:(lia) small_gaps_nonneg) as (H1 & _ & H3 & _).
  split.
  - apply (H1 [] 3 7 None). reflexivity.
  - apply (H3 [] 3 7 (Some 0)). reflexivity.
Defined.

(** Zeroing the range (1, 3) of a five-byte ROM. *)
Lemma zero_patterns_frame_witness :
  ranges_in_rom [1; 2; 3; 4; 5] [("a"%string, (1, 3, None), false)]
  /\ exists out,
       zero_patterns_in_rom [1; 2; 3; 4; 5] [("a"%string, (1, 3, None), false)]
         = Returns out
       /\ len out = len [1; 2; 3; 4; 5]
       /\ forall i, 0 <= i < len [1; 2; 3; 4; 5] ->
            (covered [("a"%string, (1, 3, None), false)] i -> getitem out i = Returns 0)
            /\ (~ covered [("a"%string, (1, 3, None), false)] i ->
                getitem out i = getitem [1; 2; 3; 4; 5] i).
Proof.
  assert (Hv : ranges_in_rom [1; 2; 3; 4; 5] [("a"%string, (1, 3, None), false)]).
  { constructor; [|constructor]. unfold len. simpl. lia. }
  split; [exact Hv|]. exact (zero_patterns_frame _ _ Hv).
Defined.

(** The fixture 19 06 is valid BCD and decodes to 619. *)
Lemma bcd_to_int_value_witness :
  decode_bcd_spec [0x19; 0x06] = Some 619 /\ bcd_to_int [0x19; 0x06] = 619.
Proof.
  split; [reflexivity|].
  apply (proj1 (proj2 (bcd_to_int_value [0x19; 0x06])) 619). reflexivity.
Defined.

Lemma color_pattern_in_rom : pattern_in_rom color_rom color_pattern.
Proof. unfold pattern_in_rom. vm_compute. intuition discriminate. Qed.

(** The 3x3 multicolor pattern decodes to one row of three pixels. *)
Lemma multicolor_grid_witness :
  p_type color_pattern = 0x03 /\ pattern_in_rom color_rom color_pattern
  /\ exists img,
       extract_pattern_bitmap color_rom color_pattern = ([], Returns img)
       /\ img_width img = 3 /\ img_height img = 1
       /\ forall r x, 0 <= r < 1 -> 0 <= x < 3 ->
            getpixel img x (1 - 1 - r) = Some (plane_color color_rom color_pattern r x).
Proof.
  split; [reflexivity|]. split; [exact color_pattern_in_rom|].
  exact (multicolor_grid color_rom color_pattern eq_refl color_pattern_in_rom).
Defined.

(** The same pattern: the memo value 5 of its second plane is decoded. *)
Lemma multicolor_no_palette_check_witness :
  0 <= p_width color_pattern /\ 0 <= p_height color_pattern
  /\ extract_multicolor_bitmap color_rom color_pattern <> Raises ValueError
  /\ exists img,
       extract_multicolor_bitmap color_rom color_pattern = Returns img
       /\ forall r x, 0 <= r < 1 -> 0 <= x < 3 ->
            3 < plane_color color_rom color_pattern r x ->
            getpixel img x (1 - 1 - r) = Some (plane_color color_rom color_pattern r x).
Proof.
  assert (Hw : 0 <= p_width color_pattern) by (simpl; lia).
  assert (Hh : 0 <= p_height color_pattern) by (simpl; lia).
  split; [exact Hw|]. split; [exact Hh|].
  destruct (multicolor_no_palette_check color_rom color_pattern Hw Hh) as [H1 H2].
  split; [exact H1|]. exact (H2 color_pattern_in_rom).
Defined.

(** C8, the failing part: the memo value 5, outside the palette range
    0..3, is used for the pixel of column 1, and the decoding returns an
    image that holds 5 there. *)
Lemma multicolor_out_of_palette_decodes :
  plane_color color_rom color_pattern 0 1 = 5
  /\ extract_multicolor_bitmap color_rom color_pattern =
     Returns {| img_mode := ModeP; img_width := 3; img_height := 1;
                img_data := [1; 5; 3]; img_palette := palette;
                img_comment := None |}.
Proof. split; reflexivity. Qed.

(** The batch [memo_pattern_1; memo_pattern_2] on [memo_rom]: the memo
    value 9 of the first pattern ends the run. *)
Lemma batch_stops_at_malformed_memo_witness :
  p_type memo_pattern_1 = 0x02 /\ 0 <= p_width memo_pattern_1
  /\ parse_memo_data memo_rom (p_offset memo_pattern_1) (p_height memo_pattern_1)
     = Returns [9; 0]
  /\ ~ valid_memo 9
  /\ main_loop memo_rom ([] ++ memo_pattern_1 :: [memo_pattern_2]) run_init =
     {| saved := []; output := [ErrorProcessing 1 ValueError];
        raised := Some ValueError |}.
Proof.
  assert (Hw : 0 <= p_width memo_pattern_1) by (simpl; lia).
  assert (Hv : ~ valid_memo 9) by (unfold valid_memo; lia).
  split; [reflexivity|]. split; [exact Hw|]. split; [reflexivity|].
  split; [exact Hv|].
  apply (batch_stops_at_malformed_memo memo_rom [] memo_pattern_1 [memo_pattern_2]
           [9; 0] 9).
  - intros q [].
  - reflexivity.
  - exact Hw.
  - reflexivity.
  - now left.
  - exact Hv.
Defined.

(** C5, the failing part: the second pattern of the batch decodes on its
    own, but the malformed memo value of the first one ends the run
    before it: nothing is saved. *)
Lemma batch_aborted_by_malformed_memo :
  (exists img, extract_pattern_bitmap memo_rom memo_pattern_2 = ([], Returns img))
  /\ main_loop memo_rom [memo_pattern_1; memo_pattern_2] run_init =
     {| saved := []; output := [ErrorProcessing 1 ValueError];
        raised := Some ValueError |}.
Proof. split; [eexists|]; vm_compute; reflexivity. Qed.

End ConcreteRuns.

(* ===================================================================== *)
(** * The bit distance                                                    *)
(* ===================================================================== *)

Section HammingDistance.

Lemma pos_ones_pos p : 1 <= pos_ones p.
Proof. induction p; cbn [pos_ones]; lia. Qed.

Lemma bin_count_ones_nonneg x : 0 <= bin_count_ones x.
Proof. destruct x; cbn [bin_count_ones]; [lia | |]; pose proof (pos_ones_pos p); lia. Qed.

Lemma bin_count_ones_zero x : bin_count_ones x = 0 <-> x = 0.
Proof.
  destruct x; cbn [bin_count_ones]; split; intros H; try reflexivity;
    try discriminate; pose proof (pos_ones_pos p); lia.
Qed.

Lemma pos_ones_size p : pos_ones p <= Z.pos (Pos.size p).
Proof. induction p; cbn [pos_ones Pos.size]; lia. Qed.

(** A byte has at most 8 ones. *)
Lemma bin_count_ones_byte x : 0 <= x < 256 -> bin_count_ones x <= 8.
Proof.
  intros H. destruct x as [|p|p]; cbn [bin_count_ones]; try lia.
  pose proof (pos_ones_size p) as Hs.
  assert (Hl : Z.pos (Pos.size p) = Z.log2 (Z.pos p) + 1)
    by (destruct p; cbn [Pos.size Z.log2]; lia).
  assert (Z.log2 (Z.pos p) < 8) by (apply Z.log2_lt_pow2; lia).
  lia.
Qed.

Lemma lxor_byte x y : 0 <= x < 256 -> 0 <= y < 256 -> 0 <= Z.lxor x y < 256.
Proof.
  intros Hx Hy.
  assert (H0 : 0 <= Z.lxor x y) by (apply Z.lxor_nonneg; lia).
  split; [exact H0|].
  destruct (Z.eq_dec (Z.lxor x y) 0) as [-> | Hne]; [lia|].
  change 256 with (2 ^ 8). apply Z.log2_lt_pow2; [lia|].
  pose proof (Z.log2_lxor x y ltac:(lia) ltac:(lia)) as Hl.
  assert (Z.log2 x < 8).
  { destruct (Z.eq_dec x 0) as [-> | ?]; [simpl; lia|].
    apply Z.log2_lt_pow2; lia. }
  assert (Z.log2 y < 8).
  { destruct (Z.eq_dec y 0) as [-> | ?]; [simpl; lia|].
    apply Z.log2_lt_pow2; lia. }
  lia.
Qed.

Lemma hamming_fold (l : list (Z * Z)) (acc : Z) :
  fold_left (fun diff_bits '(b1, b2) => diff_bits + bin_count_ones (Z.lxor b1 b2)) l acc
  = acc
    + fold_left (fun diff_bits '(b1, b2) => diff_bits + bin_count_ones (Z.lxor b1 b2)) l 0.
Proof.
  revert acc. induction l as [|[x y] t IH]; intros acc; cbn [fold_left]; [lia|].
  rewrite IH. rewrite (IH (0 + _)). lia.
Qed.

Lemma hamming_cons x a y b :
  hamming_distance (x :: a) (y :: b) =
  bin_count_ones (Z.lxor x y) + hamming_distance a b.
Proof.
  unfold hamming_distance. cbn [combine fold_left]. rewrite hamming_fold. lia.
Qed.

Lemma hamming_nil_l b : hamming_distance [] b = 0.
Proof. reflexivity. Qed.

Lemma hamming_nil_r a : hamming_distance a [] = 0.
Proof. destruct a; reflexivity. Qed.

Lemma hamming_nonneg a b : 0 <= hamming_distance a b.
Proof.
  revert b. induction a as [|x a IH]; intros b; [rewrite hamming_nil_l; lia|].
  destruct b as [|y b]; [rewrite hamming_nil_r; lia|].
  rewrite hamming_cons. pose proof (bin_count_ones_nonneg (Z.lxor x y)).
  specialize (IH b). lia.
Qed.

Lemma hamming_self a : hamming_distance a a = 0.
Proof.
  induction a as [|x a IH]; [reflexivity|].
  rewrite hamming_cons, Z.lxor_nilpotent, IH. reflexivity.
Qed.

Lemma hamming_zero_eq a :
  forall b, length a = length b -> hamming_distance a b = 0 -> a = b.
Proof.
  induction a as [|x a IH]; intros [|y b] Hlen H; try discriminate; [reflexivity|].
  rewrite hamming_cons in H.
  pose proof (bin_count_ones_nonneg (Z.lxor x y)).
  pose proof (hamming_nonneg a b).
  assert (Hz : bin_count_ones (Z.lxor x y) = 0) by lia.
  apply bin_count_ones_zero, Z.lxor_eq in Hz. subst y.
  f_equal. apply IH; [simpl in Hlen; lia | lia].
Qed.

(** X1. The bit distance of [hamming_distance] is symmetric and never
    negative; two byte strings of the same length are at distance 0
    exactly when they are equal; and the distance of two strings of bytes
    (values 0..255) is at most 8 bits for each byte of the first. *)
Theorem hamming_distance_metric a b :
  hamming_distance a b = hamming_distance b a
  /\ 0 <= hamming_distance a b
  /\ (length a = length b -> (hamming_distance a b = 0 <-> a = b))
  /\ (Forall (fun x => 0 <= x < 256) a -> Forall (fun x => 0 <= x < 256) b ->
      hamming_distance a b <= 8 * len a).
Proof.
  split; [|split; [|split]].
  - revert b. induction a as [|x a IH]; intros b.
    + rewrite hamming_nil_l, hamming_nil_r. reflexivity.
    + destruct b as [|y b]; [reflexivity|].
      rewrite !hamming_cons, Z.lxor_comm, IH. reflexivity.
  - apply hamming_nonneg.
  - intros Hlen. split; [apply hamming_zero_eq, Hlen|].
    intros ->. apply hamming_self.
  - revert b. induction a as [|x a IH]; intros b Ha Hb.
    + rewrite hamming_nil_l. unfold len. simpl. lia.
    + inversion Ha as [|? ? Hx Ha']; subst. rewrite len_cons.
      destruct b as [|y b].
      * rewrite hamming_nil_r. pose proof (len_nonneg a). lia.
      * inversion Hb as [|? ? Hy Hb']; subst. rewrite hamming_cons.
        specialize (IH b Ha' Hb').
        pose proof (bin_count_ones_byte _ (lxor_byte x y Hx Hy)). lia.
Qed.

(** X2. [zip] stops at the shorter string: the distance only counts the
    bytes both strings have, so a window cut short by the end of the ROM
    is compared on its first bytes only, and an empty window is at
    distance 0 of every pattern. *)
Theorem hamming_distance_common_prefix a b :
  hamming_distance a b = hamming_distance (firstn (length b) a) b
  /\ hamming_distance a b = hamming_distance a (firstn (length a) b)
  /\ hamming_distance a [] = 0.
Proof.
  split; [|split].
  - revert b. induction a as [|x a IH]; intros b.
    + rewrite firstn_nil. reflexivity.
    + destruct b as [|y b]; [rewrite !hamming_nil_r; reflexivity|].
      cbn [length firstn]. rewrite !hamming_cons, <- IH. reflexivity.
  - revert b. induction a as [|x a IH]; intros b; [reflexivity|].
    destruct b as [|y b]; [reflexivity|].
    cbn [length firstn]. rewrite !hamming_cons, <- IH. reflexivity.
  - apply hamming_nil_r.
Qed.

End HammingDistance.

Section FuzzySoundness.

Variable rom : bytes.
Variable pattern : bytes.

(** X3. Exact occurrences and windows at distance 0 are the same thing:
    where the pattern occurs, the window is at bit distance 0 and
    qualifies for the fuzzy search; and a window inside the ROM at bit
    distance 0 is an occurrence of the pattern. *)
Theorem occurrence_iff_distance_zero p :
  (occurs_at rom pattern p ->
   window_distance rom pattern p = 0 /\ qualifiesb rom pattern p = true)
  /\ (0 <= p -> p + len pattern <= len rom ->
      window_distance rom pattern p = 0 -> occurs_at rom pattern p).
Proof.
  pose proof (len_nonneg pattern) as Hl. unfold window_distance. split.
  - intros (H1 & H2 & H3). unfold qualifiesb, window_distance. rewrite H3.
    rewrite hamming_self. split; [reflexivity|].
    apply Z.leb_le. unfold max_errors. apply Z.div_pos; lia.
  - intros H1 H2 H3. split; [exact H1|]. split; [exact H2|].
    symmetry. apply hamming_zero_eq; [|exact H3].
    pose proof (len_slice_inside rom p (p + len pattern) H1 ltac:(lia) H2) as Hs.
    unfold len in *. lia.
Qed.

(** X4. What a match of the fuzzy search guarantees: nothing was
    printed, the range is [(pos - ceil(height/2), pos + len(pattern))] for
    a qualifying window at [pos], the distance returned is the bit
    distance of that window, no qualifying window is nearer, and no other
    position is as near. *)
Theorem fuzzy_match_sound height gaps basename width out start stop dist :
  gaps_nonneg gaps ->
  fuzzy_search_in_rom rom pattern height gaps basename width =
    (out, Some (start, stop, dist)) ->
  out = []
  /\ exists pos d,
       dist = Some d
       /\ start = pos - prefix_of height /\ stop = pos + len pattern
       /\ qualifies rom pattern gaps pos d
       /\ (forall p' d', qualifies rom pattern gaps p' d' -> d <= d')
       /\ (forall p', qualifies rom pattern gaps p' d -> p' = pos).
Proof.
  intros Hnn. unfold fuzzy_search_in_rom.
  destruct (fuzzy_scan_spec rom pattern gaps fuzzy_init fuzzy_inv_init) as [Hinv Hfound].
  cbn [fuzzy_init found_positions app] in Hfound.
  set (st := fuzzy_scan rom pattern gaps fuzzy_init) in *.
  destruct (best_pos st <? 0) eqn:E; [discriminate|]. apply Z.ltb_ge in E.
  unfold fuzzy_inv in Hinv. destruct (best_distance st) as [b|].
  2:{ destruct Hinv as [_ Hneg]. lia. }
  destruct Hinv as [Hin Hmin]. rewrite Hfound in Hin, Hmin.
  rewrite Hfound, filter_with_distance, len_map.
  fold (tied_positions rom pattern gaps b).
  destruct (len (tied_positions rom pattern gaps b) >? 1) eqn:E2; [discriminate|].
  rewrite Z.gtb_ltb in E2. apply Z.ltb_ge in E2.
  intros H. injection H as <- <- <- <-. split; [reflexivity|].
  exists (best_pos st), b. fold (prefix_of height).
  apply In_qualifying in Hin.
  split; [reflexivity|]. split; [reflexivity|]. split; [reflexivity|].
  split; [exact Hin|]. split.
  - intros p' d' Hq. apply (Hmin p' d'). apply In_qualifying. exact Hq.
  - intros p' Hq. destruct (Z.eq_dec p' (best_pos st)) as [-> | Hne]; [reflexivity|].
    exfalso.
    pose proof (two_members_len (tied_positions rom pattern gaps b) p' (best_pos st) Hne
                  (proj2 (In_tied rom pattern gaps p' b) Hq)
                  (proj2 (In_tied rom pattern gaps (best_pos st) b) Hin)).
    lia.
Qed.

End FuzzySoundness.

Section FuzzySoundnessWitness.

Lemma fuzzy_match_sound_witness :
  gaps_nonneg [(0, 7)]
  /\ exists pos d,
       Some 0 = Some d
       /\ 4 = pos - prefix_of 2 /\ 7 = pos + len [3; 4]
       /\ qualifies small_rom [3; 4] [(0, 7)] pos d
       /\ (forall p' d', qualifies small_rom [3; 4] [(0, 7)] p' d' -> d <= d')
       /\ (forall p', qualifies small_rom [3; 4] [(0, 7)] p' d -> p' = pos).
Proof.
  split; [exact small_gaps_nonneg|].
  apply (fuzzy_match_sound small_rom [3; 4] 2 [(0, 7)] "a"%string 8 [] 4 7 (Some 0)
           small_gaps_nonneg).
  reflexivity.
Defined.

Lemma occurrence_iff_distance_zero_witness :
  occurs_at small_rom [3; 4] 5
  /\ window_distance small_rom [3; 4] 5 = 0
  /\ qualifiesb small_rom [3; 4] 5 = true.
Proof.
  assert (H : occurs_at small_rom [3; 4] 5).
  { apply occurs_atb_true. reflexivity. }
  split; [exact H|].
  exact (proj1 (occurrence_iff_distance_zero small_rom [3; 4] 5) H).
Defined.

End FuzzySoundnessWitness.

(* ===================================================================== *)
(** * The gap set and the verdicts of a scan                              *)
(* ===================================================================== *)

Section GapSetExtras.

(** X5. [find_gaps] computes the complement: for accepted ranges that
    are non-empty, lie in the window [0x50000, rom_size) and are pairwise
    disjoint, the gaps returned are non-empty ranges of the window,
    pairwise disjoint, and a byte of the window lies in a gap exactly
    when no accepted range holds it. *)
Theorem find_gaps_complement rs rom_size :
  (forall x, In x rs ->
     index_base <= result_start x /\ result_start x < result_end x
     /\ result_end x <= rom_size) ->
  ranges_disjoint rs ->
  (forall g, In g (find_gaps rs rom_size) ->
     index_base <= fst g /\ fst g < snd g /\ snd g <= rom_size)
  /\ gaps_disjoint (find_gaps rs rom_size)
  /\ (forall i, index_base <= i < rom_size ->
        (in_gaps (find_gaps rs rom_size) i <-> ~ covered rs i)).
Proof.
  intros Hw Hd.
  assert (Hw' : ranges_in_window rom_size rs) by (apply Forall_forall; exact Hw).
  destruct (find_gaps_partition rs rom_size Hw' Hd) as (_ & _ & Hgd & Hg & Hc).
  split; [|split; assumption]. apply Forall_forall. exact Hg.
Qed.

Lemma find_gaps_complement_witness :
  ranges_disjoint [("a"%string, (327690, 327700, None), false);
                   ("b"%string, (327680, 327685, None), false)]
  /\ find_gaps [("a"%string, (327690, 327700, None), false);
                ("b"%string, (327680, 327685, None), false)] 327800
     = [(327685, 327690); (327700, 327800)]
  /\ (forall i, index_base <= i < 327800 ->
        (in_gaps (find_gaps [("a"%string, (327690, 327700, None), false);
                             ("b"%string, (327680, 327685, None), false)] 327800) i
         <-> ~ covered [("a"%string, (327690, 327700, None), false);
                        ("b"%string, (327680, 327685, None), false)] i)).
Proof.
  assert (Hd : ranges_disjoint [("a"%string, (327690, 327700, None), false);
                                ("b"%string, (327680, 327685, None), false)]).
  { constructor; [|constructor; constructor].
    constructor; [|constructor]. simpl. lia. }
  split; [exact Hd|]. split; [reflexivity|].
  apply (find_gaps_complement _ 327800); [|exact Hd].
  intros x [<- | [<- | []]]; unfold index_base; simpl; lia.
Defined.

(** The first pass on one candidate that occurs in [table_rom]. *)
Lemma exact_pass_partition_witness :
  Forall (fun p => 0 <= height p /\ byte_data p <> []) [candidate_a]
  /\ exists st,
       exact_pass table_rom (scan_init table_rom) [candidate_a] = Some st
       /\ window_partition (rom_size table_rom) (results st)
            (find_gaps (results st) (rom_size table_rom)).
Proof.
  assert (H : Forall (fun p => 0 <= height p /\ byte_data p <> []) [candidate_a]).
  { constructor; [|constructor]. split; [simpl; lia | discriminate]. }
  split; [exact H|]. exact (exact_pass_partition table_rom [candidate_a] H).
Defined.

End GapSetExtras.

Section Verdicts.

Variable rom : bytes.








End Verdicts.

(* ===================================================================== *)
(** * More on the redacted copy                                           *)
(* ===================================================================== *)

Section ZeroRangesExtras.

Lemma zero_loop_raises before x after :
  (forall y, In y before -> result_start y <= result_end y) ->
  result_end x < result_start x ->
  forall c, zero_loop c (before ++ x :: after) = Raises ValueError.
Proof.
  intros Hb Hx. induction before as [|y t IH]; intros c; cbn [app zero_loop].
  - destruct x as [[name [[start stop] dist]] fz]. simpl in Hx.
    unfold bytes_zero.
    destruct (stop - start <? 0) eqn:E; [reflexivity | apply Z.ltb_ge in E; lia].
  - pose proof (Hb y (or_introl eq_refl)) as Hy.
    destruct y as [[name [[start stop] dist]] fz]. simpl in Hy.
    unfold bytes_zero.
    destruct (stop - start <? 0) eqn:E; [apply Z.ltb_lt in E; lia|].
    cbn [Py.bind]. apply IH. intros z Hz. apply Hb. now right.
Qed.

(** X8. Ranges that are not ranges of the ROM: an entry whose end is
    below its start makes [zero_patterns_in_rom] raise [ValueError]
    (from [bytes] of a negative length), whatever the other entries are;
    and an entry that starts in the ROM and ends past its end makes the
    buffer longer than the ROM: its length is the end of the entry. *)
Theorem zero_patterns_outside_rom rom :
  (forall before x after,
      (forall y, In y before -> result_start y <= result_end y) ->
      result_end x < result_start x ->
      zero_patterns_in_rom rom (before ++ x :: after) = Raises ValueError)
  /\ (forall name start stop dist fz,
        0 <= start <= len rom -> len rom < stop ->
        exists out,
          zero_patterns_in_rom rom [(name, (start, stop, dist), fz)] = Returns out
          /\ len out = stop).
Proof.
  split.
  - intros before x after Hb Hx. unfold zero_patterns_in_rom.
    apply zero_loop_raises; assumption.
  - intros name start stop dist fz Hs He. unfold zero_patterns_in_rom.
    cbn [zero_loop]. unfold bytes_zero.
    destruct (stop - start <? 0) eqn:E; [apply Z.ltb_lt in E; lia|].
    cbn [Py.bind]. eexists. split; [reflexivity|].
    unfold slice_assign, clamp_index.
    destruct (start <? 0) eqn:E1; [apply Z.ltb_lt in E1; lia|].
    destruct (start + (stop - start) <? 0) eqn:E2; [apply Z.ltb_lt in E2; lia|].
    rewrite (Z.min_l start) by lia. rewrite (Z.min_r (start + (stop - start))) by lia.
    rewrite Z.max_r by lia. rewrite !len_app.
    unfold len in *. rewrite length_firstn, repeat_length, length_skipn. lia.
Qed.

Lemma zero_patterns_outside_rom_witness :
  zero_patterns_in_rom [1; 2; 3] [("a"%string, (2, 1, None), false)] = Raises ValueError
  /\ exists out,
       zero_patterns_in_rom [1; 2; 3] [("a"%string, (2, 5, None), false)] = Returns out
       /\ len out = 5.
Proof.
  destruct (zero_patterns_outside_rom [1; 2; 3]) as [H1 H2]. split.
  - apply (H1 [] ("a"%string, (2, 1, None), false) []).
    + intros y [].
    + simpl. lia.
  - apply H2; unfold len; simpl; lia.
Defined.

Lemma list_eq_nth_error {A : Type} (l l' : list A) :
  length l = length l' ->
  (forall i, (i < length l)%nat -> nth_error l i = nth_error l' i) ->
  l = l'.
Proof.
  intros Hlen H. apply nth_error_ext. intros i.
  destruct (Nat.lt_ge_cases i (length l)) as [Hi | Hi]; [apply H, Hi|].
  rewrite (proj2 (nth_error_None l i)) by lia.
  rewrite (proj2 (nth_error_None l' i)) by lia. reflexivity.
Qed.

(** X9. The redacted copy depends on the set of bytes the accepted
    ranges hold, not on their order, their number or their overlaps: two
    lists of ranges of the ROM that hold the same bytes give the same
    buffer. In particular zeroing is idempotent: zeroing the result again
    with the same ranges returns it unchanged. *)
Theorem zero_patterns_by_coverage rom rs rs' :
  ranges_in_rom rom rs ->
  ranges_in_rom rom rs' ->
  (forall i, covered rs i <-> covered rs' i) ->
  zero_patterns_in_rom rom rs = zero_patterns_in_rom rom rs'
  /\ exists out,
       zero_patterns_in_rom rom rs = Returns out
       /\ zero_patterns_in_rom out rs = Returns out.
Proof.
  intros Hv Hv' Hcov. unfold zero_patterns_in_rom.
  destruct (zero_loop_spec rs rom Hv) as (out & Hout & Hlen & Hb).
  destruct (zero_loop_spec rs' rom Hv') as (out' & Hout' & Hlen' & Hb').
  assert (Hv2 : Forall (fun x => 0 <= result_start x <= result_end x
                                 /\ result_end x <= len out) rs).
  { rewrite Hlen. exact Hv. }
  destruct (zero_loop_spec rs out Hv2) as (out2 & Hout2 & Hlen2 & Hb2).
  split.
  - rewrite Hout, Hout'. f_equal. apply list_eq_nth_error.
    + unfold len in *. lia.
    + intros i Hi.
      assert (Hi' : 0 <= Z.of_nat i < len rom) by (unfold len in *; lia).
      destruct (Hb _ Hi') as [Hc Hn]. destruct (Hb' _ Hi') as [Hc' Hn'].
      rewrite Nat2Z.id in *.
      destruct (covered_dec rs (Z.of_nat i)) as [H | H].
      * rewrite (Hc H), (Hc' (proj1 (Hcov _) H)). reflexivity.
      * rewrite (Hn H). rewrite Hn'; [reflexivity|]. intros H'. apply H, Hcov, H'.
  - exists out. split; [exact Hout|]. rewrite Hout2. f_equal.
    apply list_eq_nth_error.
    + unfold len in *. lia.
    + intros i Hi.
      assert (Hi' : 0 <= Z.of_nat i < len rom) by (unfold len in *; lia).
      assert (Hi2 : 0 <= Z.of_nat i < len out) by lia.
      destruct (Hb _ Hi') as [Hc Hn]. destruct (Hb2 _ Hi2) as [Hc2 Hn2].
      rewrite Nat2Z.id in *.
      destruct (covered_dec rs (Z.of_nat i)) as [H | H].
      * rewrite (Hc H), (Hc2 H). reflexivity.
      * apply Hn2, H.
Qed.

Lemma zero_patterns_by_coverage_witness :
  zero_patterns_in_rom [1; 2; 3; 4; 5]
    [("a"%string, (1, 2, None), false); ("b"%string, (2, 4, None), false)]
  = zero_patterns_in_rom [1; 2; 3; 4; 5] [("c"%string, (1, 4, Some 3), true)].
Proof.
  apply (zero_patterns_by_coverage [1; 2; 3; 4; 5]
           [("a"%string, (1, 2, None), false); ("b"%string, (2, 4, None), false)]
           [("c"%string, (1, 4, Some 3), true)]).
  - repeat constructor; unfold len; simpl; lia.
  - repeat constructor; unfold len; simpl; lia.
  - intros i. split.
    + intros (x & [<- | [<- | []]] & Hi); simpl in Hi;
        exists ("c"%string, (1, 4, Some 3), true); (split; [now left | simpl; lia]).
    + intros (x & [<- | []] & Hi). simpl in Hi.
      destruct (Z_lt_le_dec i 2).
      * exists ("a"%string, (1, 2, None), false). split; [now left | simpl; lia].
      * exists ("b"%string, (2, 4, None), false).
        split; [right; now left | simpl; lia].
Defined.

End ZeroRangesExtras.

(* ===================================================================== *)
(** * More on the numeric codec                                           *)
(* ===================================================================== *)

Section NumericCodecExtras.

Lemma land_shiftl_small x y k :
  0 <= k -> 0 <= y < 2 ^ k -> Z.land (Z.shiftl x k) y = 0.
Proof.
  intros Hk Hy. apply Z.bits_inj'. intros n Hn.
  rewrite Z.land_spec, Z.bits_0.
  destruct (Z_lt_le_dec n k) as [Hlt | Hge].
  - rewrite Z.shiftl_spec_low by lia. reflexivity.
  - destruct (Z.eq_dec y 0) as [-> | Hne]; [now rewrite Z.bits_0, andb_false_r|].
    rewrite (Z.bits_above_log2 y n); [apply andb_false_r | lia |].
    assert (Z.log2 y < k) by (apply Z.log2_lt_pow2; lia). lia.
Qed.

Lemma lor_shiftl_small x y k :
  0 <= k -> 0 <= y < 2 ^ k -> Z.lor (Z.shiftl x k) y = x * 2 ^ k + y.
Proof.
  intros Hk Hy. pose proof (land_shiftl_small x y k Hk Hy) as H.
  rewrite <- Z.lxor_lor by exact H. rewrite <- Z.add_nocarry_lxor by exact H.
  rewrite Z.shiftl_mul_pow2 by lia. reflexivity.
Qed.

(** X10. [decode_pattern_offset] on a field of at least three bytes
    b0 b1 b2 (b1 and b2 in 0..255) returns b0 * 65536 + b2 * 256 + b1: the
    first byte is the most significant one and the last two are swapped;
    with b0 a byte too the offset is below 2^24. A field of fewer than
    three bytes raises [IndexError]. The two doctests hold. *)
Theorem decode_pattern_offset_value :
  (forall b0 b1 b2 rest,
      0 <= b1 < 256 -> 0 <= b2 < 256 ->
      decode_pattern_offset (b0 :: b1 :: b2 :: rest)
      = Returns (b0 * 65536 + b2 * 256 + b1)
      /\ (0 <= b0 < 256 -> 0 <= b0 * 65536 + b2 * 256 + b1 < 2 ^ 24))
  /\ (forall bs, (length bs < 3)%nat -> decode_pattern_offset bs = Raises IndexError)
  /\ decode_pattern_offset [0x05; 0x04; 0x20] = Returns 0x52004
  /\ decode_pattern_offset [0x07; 0x14; 0xa7] = Returns 0x7a714.
Proof.
  split; [|split; [|split; reflexivity]].
  - intros b0 b1 b2 rest H1 H2. split; [|intros H0; lia].
    change (decode_pattern_offset (b0 :: b1 :: b2 :: rest))
      with (Returns (Z.lor (Z.lor (Z.shiftl b0 16) (Z.shiftl b2 8)) b1)).
    f_equal.
    replace (Z.shiftl b0 16) with (Z.shiftl (Z.shiftl b0 8) 8)
      by (rewrite Z.shiftl_shiftl by lia; reflexivity).
    rewrite <- Z.shiftl_lor.
    rewrite (lor_shiftl_small b0 b2 8) by (simpl; lia).
    rewrite (lor_shiftl_small _ b1 8) by (simpl; lia).
    change (2 ^ 8) with 256. lia.
  - intros bs Hlen. unfold decode_pattern_offset.
    destruct bs as [|b0 [|b1 [|b2 rest]]]; simpl in Hlen; try lia; reflexivity.
Qed.

Lemma decode_pattern_offset_value_witness :
  decode_pattern_offset [0x05; 0x04; 0x20; 0xFF] = Returns (5 * 65536 + 32 * 256 + 4)
  /\ decode_pattern_offset [0x05; 0x04] = Raises IndexError.
Proof.
  destruct decode_pattern_offset_value as (H1 & H2 & _). split.
  - apply (H1 5 4 32 [0xFF]); lia.
  - apply H2. simpl. lia.
Defined.

Lemma nibbles_of_byte b :
  0 <= b < 256 ->
  low_nibble b = b mod 16 /\ high_nibble b = b / 16.
Proof.
  intros Hb. unfold low_nibble, high_nibble.
  change 0x0F with (Z.ones 4). rewrite !Z.land_ones by lia.
  rewrite Z.shiftr_div_pow2 by lia. change (2 ^ 4) with 16.
  split; [reflexivity|]. apply Z.mod_small.
  split; [apply Z.div_pos; lia | apply Z.div_lt_upper_bound; lia].
Qed.

Lemma bcd_sum_shift bs : forall i, bcd_sum bs i = 100 ^ Z.of_nat i * bcd_sum bs 0.
Proof.
  induction bs as [|b t IH]; intros i; cbn [bcd_sum]; [lia|].
  rewrite (IH (S i)), (IH 1%nat).
  rewrite Nat2Z.inj_succ, Z.pow_succ_r by lia.
  change (100 ^ Z.of_nat 0) with 1. change (100 ^ Z.of_nat 1) with 100. lia.
Qed.

Lemma bcd_sum_cons b t :
  bcd_sum (b :: t) 0 = low_nibble b + 10 * high_nibble b + 100 * bcd_sum t 0.
Proof.
  cbn [bcd_sum]. rewrite (bcd_sum_shift t 1).
  change (100 ^ Z.of_nat 0) with 1. change (100 ^ Z.of_nat 1) with 100. lia.
Qed.

(** X11. On valid BCD (bytes 0..255 whose two nibbles are decimal
    digits), [bcd_to_int] of n bytes is a number from 0 to 100^n - 1 (so
    a 2-byte field decodes to 0..9999), and it loses nothing: two valid
    fields of the same length that decode to the same number are the same
    bytes. *)
Theorem bcd_to_int_valid bs bs' :
  Forall (fun b => 0 <= b < 256 /\ low_nibble b <= 9 /\ high_nibble b <= 9) bs ->
  0 <= bcd_to_int bs < 100 ^ len bs
  /\ (Forall (fun b => 0 <= b < 256 /\ low_nibble b <= 9 /\ high_nibble b <= 9) bs' ->
      length bs = length bs' ->
      bcd_to_int bs = bcd_to_int bs' -> bs = bs').
Proof.
  assert (Heq : forall l, bcd_to_int l = bcd_sum l 0).
  { intros l. unfold bcd_to_int. change 1 with (100 ^ Z.of_nat 0).
    rewrite bcd_fold. simpl. reflexivity. }
  rewrite !Heq. intros Hv.
  assert (Hbound : forall l,
             Forall (fun b => 0 <= b < 256 /\ low_nibble b <= 9 /\ high_nibble b <= 9) l ->
             0 <= bcd_sum l 0 < 100 ^ len l).
  { induction 1 as [|b t (Hb & Hlo & Hhi) Ht IH].
    - unfold len. simpl. lia.
    - rewrite bcd_sum_cons, len_cons.
      destruct (nibbles_of_byte b Hb) as [E1 E2].
      pose proof (Z.mod_pos_bound b 16 ltac:(lia)).
      assert (0 <= b / 16) by (apply Z.div_pos; lia).
      rewrite Z.pow_add_r by (pose proof (len_nonneg t); lia).
      change (100 ^ 1) with 100. lia. }
  split; [apply Hbound, Hv|].
  intros Hv' Hlen. revert bs' Hv' Hlen.
  induction Hv as [|b t (Hb & Hlo & Hhi) Ht IH]; intros bs' Hv' Hlen Hsum.
  - destruct bs'; [reflexivity | discriminate].
  - destruct bs' as [|b' t']; [discriminate|].
    inversion Hv' as [|? ? (Hb' & Hlo' & Hhi') Ht']; subst.
    rewrite !bcd_sum_cons in Hsum.
    destruct (nibbles_of_byte b Hb) as [E1 E2].
    destruct (nibbles_of_byte b' Hb') as [E1' E2'].
    pose proof (Z.mod_pos_bound b 16 ltac:(lia)).
    pose proof (Z.mod_pos_bound b' 16 ltac:(lia)).
    assert (0 <= b / 16) by (apply Z.div_pos; lia).
    assert (0 <= b' / 16) by (apply Z.div_pos; lia).
    pose proof (Z.div_mod b 16 ltac:(lia)).
    pose proof (Z.div_mod b' 16 ltac:(lia)).
    assert (Hd : low_nibble b + 10 * high_nibble b = low_nibble b' + 10 * high_nibble b'
                 /\ bcd_sum t 0 = bcd_sum t' 0) by lia.
    destruct Hd as [Hd Hr].
    assert (b = b') by lia. subst b'.
    f_equal. apply IH; [exact Ht' | simpl in Hlen; lia | exact Hr].
Qed.

Lemma bcd_to_int_valid_witness :
  0 <= bcd_to_int [0x19; 0x06] < 100 ^ len [0x19; 0x06].
Proof.
  apply (bcd_to_int_valid [0x19; 0x06] []).
  repeat constructor; vm_compute; congruence.
Defined.

End NumericCodecExtras.

Section HammingDistanceWitness.

Lemma hamming_distance_metric_witness :
  hamming_distance [0x11; 0x22] [0x11; 0x23] <= 8 * len [0x11; 0x22].
Proof.
  destruct (hamming_distance_metric [0x11; 0x22] [0x11; 0x23]) as (_ & _ & _ & H).
  apply H; repeat constructor; lia.
Defined.

End HammingDistanceWitness.

(* ===================================================================== *)
(** * Memo values and their symbols                                       *)
(* ===================================================================== *)

Section MemoSymbols.

Lemma valid_memo_cases v :
  valid_memo v ->
  v = 0 \/ v = 1 \/ v = 2 \/ v = 3 \/ v = 4 \/ v = 5 \/ v = 6 \/ v = 7 \/ v = 8
  \/ v = 10 \/ v = 11.
Proof. unfold valid_memo. lia. Qed.

Local Ltac each_memo H :=
  apply valid_memo_cases in H;
  repeat (destruct H as [H | H]; [subst|]); [..|subst].

(** A memo value that has a symbol gets a string of one character. *)
Lemma memo_value_to_char_single v :
  valid_memo v -> exists c, memo_value_to_char v = Returns (String c EmptyString).
Proof. intros Hv. each_memo Hv; eexists; vm_compute; reflexivity. Qed.

(** Different memo values get different symbols. *)
Lemma memo_value_to_char_inj v v' :
  valid_memo v -> memo_value_to_char v = memo_value_to_char v' -> v = v'.
Proof.
  intros Hv Heq.
  destruct (memo_value_to_char_cases v') as [[Hv' _] | [_ Hr]].
  - each_memo Hv; each_memo Hv';
      first [reflexivity | (vm_compute in Heq; discriminate Heq)].
  - rewrite Hr in Heq. each_memo Hv; vm_compute in Heq; discriminate Heq.
Qed.

(** X12. [memo_value_to_char] gives every memo value that has a symbol
    (0..8, 10, 11) a string of exactly one character, raises [ValueError]
    on every other value, and gives different values different symbols. *)
Theorem memo_value_to_char_symbols v v' :
  (valid_memo v -> exists c, memo_value_to_char v = Returns (String c EmptyString))
  /\ (~ valid_memo v -> memo_value_to_char v = Raises ValueError)
  /\ (valid_memo v -> memo_value_to_char v = memo_value_to_char v' -> v = v').
Proof.
  split; [|split].
  - apply memo_value_to_char_single.
  - intros Hv. unfold memo_value_to_char, valid_memo in *.
    destruct ((0 <=? v) && (v <=? 8)) eqn:E1.
    { apply andb_true_iff in E1. rewrite !Z.leb_le in E1. lia. }
    destruct (Z.eqb_spec v 10); [lia|].
    destruct (Z.eqb_spec v 11); [lia|].
    reflexivity.
  - apply memo_value_to_char_inj.
Qed.

Lemma memo_value_to_char_symbols_witness :
  (exists c, memo_value_to_char 10 = Returns (String c EmptyString))
  /\ memo_value_to_char 9 = Raises ValueError.
Proof.
  destruct (memo_value_to_char_symbols 10 10) as (H1 & _).
  destruct (memo_value_to_char_symbols 9 9) as (_ & H2 & _).
  split; [apply H1 | apply H2]; unfold valid_memo; lia.
Defined.

Lemma join_memo_cons_inv v t s :
  join_memo (v :: t) = Returns s ->
  exists c s', memo_value_to_char v = Returns (String c EmptyString)
               /\ join_memo t = Returns s' /\ s = String c s' /\ valid_memo v.
Proof.
  cbn [join_memo]. intros H.
  destruct (memo_value_to_char_cases v) as [[Hv _] | [_ Hr]];
    [|rewrite Hr in H; discriminate H].
  destruct (memo_value_to_char_single v Hv) as (c & Ec).
  rewrite Ec in H. cbn [Py.bind] in H.
  destruct (join_memo t) as [s'|]; cbn [Py.bind] in H; [|discriminate H].
  injection H as <-. exists c, s'. repeat split; auto.
Qed.

(** X13. The memo string of a monochrome pattern loses nothing: when
    [join_memo] returns a string, the string has one character for each
    memo value, every memo value has a symbol, and no other list of memo
    values gives the same string. *)
Theorem join_memo_injective memo memo' s :
  join_memo memo = Returns s ->
  String.length s = length memo
  /\ Forall valid_memo memo
  /\ (join_memo memo' = Returns s -> memo = memo').
Proof.
  revert memo' s. induction memo as [|v t IH]; intros memo' s H.
  - cbn [join_memo] in H. injection H as <-.
    split; [reflexivity|]. split; [constructor|].
    destruct memo' as [|v' t']; [reflexivity|].
    intros H'. apply join_memo_cons_inv in H'.
    destruct H' as (c & s' & _ & _ & E & _). discriminate E.
  - apply join_memo_cons_inv in H. destruct H as (c & s1 & Ec & Et & -> & Hv).
    destruct (IH [] s1 Et) as (Hlen & Hall & _).
    split; [cbn [String.length length]; congruence|].
    split; [constructor; assumption|].
    destruct memo' as [|v' t']; [cbn [join_memo]; discriminate|].
    intros H'. apply join_memo_cons_inv in H'.
    destruct H' as (c' & s1' & Ec' & Et' & E & Hv').
    injection E as <- <-.
    rewrite (memo_value_to_char_inj v v' Hv) by congruence.
    f_equal. destruct (IH t' s1 Et) as (_ & _ & Hrest). apply Hrest, Et'.
Qed.

Lemma join_memo_injective_witness :
  String.length "1N0F"%string = length [1; 10; 0; 11]
  /\ Forall valid_memo [1; 10; 0; 11].
Proof.
  destruct (join_memo_injective [1; 10; 0; 11] [] "1N0F"%string) as (H1 & H2 & _);
    [vm_compute; reflexivity|].
  split; assumption.
Defined.

End MemoSymbols.

(* ===================================================================== *)
(** * The memo array                                                      *)
(* ===================================================================== *)

Section MemoArray.

Lemma mapM_returns_inv {A B : Type} (f : A -> outcome B) (l : list A) (ys : list B) :
  mapM f l = Returns ys -> Forall2 (fun x y => f x = Returns y) l ys.
Proof.
  revert ys. induction l as [|x t IH]; intros ys; cbn [mapM].
  - intros H. injection H as <-. constructor.
  - destruct (f x) as [y|] eqn:E; cbn [Py.bind]; [|discriminate].
    destruct (mapM f t) as [zs|]; cbn [Py.bind]; [|discriminate].
    intros H. injection H as <-. constructor; [exact E | apply IH; reflexivity].
Qed.

Lemma Forall2_In_l {A B : Type} (P : A -> B -> Prop) (l : list A) (ys : list B) :
  Forall2 P l ys -> forall x, In x l -> exists y, P x y.
Proof.
  induction 1 as [|x y l ys Hxy _ IH]; intros z Hz; [destruct Hz|].
  destruct Hz as [<- | Hz]; [eauto | apply IH, Hz].
Qed.

Lemma mapM_returns_all {A B : Type} (f : A -> outcome B) (l : list A) :
  (forall x, In x l -> exists y, f x = Returns y) -> exists ys, mapM f l = Returns ys.
Proof.
  induction l as [|x t IH]; intros H; cbn [mapM]; [eauto|].
  destruct (H x (or_introl eq_refl)) as (y & Ey). rewrite Ey. cbn [Py.bind].
  destruct IH as (ys & Eys); [intros z Hz; apply H; now right|].
  rewrite Eys. cbn [Py.bind]. eauto.
Qed.

Lemma In_slice {A : Type} (l : list A) (a b : Z) (x : A) :
  In x (slice l a b) -> In x l.
Proof.
  unfold slice. intros H.
  set (n := Z.to_nat (clamp_index (len l) a)) in *.
  set (m := Z.to_nat _) in H.
  rewrite <- (firstn_skipn n l). apply in_or_app. right.
  rewrite <- (firstn_skipn m (skipn n l)). apply in_or_app. left. exact H.
Qed.

Lemma len_slice_le {A : Type} (l : list A) (a b : Z) :
  0 <= a -> len (slice l a b) <= Z.max 0 (len l - a).
Proof.
  intros Ha. unfold slice, clamp_index, len.
  replace (a <? 0) with false by (symmetry; apply Z.ltb_ge; lia).
  rewrite length_firstn, length_skipn. lia.
Qed.

Lemma half_rows height row :
  0 <= row < height -> 0 <= row / 2 < (height + 1) / 2.
Proof.
  intros H. split; [apply Z.div_pos; lia|].
  apply Z.div_lt_upper_bound; [lia|].
  pose proof (Z.div_mod (height + 1) 2 ltac:(lia)).
  pose proof (Z.mod_pos_bound (height + 1) 2 ltac:(lia)). lia.
Qed.

Lemma nibble_ranges b :
  0 <= Z.land b 0x0F <= 15 /\ (0 <= b < 256 -> 0 <= Z.shiftr b 4 <= 15).
Proof.
  split.
  - change (Z.land b 0x0F) with (Z.land b (Z.ones 4)). rewrite Z.land_ones by lia.
    change (2 ^ 4) with 16. pose proof (Z.mod_pos_bound b 16 ltac:(lia)). lia.
  - intros Hb. rewrite Z.shiftr_div_pow2 by lia. change (2 ^ 4) with 16.
    split; [apply Z.div_pos; lia|].
    assert (b / 16 < 16) by (apply Z.div_lt_upper_bound; lia). lia.
Qed.

(** X14. [parse_memo_data] returns one memo value for each row
    (none for a height that is not positive), each a nibble 0..15 when the
    ROM holds bytes; it returns whenever the memo array [offset,
    offset + ceil(height/2)) lies inside the ROM; the only error it can
    raise is [IndexError], and it does raise it when the ROM ends before
    the memo array of a pattern of positive height does. *)
Theorem parse_memo_data_shape rom offset height :
  (forall memo,
      parse_memo_data rom offset height = Returns memo ->
      len memo = Z.max 0 height
      /\ (Forall (fun b => 0 <= b < 256) rom -> Forall (fun v => 0 <= v <= 15) memo))
  /\ (0 <= offset -> offset + (height + 1) / 2 <= len rom ->
      exists memo, parse_memo_data rom offset height = Returns memo)
  /\ (forall e, parse_memo_data rom offset height = Raises e -> e = IndexError)
  /\ (0 <= offset -> 0 < height -> len rom < offset + (height + 1) / 2 ->
      parse_memo_data rom offset height = Raises IndexError).
Proof.
  split; [|split; [|split]].
  - intros memo H. split.
    + unfold parse_memo_data in H. apply mapM_length in H.
      pose proof (range_length 0 height) as Hl. unfold len in *. lia.
    + intros Hrom. unfold parse_memo_data in H. apply mapM_returns_inv in H.
      set (memo_data := slice rom offset (offset + (height + 1) / 2)) in H.
      induction H as [|row v rows vs Hv _ IH]; constructor; [|exact IH].
      unfold memo_of_row in Hv.
      destruct (getitem memo_data (row / 2)) as [b|] eqn:Eb; cbn [Py.bind] in Hv;
        [|discriminate Hv].
      assert (Hin : In b rom).
      { apply (In_slice rom offset (offset + (height + 1) / 2)).
        fold memo_data. unfold getitem in Eb.
        destruct (_ <? 0); [discriminate Eb|].
        destruct (nth_error memo_data _) as [b'|] eqn:En; [|discriminate Eb].
        injection Eb as ->. apply nth_error_In in En. exact En. }
      pose proof (proj1 (Forall_forall _ rom) Hrom b Hin) as Hb.
      destruct (nibble_ranges b) as [Hlo Hhi].
      destruct (row mod 2 =? 0); injection Hv as <-; [exact Hlo | apply Hhi, Hb].
  - intros Ho Hin. unfold parse_memo_data. apply mapM_returns_all.
    intros row Hrow. apply In_range in Hrow.
    pose proof (half_rows height row Hrow) as Hr2.
    unfold memo_of_row. rewrite getitem_nth_error by lia.
    destruct (nth_error _ (Z.to_nat (row / 2))) as [b|] eqn:E.
    + cbn [Py.bind]. destruct (row mod 2 =? 0); eauto.
    + apply nth_error_None in E.
      pose proof (len_slice_inside rom offset (offset + (height + 1) / 2)
                    Ho ltac:(lia) Hin) as Hlen.
      unfold len in Hlen. lia.
  - intros e. apply parse_memo_data_raises.
  - intros Ho Hh Hshort.
    destruct (parse_memo_data rom offset height) as [memo|e] eqn:E.
    + exfalso. unfold parse_memo_data in E. apply mapM_returns_inv in E.
      set (memo_data := slice rom offset (offset + (height + 1) / 2)) in E.
      assert (Hlast : In (height - 1) (range 0 height)) by (apply In_range; lia).
      assert (Hall : forall row, In row (range 0 height) ->
                                 exists v, memo_of_row memo_data row = Returns v).
      { intros row Hrow. apply (Forall2_In_l _ _ _ E row Hrow). }
      destruct (Hall _ Hlast) as (v & Hv). unfold memo_of_row in Hv.
      pose proof (half_rows height (height - 1) ltac:(lia)) as Hr2.
      rewrite getitem_nth_error in Hv by lia.
      destruct (nth_error memo_data _) as [b|] eqn:En; [|discriminate Hv].
      assert (Hlt : (Z.to_nat ((height - 1) / 2) < length memo_data)%nat)
        by (apply nth_error_Some; congruence).
      pose proof (len_slice_le rom offset (offset + (height + 1) / 2) Ho) as Hle.
      fold memo_data in Hle. unfold len in Hle, Hshort.
      assert (Hq : (height - 1) / 2 = (height + 1) / 2 - 1).
      { replace (height + 1) with (height - 1 + 1 * 2) by lia.
        rewrite Z.div_add by lia. lia. }
      lia.
    + f_equal. apply (parse_memo_data_raises rom offset height e E).
Qed.

Lemma parse_memo_data_shape_witness :
  (exists memo, parse_memo_data [0x21; 0x03; 0xFF] 0 3 = Returns memo)
  /\ parse_memo_data [0x21] 0 3 = Raises IndexError.
Proof.
  split.
  - apply (parse_memo_data_shape [0x21; 0x03; 0xFF] 0 3); vm_compute; congruence.
  - apply (parse_memo_data_shape [0x21] 0 3); vm_compute; congruence.
Defined.

End MemoArray.

(* ===================================================================== *)
(** * The monochrome decoder                                              *)
(* ===================================================================== *)

Section MonochromeGrid.

Lemma land_pow2 a n :
  0 <= n -> Z.land a (2 ^ n) = if Z.testbit a n then 2 ^ n else 0.
Proof.
  intros Hn. apply Z.bits_inj'. intros m Hm.
  rewrite Z.land_spec, Z.pow2_bits_eqb by lia.
  destruct (Z.eqb_spec n m) as [<- | Hne].
  - destruct (Z.testbit a n); [|now rewrite Z.bits_0].
    rewrite Z.pow2_bits_eqb, Z.eqb_refl by lia. reflexivity.
  - rewrite andb_false_r. destruct (Z.testbit a n); [|now rewrite Z.bits_0].
    rewrite Z.pow2_bits_eqb by lia. symmetry. apply Z.eqb_neq. exact Hne.
Qed.

(** The pixel of a byte at a bit is 1 exactly when that bit is set. *)
Lemma pixel_of_testbit byte bit :
  0 <= bit -> pixel_of byte bit = if Z.testbit byte bit then 1 else 0.
Proof.
  intros Hb. unfold pixel_of. rewrite Z.shiftl_1_l, land_pow2 by lia.
  destruct (Z.testbit byte bit); [|reflexivity].
  assert (0 < 2 ^ bit) by (apply Z.pow_pos_nonneg; lia).
  destruct (Z.eqb_spec (2 ^ bit) 0); [lia | reflexivity].
Qed.

Lemma pixel_of_binary byte bit : pixel_of byte bit = 0 \/ pixel_of byte bit = 1.
Proof. unfold pixel_of. destruct (_ =? 0); auto. Qed.

Lemma nth_map_range {B : Type} (f : Z -> B) (n i : Z) (d : B) :
  0 <= i < n -> nth (Z.to_nat i) (map f (range 0 n)) d = f i.
Proof.
  intros H. apply nth_error_nth. rewrite nth_error_map.
  replace (Z.to_nat i) with (Z.to_nat (i - 0)) by lia.
  rewrite nth_error_range by lia. reflexivity.
Qed.

(** X15. [decode_monochrome_bitmap] returns one row for each source row,
    never more pixels in a row than the width, and only pixels 0 and 1,
    whatever the ROM holds; for a pattern that lies inside the ROM every
    row has exactly [width] pixels, and the pixel of row [row] at column
    [x] is 1 exactly when bit [x mod 8] (least significant bit first) of
    byte [x / 8] of that row is set. *)
Theorem decode_monochrome_bitmap_grid rom p :
  0 <= p_width p ->
  (len (decode_monochrome_bitmap rom (p_width p) (p_height p) (bitmap_offset_of p))
   = Z.max 0 (p_height p)
   /\ Forall (fun r => len r <= p_width p /\ Forall (fun v => v = 0 \/ v = 1) r)
        (decode_monochrome_bitmap rom (p_width p) (p_height p) (bitmap_offset_of p)))
  /\ (pattern_in_rom rom p ->
      forall row x, 0 <= row < p_height p -> 0 <= x < p_width p ->
        exists r,
          getitem (decode_monochrome_bitmap rom (p_width p) (p_height p)
                     (bitmap_offset_of p)) row = Returns r
          /\ len r = p_width p
          /\ getitem r x =
             Returns (if Z.testbit
                           (rom_byte rom (bitmap_offset_of p + row * row_bytes_of p + x / 8))
                           (x mod 8)
                      then 1 else 0)).
Proof.
  intros Hw. split; [split|].
  - unfold decode_monochrome_bitmap. rewrite len_map, range_length. lia.
  - apply Forall_forall. intros r Hr. unfold decode_monochrome_bitmap in Hr.
    apply in_map_iff in Hr. destruct Hr as (row & <- & _).
    split; [apply decode_row_length, Hw|].
    unfold decode_row, enumerate. rewrite row_pixels_spec by lia.
    apply Forall_forall. intros v Hv. apply in_map_iff in Hv.
    destruct Hv as (x & <- & _). apply pixel_of_binary.
  - intros Hin row x Hrow Hx. rewrite (decode_monochrome_bitmap_spec rom p Hin).
    exists (map (mono_bit rom p row) (range 0 (p_width p))).
    split;
      [apply (getitem_map_range
                (fun row => map (mono_bit rom p row) (range 0 (p_width p)))
                (p_height p) row Hrow)|].
    split; [rewrite len_map, range_length; lia|].
    rewrite getitem_map_range by exact Hx. f_equal.
    unfold mono_bit. apply pixel_of_testbit.
    apply Z.mod_pos_bound. lia.
Qed.

End MonochromeGrid.

Section MonochromeImage.

Lemma length_set_nth {A : Type} (l : list A) (n : nat) (v : A) :
  length (set_nth l n v) = length l.
Proof.
  revert n. induction l as [|h t IH]; intros [|n]; cbn [set_nth length]; auto.
Qed.

Lemma nth_error_set_nth {A : Type} (l : list A) (n m : nat) (v : A) :
  (n < length l)%nat ->
  nth_error (set_nth l n v) m = if (m =? n)%nat then Some v else nth_error l m.
Proof.
  revert n m. induction l as [|h t IH]; intros n m Hn; cbn [length] in Hn; [lia|].
  destruct n as [|n], m as [|m]; cbn [set_nth nth_error Nat.eqb]; try reflexivity.
  apply IH. lia.
Qed.

Local Abbreviation inv := (fun value : Z => if value =? 0 then 1 else 0).

Local Abbreviation same_frame img' img :=
  (img_width img' = img_width img /\ img_height img' = img_height img
   /\ len (img_data img') = img_width img * img_height img
   /\ img_mode img' = img_mode img /\ img_comment img' = img_comment img).

(** One [putpixel] inside the image changes that pixel and no other. *)
Lemma putpixel_spec img x y v :
  len (img_data img) = img_width img * img_height img ->
  0 <= x < img_width img -> 0 <= y < img_height img ->
  exists img',
    putpixel img x y v = Returns img'
    /\ same_frame img' img
    /\ forall x' y',
        getpixel img' x' y' =
        if (x' =? x) && (y' =? y) then Some v else getpixel img x' y'.
Proof.
  intros Hlen Hx Hy. unfold putpixel.
  replace ((0 <=? x) && (x <? img_width img) && (0 <=? y) && (y <? img_height img))
    with true
    by (symmetry; rewrite !andb_true_iff, !Z.leb_le, !Z.ltb_lt; lia).
  eexists. split; [reflexivity|]. cbn [img_width img_height img_data img_mode img_comment].
  split.
  { repeat split; try reflexivity. unfold len in *. rewrite length_set_nth. exact Hlen. }
  intros x' y'. unfold getpixel. cbn [img_width img_height img_data].
  destruct ((0 <=? x') && (x' <? img_width img) && (0 <=? y') && (y' <? img_height img))
    eqn:E.
  - rewrite !andb_true_iff, !Z.leb_le, !Z.ltb_lt in E.
    assert (Hy0 : 0 <= y * img_width img) by nia.
    assert (Hy0' : 0 <= y' * img_width img) by nia.
    assert (Hin : y * img_width img + x < img_width img * img_height img) by nia.
    rewrite nth_error_set_nth by (unfold len in Hlen; lia).
    destruct (Z.eqb_spec x' x) as [-> | Hne]; cbn [andb].
    + destruct (Z.eqb_spec y' y) as [-> | Hne].
      * rewrite Nat.eqb_refl. reflexivity.
      * replace (_ =? _)%nat with false; [reflexivity|].
        symmetry. apply Nat.eqb_neq.
        assert (y' * img_width img <> y * img_width img) by nia. lia.
    + replace (_ =? _)%nat with false; [reflexivity|].
      symmetry. apply Nat.eqb_neq.
      assert (y' * img_width img + x' <> y * img_width img + x).
      { destruct (Z.eq_dec y' y) as [-> | Hy']; [lia|].
        destruct (Z_lt_le_dec y' y); nia. }
      lia.
  - destruct (Z.eqb_spec x' x) as [-> | Hne]; cbn [andb]; [|reflexivity].
    destruct (Z.eqb_spec y' y) as [-> | Hne]; [|reflexivity].
    exfalso. apply not_true_iff_false in E. apply E.
    rewrite !andb_true_iff, !Z.leb_le, !Z.ltb_lt. lia.
Qed.

(** One row of the loop writes the inverted values of the row at the
    columns it covers and leaves every other pixel as it was. *)
Lemma put_row_spec :
  forall (row : list Z) (k : Z) (img : image) (y : Z),
    len (img_data img) = img_width img * img_height img ->
    0 <= k -> k + len row <= img_width img -> 0 <= y < img_height img ->
    exists img',
      put_row img y (enumerate_from k row) = Returns img'
      /\ same_frame img' img
      /\ forall x' y',
          getpixel img' x' y' =
          if (y' =? y) && (k <=? x') && (x' <? k + len row)
          then Some (inv (nth (Z.to_nat (x' - k)) row 0))
          else getpixel img x' y'.
Proof.
  induction row as [|v t IH]; intros k img y Hlen Hk Hw Hy; cbn [enumerate_from put_row].
  - exists img. split; [reflexivity|]. split; [repeat split; assumption|].
    intros x' y'. unfold len. cbn [length].
    replace ((y' =? y) && (k <=? x') && (x' <? k + Z.of_nat 0)) with false; [reflexivity|].
    symmetry. apply not_true_iff_false.
    rewrite !andb_true_iff, !Z.leb_le, !Z.ltb_lt. lia.
  - rewrite len_cons in *. pose proof (len_nonneg t) as Ht.
    destruct (putpixel_spec img k y (inv v) Hlen ltac:(lia) Hy)
      as (img1 & E1 & (W1 & H1 & L1 & M1 & C1) & G1).
    rewrite E1. cbn [Py.bind].
    destruct (IH (k + 1) img1 y) as (img' & E2 & (W2 & H2 & L2 & M2 & C2) & G2);
      try (rewrite ?W1, ?H1; lia).
    exists img'. split; [exact E2|].
    split; [repeat split; congruence|].
    intros x' y'. rewrite G2, G1.
    destruct (Z.eqb_spec y' y) as [-> | Hne]; cbn [andb];
      [|rewrite andb_false_r; reflexivity].
    rewrite andb_true_r.
    destruct (Z.leb_spec (k + 1) x'), (Z.ltb_spec x' (k + 1 + len t)),
      (Z.leb_spec k x'), (Z.ltb_spec x' (k + (1 + len t))), (Z.eqb_spec x' k);
      cbn [andb]; try lia; try reflexivity.
    + replace (Z.to_nat (x' - k)) with (S (Z.to_nat (x' - (k + 1)))) by lia.
      reflexivity.
    + subst x'. replace (Z.to_nat (k - k)) with O by lia. reflexivity.
Qed.

(** The rows of the loop, numbered from [k]: pixel (x, y) of the image
    holds the inverted value of column x of row y - k. *)
Lemma put_rows_spec :
  forall (rows : list (list Z)) (k : Z) (img : image),
    len (img_data img) = img_width img * img_height img ->
    0 <= k -> k + len rows <= img_height img ->
    Forall (fun row => len row <= img_width img) rows ->
    exists img',
      put_rows img (enumerate_from k rows) = Returns img'
      /\ same_frame img' img
      /\ forall x' y',
          getpixel img' x' y' =
          if (k <=? y') && (y' <? k + len rows) && (0 <=? x')
             && (x' <? len (nth (Z.to_nat (y' - k)) rows []))
          then Some (inv (nth (Z.to_nat x') (nth (Z.to_nat (y' - k)) rows []) 0))
          else getpixel img x' y'.
Proof.
  induction rows as [|row t IH]; intros k img Hlen Hk Hh Hall;
    cbn [enumerate_from put_rows].
  - exists img. split; [reflexivity|]. split; [repeat split; assumption|].
    intros x' y'. unfold len at 1. cbn [length].
    replace ((k <=? y') && (y' <? k + Z.of_nat 0)) with false; [reflexivity|].
    symmetry. apply not_true_iff_false.
    rewrite !andb_true_iff, !Z.leb_le, !Z.ltb_lt. lia.
  - rewrite len_cons in *. pose proof (len_nonneg t) as Ht.
    inversion Hall as [|? ? Hrow Hrest]; subst.
    destruct (put_row_spec row 0 img k Hlen ltac:(lia) ltac:(lia) ltac:(lia))
      as (img1 & E1 & (W1 & H1 & L1 & M1 & C1) & G1).
    unfold enumerate. rewrite E1. cbn [Py.bind].
    destruct (IH (k + 1) img1) as (img' & E2 & (W2 & H2 & L2 & M2 & C2) & G2);
      try (rewrite ?W1, ?H1; first [lia | assumption]).
    exists img'. split; [exact E2|].
    split; [repeat split; congruence|].
    intros x' y'. rewrite G2, G1.
    destruct (Z.eqb_spec y' k) as [-> | Hne].
    + replace ((k + 1 <=? k)) with false by (symmetry; apply Z.leb_gt; lia).
      cbn [andb]. replace (Z.to_nat (k - k)) with O by lia. cbn [nth].
      replace (k <=? k) with true by (symmetry; apply Z.leb_le; lia).
      replace (k <? k + (1 + len t)) with true by (symmetry; apply Z.ltb_lt; lia).
      cbn [andb]. replace (0 + len row) with (len row) by lia.
      replace (x' - 0) with x' by lia. reflexivity.
    + cbn [andb].
      destruct (Z.leb_spec (k + 1) y'), (Z.ltb_spec y' (k + 1 + len t)),
        (Z.leb_spec k y'), (Z.ltb_spec y' (k + (1 + len t)));
        cbn [andb]; try lia; try reflexivity.
      replace (Z.to_nat (y' - k)) with (S (Z.to_nat (y' - (k + 1)))) by lia.
      reflexivity.
Qed.

Lemma join_memo_valid memo :
  Forall valid_memo memo -> exists s, join_memo memo = Returns s.
Proof.
  induction 1 as [|v t Hv _ (s & Es)]; cbn [join_memo]; [eauto|].
  destruct (memo_value_to_char_cases v) as [[_ (c & Ec)] | [Hn _]]; [|contradiction].
  rewrite Ec, Es. cbn [Py.bind]. eauto.
Qed.

(** A monochrome pattern that lies inside the ROM and whose memo values
    all have a symbol decodes. *)
Lemma extract_monochrome_returns rom p :
  pattern_in_rom rom p ->
  (forall row, 0 <= row < p_height p -> valid_memo (memo_value rom p row)) ->
  exists img, extract_monochrome_bitmap rom p = ([], Returns img).
Proof.
  intros Hin Hvalid. pose proof Hin as (Ho & Hw & Hh & _).
  unfold extract_monochrome_bitmap.
  rewrite (parse_memo_data_spec rom p Hin).
  destruct (monochrome_pixels_ok rom (p_width p) (p_height p)
              (p_offset p + (p_height p + 1) / 2) Hw Hh) as (img & Himg).
  rewrite Himg.
  destruct (any _); [|eauto].
  destruct (join_memo_valid (map (memo_value rom p) (range 0 (p_height p))))
    as (s & Es).
  { apply Forall_forall. intros v Hv. apply in_map_iff in Hv.
    destruct Hv as (row & <- & Hr). apply In_range in Hr. apply Hvalid, Hr. }
  rewrite Es. eauto.
Qed.

(** The image the decoder draws, before the comment is attached: source
    row [row] is image row [height - 1 - row], and a pixel is 0 exactly
    where the ROM bit is set. *)
Lemma monochrome_canvas rom p :
  pattern_in_rom rom p ->
  exists img,
    (img0 <- Image_new Mode1 (p_width p) (p_height p) ;;
     put_rows img0
       (enumerate (rev (decode_monochrome_bitmap rom (p_width p) (p_height p)
                          (p_offset p + (p_height p + 1) / 2)))))
    = Returns img
    /\ img_mode img = Mode1
    /\ img_width img = p_width p /\ img_height img = p_height p
    /\ img_comment img = None
    /\ (forall row x, 0 <= row < p_height p -> 0 <= x < p_width p ->
          getpixel img x (p_height p - 1 - row) =
          Some (if Z.testbit
                     (rom_byte rom (bitmap_offset_of p + row * row_bytes_of p + x / 8))
                     (x mod 8)
                then 0 else 1)).
Proof.
  intros Hin. pose proof Hin as (Ho & Hw & Hh & _).
  fold (bitmap_offset_of p). rewrite (decode_monochrome_bitmap_spec rom p Hin).
  set (pixels := map (fun row => map (mono_bit rom p row) (range 0 (p_width p)))
                   (range 0 (p_height p))).
  assert (Hpl : length pixels = Z.to_nat (p_height p)).
  { unfold pixels. rewrite length_map.
    pose proof (range_length 0 (p_height p)) as Hl. unfold len in Hl. lia. }
  unfold Image_new.
  replace ((p_width p <? 0) || (p_height p <? 0)) with false
    by (symmetry; apply orb_false_iff; rewrite !Z.ltb_ge; lia).
  cbn [Py.bind]. unfold enumerate.
  match goal with |- context [put_rows ?i (enumerate_from 0 ?rows)] =>
    destruct (put_rows_spec rows 0 i) as (img & E & (W & H & L & M & C) & G) end.
  { cbn [img_data img_width img_height]. unfold len. rewrite repeat_length. nia. }
  { lia. }
  { cbn [img_height]. unfold len. rewrite length_rev. lia. }
  { cbn [img_width]. apply Forall_forall. intros r Hr. apply in_rev in Hr.
    unfold pixels in Hr. apply in_map_iff in Hr. destruct Hr as (row & <- & _).
    rewrite len_map, range_length. lia. }
  cbn [img_width img_height img_mode img_comment img_data] in *.
  exists img. split; [exact E|].
  split; [exact M|]. split; [exact W|]. split; [exact H|]. split; [exact C|].
  intros row x Hrow Hx. rewrite G.
  assert (Hnth : nth (Z.to_nat (p_height p - 1 - row - 0)) (rev pixels) []
                 = map (mono_bit rom p row) (range 0 (p_width p))).
  { rewrite rev_nth by lia. rewrite Hpl.
    replace (Z.to_nat (p_height p) - S (Z.to_nat (p_height p - 1 - row - 0)))%nat
      with (Z.to_nat row) by lia.
    unfold pixels.
    apply (nth_map_range (fun row => map (mono_bit rom p row) (range 0 (p_width p)))
             (p_height p) row [] Hrow). }
  rewrite Hnth. rewrite len_map, range_length.
  unfold len. rewrite length_rev, Hpl.
  replace ((0 <=? p_height p - 1 - row)
           && (p_height p - 1 - row <? 0 + Z.of_nat (Z.to_nat (p_height p)))
           && (0 <=? x) && (x <? Z.max 0 (p_width p - 0))) with true
    by (symmetry; rewrite !andb_true_iff, !Z.leb_le, !Z.ltb_lt; lia).
  rewrite (nth_map_range _ (p_width p) x 0 Hx).
  unfold mono_bit. rewrite pixel_of_testbit by (apply Z.mod_pos_bound; lia).
  destruct (Z.testbit _ _); reflexivity.
Qed.

(** The image of a monochrome pattern whose memo values all have a
    symbol. *)
Lemma extract_monochrome_pixels rom p :
  pattern_in_rom rom p ->
  (forall row, 0 <= row < p_height p -> valid_memo (memo_value rom p row)) ->
  exists img,
    extract_monochrome_bitmap rom p = ([], Returns img)
    /\ img_width img = p_width p /\ img_height img = p_height p
    /\ (forall row x, 0 <= row < p_height p -> 0 <= x < p_width p ->
          getpixel img x (p_height p - 1 - row) =
          Some (if Z.testbit
                     (rom_byte rom (bitmap_offset_of p + row * row_bytes_of p + x / 8))
                     (x mod 8)
                then 0 else 1)).
Proof.
  intros Hin Hvalid.
  destruct (monochrome_canvas rom p Hin) as (img & E & M & W & H & C & Hpix).
  unfold extract_monochrome_bitmap.
  rewrite (parse_memo_data_spec rom p Hin), E.
  destruct (any _); [|exists img; auto].
  destruct (join_memo_valid (map (memo_value rom p) (range 0 (p_height p))))
    as (s & Es).
  { apply Forall_forall. intros v Hv. apply in_map_iff in Hv.
    destruct Hv as (row & <- & Hr). apply In_range in Hr. apply Hvalid, Hr. }
  rewrite Es. exists (set_comment img ("AYAB:" ++ s)%string).
  split; [reflexivity|]. split; [exact W|]. split; [exact H|]. exact Hpix.
Qed.

(** X16. A monochrome pattern that lies inside the ROM and whose memo
    values all have a symbol is decoded without an error and without a
    message, into a 1-bit image of the pattern's width and height: source
    row [row] is image row [height - 1 - row] (the bitmap is stored bottom
    row first), and a pixel is 0 (black) exactly where the ROM bit is set.
    The image has no comment when every memo value is 0, and otherwise the
    comment AYAB: followed by the symbols of the memo values. *)
Theorem extract_monochrome_image rom p :
  pattern_in_rom rom p ->
  (forall row, 0 <= row < p_height p -> valid_memo (memo_value rom p row)) ->
  exists img,
    extract_monochrome_bitmap rom p = ([], Returns img)
    /\ img_mode img = Mode1
    /\ img_width img = p_width p /\ img_height img = p_height p
    /\ (forall row x, 0 <= row < p_height p -> 0 <= x < p_width p ->
          getpixel img x (p_height p - 1 - row) =
          Some (if Z.testbit
                     (rom_byte rom (bitmap_offset_of p + row * row_bytes_of p + x / 8))
                     (x mod 8)
                then 0 else 1))
    /\ ((forall row, 0 <= row < p_height p -> memo_value rom p row = 0) ->
        img_comment img = None)
    /\ ((exists row, 0 <= row < p_height p /\ memo_value rom p row <> 0) ->
        exists s,
          join_memo (map (memo_value rom p) (range 0 (p_height p))) = Returns s
          /\ img_comment img = Some ("AYAB:" ++ s)%string).
Proof.
  intros Hin Hvalid.
  destruct (monochrome_canvas rom p Hin) as (img & E & M & W & H & C & Hpix).
  unfold extract_monochrome_bitmap.
  rewrite (parse_memo_data_spec rom p Hin), E.
  set (memo := map (memo_value rom p) (range 0 (p_height p))).
  destruct (any memo) eqn:Eany.
  - assert (Hall : Forall valid_memo memo).
    { apply Forall_forall. intros v Hv. unfold memo in Hv. apply in_map_iff in Hv.
      destruct Hv as (row & <- & Hr). apply In_range in Hr. apply Hvalid, Hr. }
    destruct (join_memo_valid memo Hall) as (s & Es). rewrite Es.
    exists (set_comment img ("AYAB:" ++ s)%string).
    split; [reflexivity|].
    cbn [set_comment img_mode img_width img_height img_comment].
    split; [exact M|]. split; [exact W|]. split; [exact H|].
    split; [exact Hpix|]. split.
    + intros Hzero. exfalso. unfold any in Eany. apply existsb_exists in Eany.
      destruct Eany as (v & Hv & Hnz). unfold memo in Hv. apply in_map_iff in Hv.
      destruct Hv as (row & <- & Hr). apply In_range in Hr.
      rewrite (Hzero row Hr) in Hnz. discriminate Hnz.
    + intros _. exists s. split; reflexivity.
  - exists img. split; [reflexivity|].
    split; [exact M|]. split; [exact W|]. split; [exact H|].
    split; [exact Hpix|]. split.
    + intros _. exact C.
    + intros (row & Hr & Hnz). exfalso.
      apply not_true_iff_false in Eany. apply Eany. unfold any.
      apply existsb_exists. exists (memo_value rom p row). split.
      * unfold memo. apply in_map. apply In_range. exact Hr.
      * apply negb_true_iff, Z.eqb_neq. exact Hnz.
Qed.

End MonochromeImage.

Section MonochromeWitnesses.

Lemma memo_pattern_2_in_rom : pattern_in_rom memo_rom memo_pattern_2.
Proof. repeat split; vm_compute; congruence. Qed.

Lemma decode_monochrome_bitmap_grid_witness :
  len (decode_monochrome_bitmap memo_rom (p_width memo_pattern_2)
         (p_height memo_pattern_2) (bitmap_offset_of memo_pattern_2))
  = Z.max 0 (p_height memo_pattern_2)
  /\ exists r,
      getitem (decode_monochrome_bitmap memo_rom (p_width memo_pattern_2)
                 (p_height memo_pattern_2) (bitmap_offset_of memo_pattern_2)) 1
      = Returns r
      /\ len r = p_width memo_pattern_2.
Proof.
  destruct (decode_monochrome_bitmap_grid memo_rom memo_pattern_2) as ((H1 & _) & H2);
    [vm_compute; congruence|].
  split; [exact H1|].
  destruct (H2 memo_pattern_2_in_rom 1 4) as (r & Hr & Hl & _);
    [vm_compute; split; congruence | vm_compute; split; congruence|].
  exists r. split; assumption.
Defined.

Lemma extract_monochrome_image_witness :
  exists img,
    extract_monochrome_bitmap memo_rom memo_pattern_2 = ([], Returns img)
    /\ img_mode img = Mode1
    /\ getpixel img 0 (p_height memo_pattern_2 - 1 - 0) = Some 0
    /\ img_comment img = None.
Proof.
  destruct (extract_monochrome_image memo_rom memo_pattern_2)
    as (img & E & M & _ & _ & P & C & _).
  - exact memo_pattern_2_in_rom.
  - intros row Hrow. change (p_height memo_pattern_2) with 2 in Hrow.
    assert (Hc : row = 0 \/ row = 1) by lia.
    destruct Hc as [-> | ->]; left; vm_compute; split; congruence.
  - exists img. split; [exact E|]. split; [exact M|]. split.
    + apply (P 0 0); vm_compute; split; congruence.
    + apply C. intros row Hrow. change (p_height memo_pattern_2) with 2 in Hrow.
      assert (Hc : row = 0 \/ row = 1) by lia.
      destruct Hc as [-> | ->]; reflexivity.
Defined.

End MonochromeWitnesses.

(* ===================================================================== *)
(** * The index table                                                     *)
(* ===================================================================== *)

Section IndexTable.

Lemma slice_as_map (l : bytes) (a b : Z) :
  0 <= a -> a <= b -> b <= len l -> slice l a b = map (rom_byte l) (range a b).
Proof.
  intros Ha Hab Hb. apply (nth_ext _ _ 0 0).
  - pose proof (len_slice_inside l a b Ha Hab Hb) as H1.
    pose proof (range_length a b) as H2. unfold len in H1, H2.
    rewrite length_map. lia.
  - intros n Hn.
    pose proof (len_slice_inside l a b Ha Hab Hb) as H1. unfold len in H1.
    assert (Hj : exists j, 0 <= j < b - a /\ n = Z.to_nat j)
      by (exists (Z.of_nat n); lia).
    destruct Hj as (j & Hj & ->).
    rewrite nth_slice_inside by lia.
    symmetry. apply nth_error_nth. rewrite nth_error_map.
    replace (Z.to_nat j) with (Z.to_nat (a + j - a)) by lia.
    rewrite nth_error_range by lia. reflexivity.
Qed.

Lemma slice_record (rom : bytes) (a : Z) :
  0 <= a -> a + 12 <= len rom ->
  slice rom a (a + 12) =
  [rom_byte rom (a + 0); rom_byte rom (a + 1); rom_byte rom (a + 2);
   rom_byte rom (a + 3); rom_byte rom (a + 4); rom_byte rom (a + 5);
   rom_byte rom (a + 6); rom_byte rom (a + 7); rom_byte rom (a + 8);
   rom_byte rom (a + 9); rom_byte rom (a + 10); rom_byte rom (a + 11)].
Proof.
  intros Ha Hb. rewrite slice_as_map by lia.
  rewrite !range_cons by lia. rewrite range_empty by lia.
  cbn [map]. repeat (f_equal; try lia).
Qed.

Lemma record_fields (b0 b1 b2 b3 b4 b5 b6 b7 b8 b9 b10 b11 : Z) :
  let record := [b0; b1; b2; b3; b4; b5; b6; b7; b8; b9; b10; b11] in
  slice record 0 2 = [b0; b1] /\ getitem record 0 = Returns b0
  /\ slice record 2 4 = [b2; b3] /\ slice record 4 6 = [b4; b5]
  /\ slice record 6 8 = [b6; b7] /\ slice record 9 12 = [b9; b10; b11].
Proof. repeat split; reflexivity. Qed.

Lemma valid_header (b0 b1 : Z) :
  existsb (bytes_eqb [b0; b1]) VALID_HEADERS = ((b0 =? 2) || (b0 =? 3)) && (b1 =? 0).
Proof.
  unfold VALID_HEADERS, bytes_eqb. cbn [existsb].
  destruct (Z.eqb_spec b0 2), (Z.eqb_spec b0 3), (Z.eqb_spec b1 0);
    repeat match goal with |- context [list_eq_dec ?d ?x ?y] =>
      destruct (list_eq_dec d x y) end;
    cbn [orb andb]; congruence.
Qed.

Lemma decode_pattern_offset_bytes b0 b1 b2 :
  0 <= b1 < 256 -> 0 <= b2 < 256 ->
  decode_pattern_offset [b0; b1; b2] = Returns (b0 * 65536 + b2 * 256 + b1).
Proof.
  intros H1 H2.
  change (decode_pattern_offset [b0; b1; b2])
    with (Returns (Z.lor (Z.lor (Z.shiftl b0 16) (Z.shiftl b2 8)) b1)).
  f_equal.
  replace (Z.shiftl b0 16) with (Z.shiftl (Z.shiftl b0 8) 8)
    by (rewrite Z.shiftl_shiftl by lia; reflexivity).
  rewrite <- Z.shiftl_lor.
  rewrite (lor_shiftl_small b0 b2 8) by (simpl; lia).
  rewrite (lor_shiftl_small _ b1 8) by (simpl; lia).
  change (2 ^ 8) with 256. lia.
Qed.

Lemma rom_byte_range (rom : bytes) (i : Z) :
  Forall (fun b => 0 <= b < 256) rom -> 0 <= rom_byte rom i < 256.
Proof.
  intros Hrom. unfold rom_byte.
  destruct (Nat.lt_ge_cases (Z.to_nat i) (length rom)) as [Hlt | Hge].
  - apply (proj1 (Forall_forall _ rom) Hrom). apply nth_In. exact Hlt.
  - rewrite nth_overflow by exact Hge. lia.
Qed.

Lemma read_records_spec (rom : bytes) :
  0x50000 + PATTERN_COUNT * PATTERN_RECORD_SIZE <= len rom ->
  Forall (fun b => 0 <= b < 256) rom ->
  forall indices acc,
    Forall (fun i => 0 <= i < PATTERN_COUNT) indices ->
    read_records rom 0x50000 indices acc =
    Returns (acc ++ map (slot_pattern rom) (filter (listed rom) indices)).
Proof.
  intros Hlen Hrom. unfold PATTERN_COUNT, PATTERN_RECORD_SIZE in *.
  induction indices as [|i rest IH]; intros acc Hall; cbn [read_records filter map].
  - rewrite app_nil_r. reflexivity.
  - inversion Hall as [|? ? Hi Hrest]; subst.
    unfold PATTERN_RECORD_SIZE.
    replace (0x50000 + (i + 1) * 12) with (0x50000 + i * 12 + 12) by lia.
    rewrite slice_record by lia. fold (slot_base i).
    match goal with |- context [existsb _ _] =>
      match goal with |- context [slice ?r 0 2] =>
        match r with
        | [?b0; ?b1; ?b2; ?b3; ?b4; ?b5; ?b6; ?b7; ?b8; ?b9; ?b10; ?b11] =>
            destruct (record_fields b0 b1 b2 b3 b4 b5 b6 b7 b8 b9 b10 b11)
              as (F1 & F2 & F3 & F4 & F5 & F6)
        end
      end
    end.
    cbv zeta in F1, F2, F3, F4, F5, F6.
    rewrite F1, F2, F3, F4, F5, F6, valid_header.
    replace (slot_base i + 0) with (slot_base i) by lia.
    fold (listed rom i).
    destruct (listed rom i); [|apply IH, Hrest].
    cbn [Py.bind].
    rewrite decode_pattern_offset_bytes by (apply rom_byte_range, Hrom).
    cbn [Py.bind]. rewrite IH by exact Hrest.
    rewrite <- app_assoc. cbn [map app]. do 3 f_equal.
    unfold slot_pattern. replace (slot_base i + 0) with (slot_base i) by lia.
    reflexivity.
Qed.

Lemma length_filter_le {A : Type} (f : A -> bool) (l : list A) :
  (length (filter f l) <= length l)%nat.
Proof.
  induction l as [|x t IH]; cbn [filter length]; [lia|].
  destruct (f x); cbn [length]; lia.
Qed.

Lemma read_records_short (rom : bytes) :
  len rom < 0x50002 ->
  forall indices acc,
    Forall (fun i => 0 <= i) indices ->
    read_records rom 0x50000 indices acc = Returns acc.
Proof.
  intros Hlen. induction indices as [|i rest IH]; intros acc Hall;
    cbn [read_records]; [reflexivity|].
  inversion Hall as [|? ? Hi Hrest]; subst.
  set (record := slice rom _ _).
  assert (Hrec : len record <= 1).
  { unfold record, PATTERN_RECORD_SIZE.
    pose proof (len_slice_le rom (0x50000 + i * 12) (0x50000 + (i + 1) * 12)
                  ltac:(lia)). lia. }
  assert (Hhead : len (slice record 0 2) <= 1).
  { pose proof (len_slice_le record 0 2 ltac:(lia)). lia. }
  replace (existsb (bytes_eqb (slice record 0 2)) VALID_HEADERS) with false;
    [apply IH, Hrest|].
  symmetry. unfold VALID_HEADERS, bytes_eqb. cbn [existsb].
  repeat match goal with |- context [list_eq_dec ?d ?x ?y] =>
    destruct (list_eq_dec d x y) as [E | E];
      [rewrite E in Hhead; unfold len in Hhead; cbn [length] in Hhead; lia
      |clear E] end.
  reflexivity.
Qed.

(** X17. On a ROM that holds the whole index table (683 records of 12
    bytes from 0x50000 on), [read_pattern_index] returns, in the order of
    the table, the descriptor of every record whose header is 02 00 or
    03 00 and of no other: type = byte 0, number, width and height = the
    BCD fields at bytes 2-3, 4-5 and 6-7, offset = byte 9 * 65536 +
    byte 11 * 256 + byte 10. So it lists at most 683 patterns, each of
    type 2 or 3. On a ROM that ends before 0x50002 it returns the empty
    list without an error. *)
Theorem read_pattern_index_table rom :
  Forall (fun b => 0 <= b < 256) rom ->
  (0x50000 + 683 * 12 <= len rom ->
   exists ps,
     read_pattern_index rom = Returns ps
     /\ ps = map (slot_pattern rom) (filter (listed rom) (range 0 683))
     /\ len ps <= 683
     /\ Forall (fun p => p_type p = 2 \/ p_type p = 3) ps)
  /\ (len rom < 0x50002 -> read_pattern_index rom = Returns []).
Proof.
  intros Hrom. split.
  - intros Hlen. eexists. split; [|split; [reflexivity|split]].
    + unfold read_pattern_index.
      rewrite (read_records_spec rom Hlen Hrom).
      * reflexivity.
      * apply Forall_forall. intros i Hi. apply In_range in Hi. exact Hi.
    + unfold len. rewrite length_map.
      pose proof (length_filter_le (listed rom) (range 0 683)) as H1.
      pose proof (range_length 0 683) as H2. unfold len in H2. lia.
    + apply Forall_forall. intros p Hp. apply in_map_iff in Hp.
      destruct Hp as (i & <- & Hi). apply filter_In in Hi. destruct Hi as [_ Hi].
      unfold listed in Hi. apply andb_true_iff in Hi. destruct Hi as [Hi _].
      apply orb_true_iff in Hi. cbn [slot_pattern p_type].
      replace (slot_base i + 0) with (slot_base i) by lia.
      destruct Hi as [Hi | Hi]; apply Z.eqb_eq in Hi; auto.
  - intros Hshort. unfold read_pattern_index.
    apply (read_records_short rom Hshort).
    apply Forall_forall. intros i Hi. apply In_range in Hi. lia.
Qed.

Lemma Forall_repeat {A : Type} (P : A -> Prop) (x : A) (n : nat) :
  P x -> Forall P (repeat x n).
Proof.
  intros H. apply Forall_forall. intros y Hy. apply repeat_spec in Hy. now subst.
Qed.

Lemma read_pattern_index_table_witness :
  (exists ps,
      read_pattern_index
        (rom_with_tail ([0x02; 0x00; 0x01; 0x00; 0x08; 0x00; 0x02; 0x00;
                         0x00; 0x05; 0x04; 0x20] ++ repeat 0 (Z.to_nat 8184)))
      = Returns ps
      /\ len ps <= 683)
  /\ read_pattern_index [0x02; 0x00; 0x01] = Returns [].
Proof.
  split.
  - destruct (read_pattern_index_table
                (rom_with_tail ([0x02; 0x00; 0x01; 0x00; 0x08; 0x00; 0x02; 0x00;
                                 0x00; 0x05; 0x04; 0x20] ++ repeat 0 (Z.to_nat 8184))))
      as [H _].
    + unfold rom_with_tail. apply Forall_app. split; [apply Forall_repeat; lia|].
      apply Forall_app. split; [repeat constructor; lia | apply Forall_repeat; lia].
    + destruct H as (ps & E & _ & Hl & _); [vm_compute; congruence|].
      exists ps. split; assumption.
  - apply (read_pattern_index_table [0x02; 0x00; 0x01]).
    + repeat constructor; lia.
    + vm_compute. reflexivity.
Defined.

End IndexTable.

(* ===================================================================== *)
(** * A whole run of the extractor                                        *)
(* ===================================================================== *)

Section WholeRun.

Local Abbreviation saved_line p :=
  (Saved (p_number p) (p_width p) (p_height p) (p_type p)).

Lemma main_loop_ok rom :
  forall ps st,
    raised st = None ->
    (forall p, In p ps -> exists img, extract_pattern_bitmap rom p = ([], Returns img)) ->
    raised (main_loop rom ps st) = None
    /\ output (main_loop rom ps st) = output st ++ map (fun p => saved_line p) ps
    /\ exists imgs,
        saved (main_loop rom ps st) = saved st ++ imgs
        /\ Forall2 (fun p s => fst s = p_number p
                               /\ extract_pattern_bitmap rom p = ([], Returns (snd s)))
             ps imgs.
Proof.
  induction ps as [|p t IH]; intros st Hst Hok; cbn [main_loop map].
  - split; [exact Hst|]. split; [now rewrite app_nil_r|].
    exists []. split; [now rewrite app_nil_r | constructor].
  - destruct (Hok p (or_introl eq_refl)) as (img & Hp). rewrite Hp.
    match goal with |- context [main_loop rom t ?s] =>
      destruct (IH s eq_refl (fun q H => Hok q (or_intror H)))
        as (H1 & H2 & imgs & H3 & H4) end.
    split; [exact H1|]. split.
    + rewrite H2. cbn [output app]. rewrite <- app_assoc. reflexivity.
    + exists ((p_number p, img) :: imgs). split.
      * rewrite H3. cbn [saved]. rewrite <- app_assoc. reflexivity.
      * constructor; [split; [reflexivity | exact Hp] | exact H4].
Qed.

(** X18. A whole run of the extractor on a well-formed ROM: when the ROM
    holds the index table, every pattern the table lists lies inside the
    ROM, and the memo values of the monochrome ones all have a symbol,
    [main] ends without an exception, decodes and saves one image for
    each listed record, in the order of the table, under the number of
    the record, and prints one line for each saved pattern and nothing
    else. *)
Theorem main_decodes_every_listed_pattern rom :
  Forall (fun b => 0 <= b < 256) rom ->
  0x50000 + 683 * 12 <= len rom ->
  (forall i, 0 <= i < 683 -> listed rom i = true ->
     pattern_in_rom rom (slot_pattern rom i)
     /\ (p_type (slot_pattern rom i) = 2 ->
         forall row, 0 <= row < p_height (slot_pattern rom i) ->
                     valid_memo (memo_value rom (slot_pattern rom i) row))) ->
  raised (main rom) = None
  /\ output (main rom) =
     map (fun i => saved_line (slot_pattern rom i)) (filter (listed rom) (range 0 683))
  /\ Forall2 (fun i s => fst s = p_number (slot_pattern rom i)
                         /\ extract_pattern_bitmap rom (slot_pattern rom i)
                            = ([], Returns (snd s)))
       (filter (listed rom) (range 0 683)) (saved (main rom)).
Proof.
  intros Hrom Hlen Hall.
  unfold main, read_pattern_index.
  rewrite (read_records_spec rom Hlen Hrom)
    by (apply Forall_forall; intros i Hi; apply In_range in Hi; exact Hi).
  cbn [app]. change PATTERN_COUNT with 683.
  destruct (main_loop_ok rom
              (map (slot_pattern rom) (filter (listed rom) (range 0 683)))
              run_init eq_refl) as (H1 & H2 & imgs & H3 & H4).
  { intros p Hp. apply in_map_iff in Hp. destruct Hp as (i & <- & Hi).
    apply filter_In in Hi. destruct Hi as [Hi Hl]. apply In_range in Hi.
    destruct (Hall i Hi Hl) as [Hin Hmemo].
    unfold extract_pattern_bitmap.
    destruct (Z.eqb_spec (p_type (slot_pattern rom i)) 2) as [Ht | Ht].
    - exact (extract_monochrome_returns rom (slot_pattern rom i) Hin (Hmemo Ht)).
    - destruct (extract_multicolor_spec rom (slot_pattern rom i) Hin)
        as (img & Himg & _). exists img. rewrite Himg. reflexivity. }
  split; [exact H1|]. split.
  - rewrite H2. cbn [run_init output app]. rewrite map_map. reflexivity.
  - rewrite H3. cbn [run_init saved app].
    clear -H4. revert imgs H4.
    induction (filter (listed rom) (range 0 683)) as [|i t IH]; intros imgs H;
      cbn [map] in H; inversion H; subst; constructor; auto.
Qed.

End WholeRun.

Section WholeRunWitness.

Lemma zero_block_byte (n m : Z) (record tail : bytes) (k : Z) :
  0 <= n -> 0 <= m -> n + len record <= k < n + len record + m ->
  rom_byte (repeat 0 (Z.to_nat n) ++ record ++ repeat 0 (Z.to_nat m) ++ tail) k = 0.
Proof.
  intros Hn Hm Hk. unfold rom_byte, len in *.
  rewrite app_nth2 by (rewrite repeat_length; lia).
  rewrite repeat_length.
  rewrite app_nth2 by lia.
  rewrite app_nth1 by (rewrite repeat_length; lia).
  apply nth_repeat.
Qed.

Lemma unlisted_zero rom i : rom_byte rom (slot_base i) = 0 -> listed rom i = false.
Proof. intros H. unfold listed. rewrite H. reflexivity. Qed.

Lemma rom_with_tail_eq tail :
  rom_with_tail tail = repeat 0 (Z.to_nat index_base) ++ tail.
Proof. reflexivity. Qed.

Local Abbreviation one_pattern_rom :=
  (rom_with_tail ([0x02; 0x00; 0x01; 0x00; 0x08; 0x00; 0x02; 0x00;
                   0x00; 0x05; 0x04; 0x20]
                  ++ repeat 0 (Z.to_nat 8184) ++ [0x00; 0x0F; 0xF0])).

(** Only the first record of the table of this ROM is in use. *)
Lemma one_pattern_rom_listed i :
  0 <= i < 683 -> listed one_pattern_rom i = true -> i = 0.
Proof.
  intros Hi Hl. destruct (Z.eq_dec i 0) as [E | E]; [exact E | exfalso].
  assert (Hb : rom_byte one_pattern_rom (slot_base i) = 0).
  { rewrite rom_with_tail_eq. apply zero_block_byte.
    - unfold index_base. lia.
    - lia.
    - assert (Hib : index_base = 327680) by reflexivity.
      unfold slot_base, len. cbn [length]. lia. }
  rewrite (unlisted_zero _ _ Hb) in Hl. discriminate Hl.
Qed.

Lemma main_decodes_every_listed_pattern_witness :
  raised (main one_pattern_rom) = None.
Proof.
  destruct (main_decodes_every_listed_pattern one_pattern_rom) as (H1 & _).
  - unfold rom_with_tail. apply Forall_app. split; [apply Forall_repeat; lia|].
    apply Forall_app. split; [repeat constructor; lia|].
    apply Forall_app. split; [apply Forall_repeat; lia | repeat constructor; lia].
  - vm_compute. congruence.
  - intros i Hi Hl. rewrite (one_pattern_rom_listed i Hi Hl).
    assert (Hp : slot_pattern one_pattern_rom 0 =
                 {| p_type := 2; p_number := 1; p_width := 8; p_height := 2;
                    p_offset := 0x52004 |}) by (vm_compute; reflexivity).
    rewrite Hp. split.
    + repeat split; vm_compute; congruence.
    + intros _ row Hrow. cbn [p_height] in Hrow.
      assert (Hc : row = 0 \/ row = 1) by lia.
      destruct Hc as [-> | ->]; left; vm_compute; split; congruence.
  - exact H1.
Defined.

End WholeRunWitness.

(* ===================================================================== *)
(** * References to an offset                                             *)
(* ===================================================================== *)

Section OffsetReferences.

Lemma refs_loop_spec (rom sub : bytes) :
  0 < len sub ->
  forall passes pos refs,
    0 <= pos ->
    refs_loop rom sub passes pos refs =
    refs ++ firstn passes (filter (occurs_atb rom sub) (range pos (len rom))).
Proof.
  intros Hsub. induction passes as [|k IH]; intros pos refs Hpos; cbn [refs_loop firstn].
  - now rewrite app_nil_r.
  - pose proof (len_nonneg rom) as Hrom.
    destruct (find_spec rom sub pos (len rom) Hpos Hrom)
      as [[H1 H2] | (H1 & H2 & H3 & H4)].
    + rewrite H1. cbn [Z.ltb Z.compare]. rewrite filter_none; [now rewrite app_nil_r|].
      intros x Hx. apply In_range in Hx.
      destruct (Z_le_gt_dec (x + len sub) (len rom)) as [Hle | Hgt];
        [apply H2; lia|].
      destruct (occurs_atb rom sub x) eqn:E; [|reflexivity].
      apply occurs_atb_inside in E. lia.
    + set (r := find rom sub pos (len rom)) in *.
      destruct (r <? 0) eqn:E2; [apply Z.ltb_lt in E2; lia|].
      rewrite IH by lia.
      rewrite (range_app pos r (len rom)) by lia.
      rewrite (range_cons r) by lia.
      rewrite filter_app. cbn [filter]. rewrite H3.
      rewrite (filter_none _ (range pos r)).
      2:{ intros x Hx. apply In_range in Hx. apply H4. lia. }
      cbn [app firstn]. rewrite <- app_assoc. reflexivity.
Qed.

Lemma low_two_bytes offset :
  to_bytes_little (Z.land offset 0xffff) = [offset mod 256; (offset / 256) mod 256].
Proof.
  unfold to_bytes_little. change 0xffff with (Z.ones 16).
  rewrite Z.land_ones by lia. change (2 ^ 16) with (256 * 256).
  rewrite Z.rem_mul_r by lia.
  pose proof (Z.mod_pos_bound offset 256 ltac:(lia)) as H1.
  pose proof (Z.mod_pos_bound (offset / 256) 256 ltac:(lia)) as H2.
  f_equal; [|f_equal].
  - symmetry. apply Z.mod_unique with (q := (offset / 256) mod 256); lia.
  - symmetry. apply Z.div_unique with (r := offset mod 256); lia.
Qed.

(** X19. [find_offset_references] returns the first five positions, in
    increasing order, at which the ROM holds the two low bytes of the
    offset, low byte first (all of them when there are fewer than five):
    at every position [p] it returns, byte [p] is [offset mod 256] and
    byte [p + 1] is [(offset / 256) mod 256]. The bits of the offset from
    bit 16 on play no part. *)
Theorem find_offset_references_spec rom offset :
  find_offset_references rom offset =
  firstn 5 (filter (occurs_atb rom [offset mod 256; (offset / 256) mod 256])
              (range 0 (len rom)))
  /\ len (find_offset_references rom offset) <= 5
  /\ (forall p, In p (find_offset_references rom offset) ->
        0 <= p /\ p + 2 <= len rom
        /\ rom_byte rom p = offset mod 256
        /\ rom_byte rom (p + 1) = (offset / 256) mod 256)
  /\ find_offset_references rom (offset + 65536) = find_offset_references rom offset.
Proof.
  assert (E : forall o, find_offset_references rom o =
            firstn 5 (filter (occurs_atb rom [o mod 256; (o / 256) mod 256])
                        (range 0 (len rom)))).
  { intros o. unfold find_offset_references. rewrite low_two_bytes.
    rewrite refs_loop_spec by (unfold len; cbn [length]; lia). reflexivity. }
  split; [apply E|]. split; [|split].
  - rewrite E. unfold len. rewrite length_firstn. lia.
  - intros p Hp. rewrite E in Hp.
    assert (Hin : In p (filter (occurs_atb rom [offset mod 256; (offset / 256) mod 256])
                          (range 0 (len rom)))).
    { rewrite <- (firstn_skipn 5 (filter _ _)). apply in_or_app. left. exact Hp. }
    apply filter_In in Hin. destruct Hin as [_ Hocc].
    apply occurs_atb_true in Hocc. destruct Hocc as (H1 & H2 & H3).
    replace (len [offset mod 256; (offset / 256) mod 256]) with 2 in * by reflexivity.
    rewrite slice_as_map in H3 by lia.
    rewrite (range_cons p) in H3 by lia. rewrite (range_cons (p + 1)) in H3 by lia.
    rewrite range_empty in H3 by lia. cbn [map] in H3.
    injection H3 as H3 H4. auto.
  - rewrite !E. do 3 f_equal.
    replace (offset + 65536) with (offset + 256 * 256) by lia.
    f_equal; [|f_equal].
    + apply Z.mod_add. lia.
    + rewrite Z.div_add by lia.
      replace (offset / 256 + 256) with (offset / 256 + 1 * 256) by lia.
      apply Z.mod_add. lia.
Qed.

End OffsetReferences.

Section OffsetReferencesWitness.

Lemma find_offset_references_spec_witness :
  find_offset_references small_rom 0x10302 = [1; 4].
Proof.
  destruct (find_offset_references_spec small_rom 0x10302) as (H & _).
  rewrite H. vm_compute. reflexivity.
Defined.

End OffsetReferencesWitness.

(* ===================================================================== *)
(** * Packing a line of pixels                                            *)
(* ===================================================================== *)

Section PackedLines.

Lemma lor_byte_bound a b :
  0 <= a < 256 -> 0 <= b < 256 -> 0 <= Z.lor a b < 256.
Proof.
  intros Ha Hb. split; [apply Z.lor_nonneg; lia|].
  destruct (Z.eq_dec (Z.lor a b) 0) as [E | E]; [lia|].
  assert (Hpos : 0 < Z.lor a b) by (pose proof (proj2 (Z.lor_nonneg a b)); lia).
  change 256 with (2 ^ 8). apply Z.log2_lt_pow2; [exact Hpos|].
  rewrite Z.log2_lor by lia.
  assert (Z.log2 a < 8).
  { destruct (Z.eq_dec a 0) as [-> | ?]; [simpl; lia|].
    apply Z.log2_lt_pow2; simpl; lia. }
  assert (Z.log2 b < 8).
  { destruct (Z.eq_dec b 0) as [-> | ?]; [simpl; lia|].
    apply Z.log2_lt_pow2; simpl; lia. }
  lia.
Qed.

Lemma bit_mask_bound bit : 0 <= bit < 8 -> 0 <= Z.shiftl 1 bit < 256.
Proof.
  intros H. rewrite Z.shiftl_1_l.
  assert (Hc : bit = 0 \/ bit = 1 \/ bit = 2 \/ bit = 3 \/ bit = 4 \/ bit = 5
               \/ bit = 6 \/ bit = 7) by lia.
  repeat (destruct Hc as [-> | Hc]; [simpl; lia|]). subst. simpl. lia.
Qed.

Lemma getitem_nth {A : Type} (l : list A) (i : Z) (d : A) :
  0 <= i < len l -> getitem l i = Returns (nth (Z.to_nat i) l d).
Proof.
  intros H. rewrite getitem_nth_error by lia.
  rewrite (nth_error_nth' l d) by (unfold len in H; lia). reflexivity.
Qed.

Local Abbreviation is_hash line x :=
  (Ascii.eqb (nth (Z.to_nat x) line "."%char) "#"%char).

(** The loop over the bits sets, in the byte being built, the bits whose
    character is [#]. *)
Lemma line_bits_spec (line : list ascii) (i : Z) :
  0 <= i ->
  forall bits byte,
    0 <= byte < 256 ->
    Forall (fun b => 0 <= b < 8 /\ i + b < len line) bits ->
    exists byte',
      line_bits line i bits byte = Returns byte'
      /\ 0 <= byte' < 256
      /\ forall k, 0 <= k ->
           Z.testbit byte' k =
           Z.testbit byte k || existsb (fun b => (b =? k) && is_hash line (i + b)) bits.
Proof.
  intros Hi. induction bits as [|b rest IH]; intros byte Hbyte Hall; cbn [line_bits existsb].
  - exists byte. split; [reflexivity|]. split; [exact Hbyte|].
    intros k _. now rewrite orb_false_r.
  - inversion Hall as [|? ? [Hb Hin] Hrest]; subst.
    rewrite (getitem_nth line (i + b) "."%char) by lia. cbn [Py.bind].
    destruct (IH (if is_hash line (i + b) then Z.lor byte (Z.shiftl 1 b) else byte))
      as (byte' & E & Hbound & Hbits).
    { destruct (is_hash line (i + b)); [|exact Hbyte].
      apply lor_byte_bound; [exact Hbyte | apply bit_mask_bound, Hb]. }
    { exact Hrest. }
    exists byte'. split; [exact E|]. split; [exact Hbound|].
    intros k Hk. rewrite (Hbits k Hk).
    destruct (is_hash line (i + b)).
    + rewrite Z.lor_spec, Z.shiftl_1_l, Z.pow2_bits_eqb by lia.
      rewrite andb_true_r, orb_assoc. reflexivity.
    + rewrite andb_false_r. reflexivity.
Qed.

Lemma line_bits_inv (line : list ascii) (i : Z) :
  forall bits byte byte',
    line_bits line i bits byte = Returns byte' ->
    forall b, In b bits -> exists c, getitem line (i + b) = Returns c.
Proof.
  induction bits as [|b rest IH]; intros byte byte' H x Hx; [destruct Hx|].
  cbn [line_bits] in H.
  destruct (getitem line (i + b)) as [c|] eqn:E; cbn [Py.bind] in H; [|discriminate H].
  destruct Hx as [<- | Hx]; [eauto|]. exact (IH _ _ H x Hx).
Qed.

Lemma line_bits_raises (line : list ascii) (i : Z) :
  forall bits byte e, line_bits line i bits byte = Raises e -> e = IndexError.
Proof.
  induction bits as [|b rest IH]; intros byte e H; cbn [line_bits] in H; [discriminate H|].
  destruct (getitem line (i + b)) as [c|e'] eqn:E; cbn [Py.bind] in H.
  - exact (IH _ _ H).
  - injection H as <-. exact (getitem_raises _ _ _ E).
Qed.

Lemma Forall2_nth_error {A B : Type} (P : A -> B -> Prop) (l : list A) (ys : list B) :
  Forall2 P l ys ->
  forall n x, nth_error l n = Some x -> exists y, nth_error ys n = Some y /\ P x y.
Proof.
  induction 1 as [|x y l ys Hxy _ IH]; intros n z Hn; [destruct n; discriminate Hn|].
  destruct n as [|n]; cbn [nth_error] in *.
  - injection Hn as <-. eauto.
  - apply IH, Hn.
Qed.

Lemma Forall2_length_eq {A B : Type} (P : A -> B -> Prop) (l : list A) (ys : list B) :
  Forall2 P l ys -> length l = length ys.
Proof. induction 1; cbn [length]; congruence. Qed.

Lemma In_range_step x n :
  In x (range_step 0 n 8) <-> exists k, 0 <= k < (n + 7) / 8 /\ x = 8 * k.
Proof.
  unfold range_step. rewrite in_map_iff.
  replace (n - 0 + 8 - 1) with (n + 7) by lia.
  split.
  - intros (k & <- & Hk). apply In_range in Hk. exists k. split; lia.
  - intros (k & Hk & ->). exists k. split; [lia | apply In_range; lia].
Qed.

Lemma nth_error_range_step n k :
  0 <= k < (n + 7) / 8 -> nth_error (range_step 0 n 8) (Z.to_nat k) = Some (8 * k).
Proof.
  intros Hk. unfold range_step. rewrite nth_error_map.
  replace (n - 0 + 8 - 1) with (n + 7) by lia.
  replace (Z.to_nat k) with (Z.to_nat (k - 0)) by lia.
  rewrite nth_error_range by lia. cbn [option_map]. f_equal. lia.
Qed.

Lemma chunk_bits (line : list ascii) (i k : Z) :
  0 <= k < 8 ->
  existsb (fun b => (b =? k) && is_hash line (i + b)) (range 0 8) = is_hash line (i + k).
Proof.
  intros Hk.
  assert (Hc : k = 0 \/ k = 1 \/ k = 2 \/ k = 3 \/ k = 4 \/ k = 5 \/ k = 6 \/ k = 7)
    by lia.
  change (range 0 8) with [0; 1; 2; 3; 4; 5; 6; 7].
  repeat (destruct Hc as [-> | Hc];
          [cbn [existsb Z.eqb Pos.eqb andb orb]; rewrite ?orb_false_r; reflexivity|]).
  subst. cbn [existsb Z.eqb Pos.eqb andb orb]. rewrite ?orb_false_r. reflexivity.
Qed.

(** The bytes of a line whose length is a multiple of 8. *)
Lemma line_to_bytes_spec (line : list ascii) :
  len line mod 8 = 0 ->
  exists bs,
    line_to_bytes line = Returns bs
    /\ len bs = len line / 8
    /\ Forall (fun b => 0 <= b < 256) bs
    /\ forall x, 0 <= x < len line ->
         Z.testbit (nth (Z.to_nat (x / 8)) bs 0) (x mod 8) = is_hash line x.
Proof.
  intros Hmod. pose proof (len_nonneg line) as Hn.
  pose proof (Z.div_mod (len line) 8 ltac:(lia)) as Hdm.
  assert (Hq : (len line + 7) / 8 = len line / 8).
  { symmetry. apply Z.div_unique with (r := 7); lia. }
  assert (Hchunk : forall i, In i (range_step 0 (len line) 8) ->
            exists b, line_bits line i (range 0 8) 0 = Returns b
                      /\ 0 <= b < 256
                      /\ forall k, 0 <= k < 8 -> Z.testbit b k = is_hash line (i + k)).
  { intros i Hi. apply In_range_step in Hi. destruct Hi as (k & Hk & ->).
    destruct (line_bits_spec line (8 * k) ltac:(lia) (range 0 8) 0 ltac:(lia))
      as (b & E & Hb & Hbits).
    { apply Forall_forall. intros x Hx. apply In_range in Hx. lia. }
    exists b. split; [exact E|]. split; [exact Hb|].
    intros j Hj. rewrite Hbits by lia. rewrite Z.bits_0. cbn [orb].
    apply chunk_bits, Hj. }
  destruct (mapM_returns_all (fun i => line_bits line i (range 0 8) 0)
              (range_step 0 (len line) 8)) as (bs & E).
  { intros i Hi. destruct (Hchunk i Hi) as (b & Hb & _). eauto. }
  exists bs. split; [exact E|].
  unfold line_to_bytes in *. pose proof (mapM_returns_inv _ _ _ E) as Hall.
  assert (Hlen : len bs = len line / 8).
  { apply mapM_length in E. unfold len at 1. rewrite E.
    unfold range_step. rewrite length_map.
    pose proof (range_length 0 ((len line - 0 + 8 - 1) / 8)) as Hl.
    unfold len in Hl at 1. rewrite Hl.
    replace (len line - 0 + 8 - 1) with (len line + 7) by lia.
    rewrite Hq. assert (0 <= len line / 8) by (apply Z.div_pos; lia). lia. }
  split; [exact Hlen|]. split.
  - apply Forall_forall. intros b Hb. apply In_nth_error in Hb. destruct Hb as (n & Hnb).
    assert (Hn' : (n < length (range_step 0 (len line) 8))%nat).
    { rewrite (Forall2_length_eq _ _ _ Hall). apply nth_error_Some. congruence. }
    destruct (nth_error (range_step 0 (len line) 8) n) as [i|] eqn:Ei;
      [|apply nth_error_None in Ei; lia].
    destruct (Forall2_nth_error _ _ _ Hall n i Ei) as (b' & Hb' & Hrun).
    assert (b' = b) by congruence. subst b'.
    destruct (Hchunk i (nth_error_In _ _ Ei)) as (b2 & Hb2 & Hbound & _).
    cbv beta in Hrun. congruence.
  - intros x Hx.
    assert (Hk : 0 <= x / 8 < (len line + 7) / 8).
    { rewrite Hq. split; [apply Z.div_pos; lia|].
      apply Z.div_lt_upper_bound; lia. }
    pose proof (nth_error_range_step (len line) (x / 8) Hk) as Ei.
    destruct (Forall2_nth_error _ _ _ Hall _ _ Ei) as (b & Hb & Hrun).
    cbv beta in Hrun.
    rewrite (nth_error_nth _ _ 0 Hb).
    destruct (Hchunk _ (nth_error_In _ _ Ei)) as (b2 & Hb2 & _ & Hbits).
    assert (b2 = b) by congruence. subst b2.
    rewrite Hbits by (apply Z.mod_pos_bound; lia).
    do 3 f_equal. pose proof (Z.div_mod x 8 ltac:(lia)). lia.
Qed.

(** X20. [line_to_bytes] packs a line whose length is a multiple of 8
    into one byte (0..255) for every 8 characters, least significant bit
    first: bit [x mod 8] of byte [x / 8] is set exactly when character [x]
    of the line is [#]. A line whose length is not a multiple of 8 raises
    [IndexError]. *)
Theorem line_to_bytes_packs (line : list ascii) :
  (len line mod 8 = 0 ->
   exists bs,
     line_to_bytes line = Returns bs
     /\ len bs = len line / 8
     /\ Forall (fun b => 0 <= b < 256) bs
     /\ forall x, 0 <= x < len line ->
          Z.testbit (nth (Z.to_nat (x / 8)) bs 0) (x mod 8) = is_hash line x)
  /\ (len line mod 8 <> 0 -> line_to_bytes line = Raises IndexError).
Proof.
  split; [apply line_to_bytes_spec|].
  intros Hmod. pose proof (len_nonneg line) as Hn.
  pose proof (Z.div_mod (len line) 8 ltac:(lia)) as Hdm.
  pose proof (Z.mod_pos_bound (len line) 8 ltac:(lia)) as Hr.
  assert (Hq : (len line + 7) / 8 = len line / 8 + 1).
  { symmetry. apply Z.div_unique with (r := len line mod 8 - 1); lia. }
  assert (Hq0 : 0 <= len line / 8) by (apply Z.div_pos; lia).
  destruct (line_to_bytes line) as [bs|e] eqn:E.
  - exfalso. unfold line_to_bytes in E. apply mapM_returns_inv in E.
    assert (Hlast : In (8 * (len line / 8)) (range_step 0 (len line) 8)).
    { apply In_range_step. exists (len line / 8). split; [lia | reflexivity]. }
    destruct (Forall2_In_l _ _ _ E _ Hlast) as (b & Hb). cbv beta in Hb.
    destruct (line_bits_inv line _ _ _ _ Hb 7) as (c & Hc);
      [change (range 0 8) with [0; 1; 2; 3; 4; 5; 6; 7]; cbn [In]; tauto|].
    rewrite getitem_nth_error in Hc by lia.
    destruct (nth_error line _) as [c'|] eqn:En; [|discriminate Hc].
    assert (Hlt : (Z.to_nat (8 * (len line / 8) + 7) < length line)%nat)
      by (apply nth_error_Some; congruence).
    unfold len in *. lia.
  - f_equal. unfold line_to_bytes in E. apply mapM_raises in E.
    destruct E as (i & _ & Hi). exact (line_bits_raises _ _ _ _ _ Hi).
Qed.

Lemma line_to_bytes_packs_witness :
  (exists bs, line_to_bytes (list_ascii_of_string "#.#....#") = Returns bs
              /\ len bs = 1)
  /\ line_to_bytes (list_ascii_of_string "#.#") = Raises IndexError.
Proof.
  destruct (line_to_bytes_packs (list_ascii_of_string "#.#....#")) as [H1 _].
  destruct (line_to_bytes_packs (list_ascii_of_string "#.#")) as [_ H2].
  split.
  - destruct H1 as (bs & E & Hl & _); [reflexivity|]. exists bs. split; [exact E|].
    rewrite Hl. reflexivity.
  - apply H2. vm_compute. congruence.
Defined.

End PackedLines.

Section PackedLineRoundTrip.

Lemma firstn_as_map {A : Type} (l : list A) (w : Z) (d : A) :
  0 <= w <= len l ->
  firstn (Z.to_nat w) l = map (fun x => nth (Z.to_nat x) l d) (range 0 w).
Proof.
  intros Hw. apply (nth_ext _ _ d d).
  - rewrite length_firstn, length_map.
    pose proof (range_length 0 w) as Hl. unfold len in *. lia.
  - intros n Hn. rewrite length_firstn in Hn.
    rewrite nth_firstn.
    replace (n <? Z.to_nat w)%nat with true by (symmetry; apply Nat.ltb_lt; lia).
    symmetry. apply nth_error_nth. rewrite nth_error_map.
    replace n with (Z.to_nat (Z.of_nat n - 0)) at 1 by lia.
    rewrite nth_error_range by lia. cbn [option_map]. do 2 f_equal. lia.
Qed.

(** The pixels [decode_monochrome_bitmap] reads from the bytes of one
    packed line. *)
Lemma packed_line_decodes (line : list ascii) (bs : bytes) (width : Z) :
  line_to_bytes line = Returns bs ->
  0 <= width -> len line = 8 * ((width + 7) / 8) ->
  decode_row bs width ((width + 7) / 8) 0 0 =
  map char_pixel (firstn (Z.to_nat width) line).
Proof.
  intros E Hw Hlen.
  destruct (row_bytes_cover width Hw) as [Hc Hrb].
  assert (Hmod : len line mod 8 = 0).
  { rewrite Hlen, Z.mul_comm. apply Z.mod_mul. lia. }
  destruct (line_to_bytes_spec line Hmod) as (bs' & E' & Hl & _ & Hbits).
  assert (bs' = bs) by congruence. subst bs'.
  assert (Hlb : len bs = (width + 7) / 8).
  { rewrite Hl, Hlen, Z.mul_comm. apply Z.div_mul. lia. }
  unfold decode_row, enumerate.
  replace (0 + 0 * ((width + 7) / 8)) with 0 by lia.
  rewrite <- Hlb. rewrite (slice_inside bs 0 (0 + len bs)) by lia.
  cbn [Z.to_nat skipn]. replace (0 + len bs - 0) with (len bs) by lia.
  rewrite len_to_nat, firstn_all.
  rewrite row_pixels_spec by lia.
  replace (8 * 0) with 0 by lia.
  replace (Z.min width (8 * (0 + len bs))) with width by lia.
  rewrite (firstn_as_map line width "."%char) by lia.
  rewrite map_map. apply map_ext_in. intros x Hx. apply In_range in Hx.
  replace (x / 8 - 0) with (x / 8) by lia.
  rewrite pixel_of_testbit by (apply Z.mod_pos_bound; lia).
  rewrite Hbits by lia. reflexivity.
Qed.

(** X21. The two scripts agree on the packing of a row: the bytes
    [line_to_bytes] makes of a line of [width] pixels padded to a multiple
    of 8 characters are decoded by [decode_monochrome_bitmap] into the
    first [width] pixels of the line, 1 for [#] and 0 for any other
    character; the padding is dropped. *)
Theorem packed_line_round_trip (line : list ascii) (bs : bytes) (width : Z) :
  line_to_bytes line = Returns bs ->
  0 <= width -> len line = 8 * ((width + 7) / 8) ->
  decode_monochrome_bitmap bs width 1 0 =
  [map char_pixel (firstn (Z.to_nat width) line)].
Proof.
  intros E Hw Hlen. unfold decode_monochrome_bitmap.
  change (range 0 1) with [0]. cbn [map]. f_equal.
  apply packed_line_decodes; assumption.
Qed.

Lemma packed_line_round_trip_witness :
  decode_monochrome_bitmap [0x05] 3 1 0 = [[1; 0; 1]].
Proof.
  apply (packed_line_round_trip (list_ascii_of_string "#.#.....") [0x05] 3);
    vm_compute; congruence.
Defined.

End PackedLineRoundTrip.

(* ===================================================================== *)
(** * Loading candidate images                                            *)
(* ===================================================================== *)

Section LoadedPatterns.

Lemma padded_width w :
  0 <= w ->
  0 <= (8 - w mod 8) mod 8 /\ w + (8 - w mod 8) mod 8 = 8 * ((w + 7) / 8).
Proof.
  intros Hw. pose proof (Z.div_mod w 8 ltac:(lia)) as Hdm.
  pose proof (Z.mod_pos_bound w 8 ltac:(lia)) as Hr.
  destruct (Z.eq_dec (w mod 8) 0) as [E | E].
  - rewrite E. change ((8 - 0) mod 8) with 0.
    assert ((w + 7) / 8 = w / 8)
      by (symmetry; apply Z.div_unique with (r := 7); lia).
    lia.
  - rewrite (Z.mod_small (8 - w mod 8)) by lia.
    assert ((w + 7) / 8 = w / 8 + 1)
      by (symmetry; apply Z.div_unique with (r := w mod 8 - 1); lia).
    lia.
Qed.

Lemma len_repeat {A : Type} (x : A) (n : Z) : 0 <= n -> len (repeat x (Z.to_nat n)) = n.
Proof. intros H. unfold len. rewrite repeat_length. lia. Qed.

Lemma len_row_bits g padding y :
  0 <= g_width g -> 0 <= padding -> len (row_bits g padding y) = g_width g + padding.
Proof.
  intros Hw Hp. unfold row_bits.
  rewrite len_app, len_map, range_length, len_repeat by lia. lia.
Qed.

(** Character [x] of the line of row [y] is [#] exactly when [x] is a
    column of the image and the pixel is dark. *)
Lemma row_bits_hash g padding y x :
  0 <= padding -> 0 <= x < g_width g + padding ->
  Ascii.eqb (nth (Z.to_nat x) (row_bits g padding y) "."%char) "#"%char
  = (x <? g_width g) && (gray_at g x y <? 128).
Proof.
  intros Hp Hx. unfold row_bits.
  destruct (Z.ltb_spec x (g_width g)) as [Hlt | Hge]; cbn [andb].
  - rewrite app_nth1.
    2:{ rewrite length_map. pose proof (range_length 0 (g_width g)) as Hl.
        unfold len in Hl. lia. }
    rewrite (nth_map_range _ (g_width g) x) by lia.
    unfold mono_pixel. fold (gray_at g x y).
    destruct (gray_at g x y <? 128); reflexivity.
  - rewrite app_nth2.
    2:{ rewrite length_map. pose proof (range_length 0 (g_width g)) as Hl.
        unfold len in Hl. lia. }
    rewrite nth_repeat. reflexivity.
Qed.

Lemma nth_error_rev_range h r :
  0 <= r < h -> nth_error (rev (range 0 h)) (Z.to_nat r) = Some (h - 1 - r).
Proof.
  intros Hr. pose proof (range_length 0 h) as Hl. unfold len in Hl.
  rewrite nth_error_rev.
  replace (Z.to_nat r <? length (range 0 h))%nat with true
    by (symmetry; apply Nat.ltb_lt; lia).
  replace (length (range 0 h) - S (Z.to_nat r))%nat with (Z.to_nat (h - 1 - r - 0)) by lia.
  apply nth_error_range. lia.
Qed.

Local Abbreviation packed_rows g rows :=
  (length rows = Z.to_nat (g_height g)
   /\ Forall (fun bs => len bs = (g_width g + 7) / 8 /\ Forall (fun b => 0 <= b < 256) bs)
        rows
   /\ forall r x, 0 <= r < g_height g -> 0 <= x < 8 * ((g_width g + 7) / 8) ->
        Z.testbit (nth (Z.to_nat (x / 8)) (nth (Z.to_nat r) rows []) 0) (x mod 8)
        = (x <? g_width g) && (gray_at g x (g_height g - 1 - r) <? 128)).

(** The rows of an image, packed from the bottom row up. *)
Lemma image_rows g :
  0 <= g_width g -> 0 <= g_height g ->
  exists rows,
    mapM (fun y => line_to_bytes (row_bits g ((8 - g_width g mod 8) mod 8) y))
      (rev (range 0 (g_height g)))
    = Returns rows
    /\ packed_rows g rows.
Proof.
  intros Hw Hh. destruct (padded_width (g_width g) Hw) as [Hp Hpw].
  set (padding := (8 - g_width g mod 8) mod 8) in *.
  assert (Hline : forall y,
            exists bs, line_to_bytes (row_bits g padding y) = Returns bs
              /\ len bs = (g_width g + 7) / 8
              /\ Forall (fun b => 0 <= b < 256) bs
              /\ forall x, 0 <= x < 8 * ((g_width g + 7) / 8) ->
                   Z.testbit (nth (Z.to_nat (x / 8)) bs 0) (x mod 8)
                   = (x <? g_width g) && (gray_at g x y <? 128)).
  { intros y. pose proof (len_row_bits g padding y Hw Hp) as Hl.
    destruct (line_to_bytes_spec (row_bits g padding y)) as (bs & E & Hlen & Hb & Hbits).
    { rewrite Hl, Hpw, Z.mul_comm. apply Z.mod_mul. lia. }
    exists bs. split; [exact E|]. split.
    { rewrite Hlen, Hl, Hpw, Z.mul_comm. apply Z.div_mul. lia. }
    split; [exact Hb|].
    intros x Hx. rewrite Hbits by lia. apply row_bits_hash; lia. }
  destruct (mapM_returns_all (fun y => line_to_bytes (row_bits g padding y))
              (rev (range 0 (g_height g)))) as (rows & E).
  { intros y _. destruct (Hline y) as (bs & Hbs & _). eauto. }
  exists rows. split; [exact E|].
  pose proof (mapM_returns_inv _ _ _ E) as Hall.
  pose proof (range_length 0 (g_height g)) as Hrl. unfold len in Hrl.
  split; [|split].
  - rewrite <- (Forall2_length_eq _ _ _ Hall), length_rev. lia.
  - apply Forall_forall. intros bs Hbs. apply In_nth_error in Hbs.
    destruct Hbs as (n & Hn).
    assert (Hn' : (n < length (rev (range 0 (g_height g))))%nat).
    { rewrite (Forall2_length_eq _ _ _ Hall). apply nth_error_Some.
      unfold bytes in *. congruence. }
    destruct (nth_error (rev (range 0 (g_height g))) n) as [y|] eqn:Ey;
      [|apply nth_error_None in Ey; lia].
    destruct (Forall2_nth_error _ _ _ Hall n y Ey) as (bs' & Hbs' & Hrun).
    cbv beta in Hrun. assert (bs' = bs) by (unfold bytes in *; congruence). subst bs'.
    destruct (Hline y) as (bs2 & E2 & Hlen & Hb & _).
    assert (bs2 = bs) by (unfold bytes in *; congruence). subst bs2. split; assumption.
  - intros r x Hr Hx.
    pose proof (nth_error_rev_range (g_height g) r Hr) as Ey.
    destruct (Forall2_nth_error _ _ _ Hall _ _ Ey) as (bs & Hbs & Hrun).
    cbv beta in Hrun. unfold bytes in *. rewrite (nth_error_nth _ _ [] Hbs).
    destruct (Hline (g_height g - 1 - r)) as (bs2 & E2 & _ & _ & Hbits).
    assert (bs2 = bs) by (unfold bytes in *; congruence). subst bs2. apply Hbits, Hx.
Qed.

Lemma Forall_concat {A : Type} (P : A -> Prop) (ls : list (list A)) :
  Forall (Forall P) ls -> Forall P (concat ls).
Proof.
  induction 1 as [|l t Hl _ IH]; cbn [concat]; [constructor|].
  apply Forall_app. split; assumption.
Qed.

Lemma length_concat_rows {A : Type} (w : nat) (rows : list (list A)) :
  Forall (fun r => length r = w) rows -> length (concat rows) = (length rows * w)%nat.
Proof.
  induction 1 as [|r t Hr _ IH]; cbn [concat length]; [reflexivity|].
  rewrite length_app, IH, Hr. lia.
Qed.

Lemma nth_concat_rows (w : nat) (rows : list (list Z)) (r c : nat) :
  Forall (fun row => length row = w) rows ->
  (r < length rows)%nat -> (c < w)%nat ->
  nth (r * w + c) (concat rows) 0 = nth c (nth r rows []) 0.
Proof.
  intros Hall Hr Hc.
  destruct (nth_error rows r) as [row|] eqn:Er; [|apply nth_error_None in Er; lia].
  assert (Hrow : length row = w).
  { apply (proj1 (Forall_forall _ rows) Hall). apply nth_error_In in Er. exact Er. }
  rewrite (nth_error_nth _ _ [] Er).
  destruct (nth_error row c) as [v|] eqn:Ec; [|apply nth_error_None in Ec; lia].
  rewrite (nth_error_nth _ _ 0 Ec).
  apply nth_error_nth.
  apply (nth_error_concat_rows w rows r c row v Hall Er Ec).
Qed.

Lemma to_bytes_ok (all_bytes : list Z) :
  Forall (fun b => 0 <= b < 256) all_bytes -> to_bytes all_bytes = Returns all_bytes.
Proof.
  intros H. unfold to_bytes.
  replace (forallb _ all_bytes) with true; [reflexivity|].
  symmetry. apply forallb_forall. intros b Hb.
  pose proof (proj1 (Forall_forall _ all_bytes) H b Hb) as Hr. cbv beta in Hr.
  apply andb_true_iff. rewrite Z.leb_le, Z.ltb_lt. lia.
Qed.

Local Abbreviation packs g p :=
  (RomScan.height p = g_height g /\ RomScan.width p = g_width g
   /\ len (byte_data p) = g_height g * ((g_width g + 7) / 8)
   /\ Forall (fun b => 0 <= b < 256) (byte_data p)
   /\ forall r x, 0 <= r < g_height g -> 0 <= x < 8 * ((g_width g + 7) / 8) ->
        Z.testbit
          (nth (Z.to_nat (r * ((g_width g + 7) / 8) + x / 8)) (byte_data p) 0)
          (x mod 8)
        = (x <? g_width g) && (gray_at g x (g_height g - 1 - r) <? 128)).

(** The bytes of the rows, one row after the other. *)
Lemma packed_image g rows :
  0 <= g_width g -> 0 <= g_height g -> packed_rows g rows ->
  len (concat rows) = g_height g * ((g_width g + 7) / 8)
  /\ Forall (fun b => 0 <= b < 256) (concat rows)
  /\ forall r x, 0 <= r < g_height g -> 0 <= x < 8 * ((g_width g + 7) / 8) ->
       Z.testbit (nth (Z.to_nat (r * ((g_width g + 7) / 8) + x / 8)) (concat rows) 0)
         (x mod 8)
       = (x <? g_width g) && (gray_at g x (g_height g - 1 - r) <? 128).
Proof.
  intros Hw Hh (Hlen & Hall & Hbits).
  destruct (row_bytes_cover (g_width g) Hw) as [_ Hrb].
  set (rb := (g_width g + 7) / 8) in *.
  unfold bytes in *.
  assert (Hrows : Forall (fun row : list Z => length row = Z.to_nat rb) rows).
  { apply Forall_forall. intros row Hrow.
    destruct (proj1 (Forall_forall _ rows) Hall row Hrow) as [Hl _].
    unfold len in Hl. lia. }
  split; [|split].
  - unfold len. rewrite (length_concat_rows (Z.to_nat rb)) by exact Hrows. nia.
  - apply Forall_concat. apply Forall_forall. intros row Hrow.
    apply (proj1 (Forall_forall _ rows) Hall row Hrow).
  - intros r x Hr Hx.
    assert (Hq : 0 <= x / 8 < rb).
    { split; [apply Z.div_pos; lia | apply Z.div_lt_upper_bound; lia]. }
    replace (Z.to_nat (r * rb + x / 8))
      with (Z.to_nat r * Z.to_nat rb + Z.to_nat (x / 8))%nat by nia.
    rewrite (nth_concat_rows (Z.to_nat rb)) by (try exact Hrows; lia).
    apply Hbits; assumption.
Qed.

Lemma load_loop_spec :
  forall image_files patterns,
    Forall (fun f => 0 <= g_width (snd f) /\ 0 <= g_height (snd f)) image_files ->
    exists ps,
      load_loop image_files patterns = Returns (patterns ++ ps)
      /\ Forall2 (fun f p => image_file p = fst (fst f) /\ basename p = snd (fst f)
                             /\ packs (snd f) p)
           (filter (fun f => unique_colors (snd f) =? 2) image_files) ps.
Proof.
  induction image_files as [|[[file name] g] rest IH]; intros patterns Hall;
    cbn [load_loop filter].
  - exists []. split; [now rewrite app_nil_r | constructor].
  - inversion Hall as [|? ? [Hw Hh] Hrest]; subst. cbn [snd] in *.
    destruct (unique_colors g =? 2).
    + destruct (image_rows g Hw Hh) as (rows & E & Hrows).
      rewrite E. cbn [Py.bind].
      destruct (packed_image g rows Hw Hh Hrows) as (Hlen & Hbytes & Hbits).
      rewrite (to_bytes_ok _ Hbytes). cbn [Py.bind].
      match goal with |- context [load_loop rest ?acc] =>
        destruct (IH acc Hrest) as (ps & Eps & Hps) end.
      eexists (_ :: ps). split.
      * rewrite Eps. rewrite <- app_assoc. reflexivity.
      * constructor; [|exact Hps]. cbn [image_file basename byte_data RomScan.height
                                         RomScan.width fst snd].
        repeat split; assumption.
    + apply IH, Hrest.
Qed.

(** X22. [load_patterns] keeps, in the order given, the images that have
    exactly two gray values and skips the others without an error. A kept
    image gives a candidate with the image's height and width whose byte
    data is height * ceil(width/8) bytes (0..255), the rows packed from
    the bottom row up: bit [x mod 8] of byte [x / 8] of packed row [r] is
    set exactly when [x] is a column of the image and the pixel at column
    [x] of image row [height - 1 - r] is dark (gray value below 128); the
    padding bits are clear. *)
Theorem load_patterns_packs image_files :
  Forall (fun f => 0 <= g_width (snd f) /\ 0 <= g_height (snd f)) image_files ->
  exists ps,
    load_patterns image_files = Returns ps
    /\ Forall2 (fun f p => image_file p = fst (fst f) /\ basename p = snd (fst f)
                           /\ packs (snd f) p)
         (filter (fun f => unique_colors (snd f) =? 2) image_files) ps.
Proof.
  intros Hall. unfold load_patterns.
  destruct (load_loop_spec image_files [] Hall) as (ps & E & Hps).
  exists ps. split; [exact E | exact Hps].
Qed.

Lemma load_patterns_packs_witness :
  exists ps,
    load_patterns
      [("a.png"%string, "a"%string,
        {| g_width := 3; g_height := 2; g_data := [0; 255; 0; 255; 255; 0] |});
       ("b.png"%string, "b"%string,
        {| g_width := 1; g_height := 3; g_data := [0; 128; 255] |})]
    = Returns ps.
Proof.
  destruct (load_patterns_packs
              [("a.png"%string, "a"%string,
                {| g_width := 3; g_height := 2; g_data := [0; 255; 0; 255; 255; 0] |});
               ("b.png"%string, "b"%string,
                {| g_width := 1; g_height := 3; g_data := [0; 128; 255] |})])
    as (ps & E & _).
  - repeat constructor; cbn; lia.
  - exists ps. exact E.
Defined.

End LoadedPatterns.

(* ===================================================================== *)
(** * Images written back from the ROM                                    *)
(* ===================================================================== *)

Section PngFromBytes.

Local Abbreviation same_frame img' img :=
  (img_width img' = img_width img /\ img_height img' = img_height img
   /\ len (img_data img') = img_width img * img_height img
   /\ img_mode img' = img_mode img /\ img_comment img' = img_comment img).

(** [not (byte & (1 << bit))] as the pixel value written. *)
Local Abbreviation lit byte bit :=
  (if Z.land byte (Z.shiftl 1 bit) =? 0 then 1 else 0).

Lemma lit_testbit byte bit :
  0 <= bit -> lit byte bit = if Z.testbit byte bit then 0 else 1.
Proof.
  intros Hb. pose proof (pixel_of_testbit byte bit Hb) as H. unfold pixel_of in H.
  destruct (Z.land byte (Z.shiftl 1 bit) =? 0), (Z.testbit byte bit);
    first [reflexivity | discriminate H].
Qed.

Local Ltac split_bools :=
  repeat match goal with
         | |- context [Z.eqb ?a ?b] => destruct (Z.eqb_spec a b)
         | |- context [Z.ltb ?a ?b] => destruct (Z.ltb_spec a b)
         | |- context [Z.leb ?a ?b] => destruct (Z.leb_spec a b)
         end;
  cbn [andb orb]; try lia; try reflexivity.

Local Ltac hide_lit :=
  repeat match goal with
         | |- context [if Z.land ?a ?b =? 0 then 1 else 0] =>
             let v := fresh "v" in
             set (v := if Z.land a b =? 0 then 1 else 0); clearbody v
         end.

(** The bits of one byte: the columns of the byte that are below the
    width are written on row [y']. *)
Lemma png_bits_spec byte x_byte width y' :
  0 <= x_byte ->
  forall bits img,
    len (img_data img) = img_width img * img_height img ->
    width <= img_width img -> 0 <= y' < img_height img ->
    Forall (fun b => 0 <= b) bits ->
    exists img',
      png_bits img byte x_byte width y' bits = Returns img'
      /\ same_frame img' img
      /\ forall x' y'',
          getpixel img' x' y'' =
          if (y'' =? y') && (x' <? width)
             && existsb (fun b => x_byte * 8 + b =? x') bits
          then Some (lit byte (x' - x_byte * 8))
          else getpixel img x' y''.
Proof.
  intros Hxb. induction bits as [|b rest IH]; intros img Hlen Hw Hy Hall;
    cbn [png_bits existsb].
  - exists img. split; [reflexivity|]. split; [repeat split; assumption|].
    intros x' y''. rewrite andb_false_r. reflexivity.
  - inversion Hall as [|? ? Hb Hrest]; subst.
    destruct (Z.ltb_spec (x_byte * 8 + b) width) as [Hlt | Hge].
    + destruct (putpixel_spec img (x_byte * 8 + b) y' (lit byte b) Hlen ltac:(lia) Hy)
        as (img1 & E1 & (W1 & H1 & L1 & M1 & C1) & G1).
      rewrite E1. cbn [Py.bind].
      destruct (IH img1) as (img' & E2 & (W2 & H2 & L2 & M2 & C2) & G2);
        try (rewrite ?W1, ?H1; first [lia | assumption]).
      exists img'. split; [exact E2|]. split; [repeat split; congruence|].
      intros x' y''. rewrite G2, G1.
      destruct (Z.eq_dec x' (x_byte * 8 + b)) as [-> | Hne];
        [replace (x_byte * 8 + b - x_byte * 8) with b by lia|];
        hide_lit;
        destruct (existsb _ rest); split_bools.
    + destruct (IH img Hlen Hw Hy Hrest) as (img' & E2 & Hframe & G2).
      exists img'. split; [exact E2|]. split; [exact Hframe|].
      intros x' y''. rewrite G2. hide_lit.
      destruct (existsb _ rest); split_bools.
Qed.

Lemma byte_columns xb x' :
  existsb (fun b => xb * 8 + b =? x') (range 0 8) = (xb =? x' / 8).
Proof.
  apply eq_iff_eq_true. rewrite existsb_exists, Z.eqb_eq. split.
  - intros (b & Hb & E). apply In_range in Hb. apply Z.eqb_eq in E.
    apply Z.div_unique with (r := b); lia.
  - intros ->. exists (x' mod 8). split.
    + apply In_range. apply Z.mod_pos_bound. lia.
    + apply Z.eqb_eq. pose proof (Z.div_mod x' 8 ltac:(lia)). lia.
Qed.

(** The bytes of one row. *)
Lemma png_row_spec pattern_data row_start width y' :
  forall x_bytes img,
    len (img_data img) = img_width img * img_height img ->
    width <= img_width img -> 0 <= y' < img_height img ->
    Forall (fun xb => 0 <= xb /\ 0 <= row_start + xb < len pattern_data) x_bytes ->
    exists img',
      png_row img pattern_data row_start width y' x_bytes = Returns img'
      /\ same_frame img' img
      /\ forall x' y'',
          getpixel img' x' y'' =
          if (y'' =? y') && (x' <? width) && existsb (fun xb => xb =? x' / 8) x_bytes
          then Some (lit (nth (Z.to_nat (row_start + x' / 8)) pattern_data 0) (x' mod 8))
          else getpixel img x' y''.
Proof.
  induction x_bytes as [|xb rest IH]; intros img Hlen Hw Hy Hall;
    cbn [png_row existsb].
  - exists img. split; [reflexivity|]. split; [repeat split; assumption|].
    intros x' y''. rewrite andb_false_r. reflexivity.
  - inversion Hall as [|? ? [Hxb Hin] Hrest]; subst.
    rewrite (getitem_nth pattern_data (row_start + xb) 0) by lia. cbn [Py.bind].
    destruct (png_bits_spec (nth (Z.to_nat (row_start + xb)) pattern_data 0) xb width y'
                Hxb (range 0 8) img Hlen Hw Hy)
      as (img1 & E1 & (W1 & H1 & L1 & M1 & C1) & G1).
    { apply Forall_forall. intros b Hb. apply In_range in Hb. lia. }
    rewrite E1. cbn [Py.bind].
    destruct (IH img1) as (img' & E2 & (W2 & H2 & L2 & M2 & C2) & G2);
      try (rewrite ?W1, ?H1; first [lia | assumption]).
    exists img'. split; [exact E2|]. split; [repeat split; congruence|].
    intros x' y''. rewrite G2, G1, byte_columns.
    destruct (Z.eq_dec xb (x' / 8)) as [-> | Hne];
      [replace (x' - x' / 8 * 8) with (x' mod 8) by (rewrite Z.mod_eq by lia; lia)|];
      hide_lit;
      destruct (existsb _ rest); split_bools.
Qed.

Lemma row_columns width x' :
  0 <= width ->
  (x' <? width) && existsb (fun xb => xb =? x' / 8) (range 0 ((width + 7) / 8))
  = (0 <=? x') && (x' <? width).
Proof.
  intros Hw. destruct (Z.ltb_spec x' width) as [Hlt | Hge];
    [|now rewrite andb_false_r].
  cbn [andb]. rewrite andb_true_r. apply eq_iff_eq_true.
  rewrite existsb_exists, Z.leb_le. split.
  - intros (xb & Hxb & E). apply In_range in Hxb. apply Z.eqb_eq in E.
    destruct (Z_lt_le_dec x' 0) as [Hneg | Hpos]; [|exact Hpos].
    assert (x' / 8 < 0) by (apply Z.div_lt_upper_bound; lia). lia.
  - intros Hpos. exists (x' / 8). split; [|apply Z.eqb_refl].
    apply In_range. split; [apply Z.div_pos; lia|].
    apply Z.div_lt_upper_bound; [lia|].
    destruct (row_bytes_cover width Hw). lia.
Qed.

(** The rows. *)
Lemma png_rows_spec pattern_data bytes_per_row width height :
  0 <= width ->
  forall ys img,
    len (img_data img) = img_width img * img_height img ->
    img_width img = width -> img_height img = height ->
    Forall (fun y => 0 <= y < height
                     /\ forall xb, 0 <= xb < (width + 7) / 8 ->
                          0 <= y * bytes_per_row + xb < len pattern_data) ys ->
    exists img',
      png_rows img pattern_data bytes_per_row width height ys = Returns img'
      /\ same_frame img' img
      /\ forall x' y'',
          getpixel img' x' y'' =
          if (0 <=? x') && (x' <? width)
             && existsb (fun y => height - 1 - y =? y'') ys
          then Some (lit (nth (Z.to_nat ((height - 1 - y'') * bytes_per_row + x' / 8))
                            pattern_data 0) (x' mod 8))
          else getpixel img x' y''.
Proof.
  intros Hw0. induction ys as [|y rest IH]; intros img Hlen Hw Hh Hall;
    cbn [png_rows existsb].
  - exists img. split; [reflexivity|]. split; [repeat split; assumption|].
    intros x' y''. rewrite andb_false_r. reflexivity.
  - inversion Hall as [|? ? [Hy Hin] Hrest]; subst.
    destruct (png_row_spec pattern_data (y * bytes_per_row) (img_width img)
                (img_height img - 1 - y) (range 0 ((img_width img + 7) / 8)) img Hlen
                ltac:(lia) ltac:(lia))
      as (img1 & E1 & (W1 & H1 & L1 & M1 & C1) & G1).
    { apply Forall_forall. intros xb Hxb. apply In_range in Hxb.
      split; [lia | apply Hin; lia]. }
    rewrite E1. cbn [Py.bind].
    destruct (IH img1 ltac:(rewrite W1, H1; exact L1) W1 H1 Hrest)
      as (img' & E2 & (W2 & H2 & L2 & M2 & C2) & G2).
    exists img'. split; [exact E2|]. split; [repeat split; congruence|].
    intros x' y''. rewrite G2, G1.
    rewrite <- (andb_assoc (y'' =? img_height img - 1 - y) (x' <? img_width img)).
    rewrite (row_columns (img_width img) x' Hw0).
    destruct (Z.eq_dec y'' (img_height img - 1 - y)) as [-> | Hne];
      [replace (img_height img - 1 - (img_height img - 1 - y)) with y by lia|];
      hide_lit;
      destruct (existsb _ rest); split_bools.
Qed.

Lemma png_bits_raises byte x_byte width y' :
  forall bits img e,
    png_bits img byte x_byte width y' bits = Raises e -> e = IndexError.
Proof.
  induction bits as [|b rest IH]; intros img e H; cbn [png_bits] in H; [discriminate H|].
  destruct (x_byte * 8 + b <? width); [|exact (IH _ _ H)].
  unfold putpixel in H.
  destruct ((0 <=? x_byte * 8 + b) && (x_byte * 8 + b <? img_width img) && (0 <=? y')
            && (y' <? img_height img)); cbn [Py.bind] in H.
  - exact (IH _ _ H).
  - congruence.
Qed.

Lemma png_row_raises pattern_data row_start width y' :
  forall x_bytes img e,
    png_row img pattern_data row_start width y' x_bytes = Raises e -> e = IndexError.
Proof.
  induction x_bytes as [|xb rest IH]; intros img e H; cbn [png_row] in H;
    [discriminate H|].
  destruct (getitem pattern_data (row_start + xb)) as [b|e'] eqn:Eb; cbn [Py.bind] in H.
  - destruct (png_bits img b xb width y' (range 0 8)) as [img1|e'] eqn:E1;
      cbn [Py.bind] in H.
    + exact (IH _ _ H).
    + injection H as <-. exact (png_bits_raises _ _ _ _ _ _ _ E1).
  - injection H as <-. exact (getitem_raises _ _ _ Eb).
Qed.

Lemma png_rows_raises pattern_data bytes_per_row width height :
  forall ys img e,
    png_rows img pattern_data bytes_per_row width height ys = Raises e ->
    e = IndexError.
Proof.
  induction ys as [|y rest IH]; intros img e H; cbn [png_rows] in H; [discriminate H|].
  match type of H with context [png_row ?a ?b ?c ?d ?f ?g] =>
    destruct (png_row a b c d f g) as [img1|e'] eqn:E1 end; cbn [Py.bind] in H.
  - exact (IH _ _ H).
  - injection H as <-. exact (png_row_raises _ _ _ _ _ _ _ E1).
Qed.

Lemma png_row_inv pattern_data row_start width y' :
  forall x_bytes img img',
    png_row img pattern_data row_start width y' x_bytes = Returns img' ->
    forall xb, In xb x_bytes -> exists b, getitem pattern_data (row_start + xb) = Returns b.
Proof.
  induction x_bytes as [|xb rest IH]; intros img img' H x Hx; [destruct Hx|].
  cbn [png_row] in H.
  destruct (getitem pattern_data (row_start + xb)) as [b|] eqn:Eb; cbn [Py.bind] in H;
    [|discriminate H].
  destruct (png_bits img b xb width y' (range 0 8)) as [img1|]; cbn [Py.bind] in H;
    [|discriminate H].
  destruct Hx as [<- | Hx]; [eauto | exact (IH _ _ H x Hx)].
Qed.

Lemma png_rows_inv pattern_data bytes_per_row width height :
  forall ys img img',
    png_rows img pattern_data bytes_per_row width height ys = Returns img' ->
    forall y xb, In y ys -> In xb (range 0 ((width + 7) / 8)) ->
      exists b, getitem pattern_data (y * bytes_per_row + xb) = Returns b.
Proof.
  induction ys as [|y rest IH]; intros img img' H y0 xb Hy Hxb; [destruct Hy|].
  cbn [png_rows] in H.
  match type of H with context [png_row ?a ?b ?c ?d ?f ?g] =>
    destruct (png_row a b c d f g) as [img1|] eqn:E1 end; cbn [Py.bind] in H;
    [|discriminate H].
  destruct Hy as [<- | Hy].
  - exact (png_row_inv _ _ _ _ _ _ _ E1 xb Hxb).
  - exact (IH _ _ H y0 xb Hy Hxb).
Qed.

(** The image [bytes_to_png] draws from data that holds every byte it
    reads. *)
Lemma bytes_to_png_spec byte_data height width :
  0 < height -> 0 <= width ->
  (height - 1) * (len (slice_from byte_data ((height + 1) / 2)) / height)
  + (width + 7) / 8 <= len (slice_from byte_data ((height + 1) / 2)) ->
  exists img,
    bytes_to_png byte_data height width = Png img
    /\ img_mode img = Mode1 /\ img_width img = width /\ img_height img = height
    /\ forall y x, 0 <= y < height -> 0 <= x < width ->
         getpixel img x (height - 1 - y) =
         Some (if Z.testbit
                    (nth (Z.to_nat
                            (y * (len (slice_from byte_data ((height + 1) / 2)) / height)
                             + x / 8))
                       (slice_from byte_data ((height + 1) / 2)) 0)
                    (x mod 8)
               then 0 else 1).
Proof.
  intros Hh Hw Hdata. unfold bytes_to_png.
  set (pd := slice_from byte_data ((height + 1) / 2)) in *.
  set (bpr := len pd / height) in *.
  assert (Hbpr : 0 <= bpr) by (apply Z.div_pos; [apply len_nonneg | lia]).
  destruct (row_bytes_cover width Hw) as [_ Hnb].
  replace (height =? 0) with false by (symmetry; apply Z.eqb_neq; lia).
  unfold Image_new.
  replace ((width <? 0) || (height <? 0)) with false
    by (symmetry; apply orb_false_iff; rewrite !Z.ltb_ge; lia).
  cbn [Py.bind].
  match goal with |- context [png_rows ?i _ _ _ _ _] =>
    destruct (png_rows_spec pd bpr width height Hw (range 0 height) i)
      as (img & E & (W & H & L & M & C) & G) end.
  { cbn [img_data img_width img_height]. unfold len. rewrite repeat_length. nia. }
  { reflexivity. }
  { reflexivity. }
  { apply Forall_forall. intros y Hy. apply In_range in Hy. split; [lia|].
    intros xb Hxb. nia. }
  rewrite E. exists img. cbn [img_width img_height img_mode] in *.
  split; [reflexivity|]. split; [exact M|]. split; [exact W|]. split; [exact H|].
  intros y x Hy Hx. rewrite G.
  replace (existsb (fun y0 => height - 1 - y0 =? height - 1 - y) (range 0 height))
    with true.
  2:{ symmetry. apply existsb_exists. exists y. split; [apply In_range; lia|].
      apply Z.eqb_refl. }
  replace ((0 <=? x) && (x <? width)) with true
    by (symmetry; rewrite andb_true_iff, Z.leb_le, Z.ltb_lt; lia).
  cbn [andb]. replace (height - 1 - (height - 1 - y)) with y by lia.
  rewrite lit_testbit by (apply Z.mod_pos_bound; lia).
  cbn [getpixel]. reflexivity.
Qed.

(** X23. [bytes_to_png] skips the ceil(height/2) memo bytes and reads
    len(pattern_data) // height bytes for each row. A height of 0 ends in
    [ZeroDivisionError]. For a positive height and data that holds every
    byte read, it draws a mode-1 image of the given width and height in
    which source row [y] is image row [height - 1 - y] and a pixel is 0
    exactly where the bit of the data is set (bit [x mod 8] of byte
    [x / 8] of the row). When the data is too short for the last row it
    raises [IndexError]. *)
Theorem bytes_to_png_image byte_data height width :
  (height = 0 -> bytes_to_png byte_data height width = ZeroDivisionError)
  /\ (0 < height -> 0 <= width ->
      (height - 1) * (len (slice_from byte_data ((height + 1) / 2)) / height)
      + (width + 7) / 8 <= len (slice_from byte_data ((height + 1) / 2)) ->
      exists img,
        bytes_to_png byte_data height width = Png img
        /\ img_mode img = Mode1 /\ img_width img = width /\ img_height img = height
        /\ forall y x, 0 <= y < height -> 0 <= x < width ->
             getpixel img x (height - 1 - y) =
             Some (if Z.testbit
                        (nth (Z.to_nat
                                (y * (len (slice_from byte_data ((height + 1) / 2))
                                      / height)
                                 + x / 8))
                           (slice_from byte_data ((height + 1) / 2)) 0)
                        (x mod 8)
                   then 0 else 1))
  /\ (0 < height -> 0 < width ->
      len (slice_from byte_data ((height + 1) / 2))
      < (height - 1) * (len (slice_from byte_data ((height + 1) / 2)) / height)
        + (width + 7) / 8 ->
      bytes_to_png byte_data height width = PngRaises IndexError).
Proof.
  split; [|split].
  - intros ->. reflexivity.
  - apply bytes_to_png_spec.
  - intros Hh Hw Hshort. unfold bytes_to_png.
    set (pd := slice_from byte_data ((height + 1) / 2)) in *.
    set (bpr := len pd / height) in *.
    assert (Hbpr : 0 <= bpr) by (apply Z.div_pos; [apply len_nonneg | lia]).
    destruct (row_bytes_cover width ltac:(lia)) as [Hcov Hnb].
    replace (height =? 0) with false by (symmetry; apply Z.eqb_neq; lia).
    unfold Image_new.
    replace ((width <? 0) || (height <? 0)) with false
      by (symmetry; apply orb_false_iff; rewrite !Z.ltb_ge; lia).
    cbn [Py.bind].
    match goal with |- context [png_rows ?i ?a ?b ?c ?d ?f] =>
      destruct (png_rows i a b c d f) as [img|e] eqn:E end.
    + exfalso.
      destruct (png_rows_inv _ _ _ _ _ _ _ E (height - 1) ((width + 7) / 8 - 1))
        as (b & Hb); [apply In_range; lia | apply In_range; lia|].
      rewrite getitem_nth_error in Hb by nia.
      destruct (nth_error pd _) as [b'|] eqn:En; [|discriminate Hb].
      assert (Hlt : (Z.to_nat ((height - 1) * bpr + ((width + 7) / 8 - 1))
                     < length pd)%nat) by (apply nth_error_Some; congruence).
      unfold len in Hshort. nia.
    + f_equal. exact (png_rows_raises _ _ _ _ _ _ _ E).
Qed.

Lemma bytes_to_png_image_witness :
  (exists img, bytes_to_png [0x00; 0x0F; 0xF0] 2 8 = Png img /\ img_width img = 8)
  /\ bytes_to_png [0x00] 2 8 = PngRaises IndexError.
Proof.
  destruct (bytes_to_png_image [0x00; 0x0F; 0xF0] 2 8) as (_ & H1 & _).
  destruct (bytes_to_png_image [0x00] 2 8) as (_ & _ & H2).
  split.
  - destruct H1 as (img & E & _ & W & _); [lia | lia | vm_compute; congruence|].
    exists img. split; assumption.
  - apply H2; [lia | lia | vm_compute; reflexivity].
Defined.

End PngFromBytes.

(* ===================================================================== *)
(** * The two scripts on the same pattern                                 *)
(* ===================================================================== *)

Section SamePattern.

Lemma slice_from_slice (rom : bytes) (a k n : Z) :
  0 <= a -> 0 <= k -> 0 <= n -> a + k + n <= len rom ->
  slice_from (slice rom a (a + k + n)) k = slice rom (a + k) (a + k + n).
Proof.
  intros Ha Hk Hn Hlen. unfold slice_from, clamp_index.
  rewrite len_slice_inside by lia.
  replace (k <? 0) with false by (symmetry; apply Z.ltb_ge; lia).
  rewrite Z.min_l by lia.
  rewrite !slice_inside by lia.
  rewrite skipn_firstn_comm, skipn_skipn. f_equal; [lia | f_equal; lia].
Qed.

(** X24. The image the scan writes back over a fuzzy match is the image
    the extractor decodes: for a monochrome pattern of positive height
    that lies inside the ROM and whose memo values all have a symbol,
    [bytes_to_png] on the bytes of the ROM from the pattern's offset to
    the end of its bitmap and [extract_monochrome_bitmap] on the pattern
    give images of the same size with the same pixels. *)
Theorem rewritten_image_is_decoded_image rom p :
  pattern_in_rom rom p -> 0 < p_height p ->
  (forall row, 0 <= row < p_height p -> valid_memo (memo_value rom p row)) ->
  exists img img',
    bytes_to_png
      (slice rom (p_offset p) (bitmap_offset_of p + p_height p * row_bytes_of p))
      (p_height p) (p_width p) = Png img
    /\ extract_monochrome_bitmap rom p = ([], Returns img')
    /\ img_width img = img_width img' /\ img_height img = img_height img'
    /\ forall x y, 0 <= x < p_width p -> 0 <= y < p_height p ->
         getpixel img x y = getpixel img' x y.
Proof.
  intros Hin Hh Hvalid. pose proof Hin as (Ho & Hw & _ & Hrom).
  destruct (row_bytes_cover (p_width p) Hw) as [_ Hrb]. fold (row_bytes_of p) in Hrb.
  assert (Hmb : 0 <= (p_height p + 1) / 2) by (apply Z.div_pos; lia).
  assert (Hn : 0 <= p_height p * row_bytes_of p) by nia.
  unfold bitmap_offset_of in Hrom.
  assert (Hpd : slice_from
                  (slice rom (p_offset p)
                     (bitmap_offset_of p + p_height p * row_bytes_of p))
                  ((p_height p + 1) / 2)
                = slice rom (bitmap_offset_of p)
                    (bitmap_offset_of p + p_height p * row_bytes_of p)).
  { unfold bitmap_offset_of. apply slice_from_slice; lia. }
  assert (Hlen : len (slice rom (bitmap_offset_of p)
                        (bitmap_offset_of p + p_height p * row_bytes_of p))
                 = p_height p * row_bytes_of p).
  { unfold bitmap_offset_of. rewrite len_slice_inside by lia. lia. }
  assert (Hbpr : p_height p * row_bytes_of p / p_height p = row_bytes_of p).
  { rewrite Z.mul_comm. apply Z.div_mul. lia. }
  destruct (bytes_to_png_spec
              (slice rom (p_offset p) (bitmap_offset_of p + p_height p * row_bytes_of p))
              (p_height p) (p_width p) Hh Hw)
    as (img & E & _ & W & H & Hpix).
  { rewrite Hpd, Hlen, Hbpr. fold (row_bytes_of p). lia. }
  destruct (extract_monochrome_pixels rom p Hin Hvalid) as (img' & E' & W' & H' & Hpix').
  exists img, img'. split; [exact E|]. split; [exact E'|].
  split; [congruence|]. split; [congruence|].
  intros x y Hx Hy.
  replace y with (p_height p - 1 - (p_height p - 1 - y)) by lia.
  rewrite Hpix, Hpix' by lia.
  rewrite Hpd, Hlen, Hbpr.
  assert (Hq : 0 <= x / 8 < row_bytes_of p).
  { split; [apply Z.div_pos; lia|]. apply Z.div_lt_upper_bound; [lia|].
    destruct (row_bytes_cover (p_width p) Hw) as [Hc _]. fold (row_bytes_of p) in Hc. lia. }
  unfold bitmap_offset_of.
  rewrite nth_slice_inside by nia.
  rewrite Z.add_assoc. reflexivity.
Qed.

Lemma rewritten_image_is_decoded_image_witness :
  exists img img',
    bytes_to_png
      (slice memo_rom (p_offset memo_pattern_2)
         (bitmap_offset_of memo_pattern_2
          + p_height memo_pattern_2 * row_bytes_of memo_pattern_2))
      (p_height memo_pattern_2) (p_width memo_pattern_2) = Png img
    /\ extract_monochrome_bitmap memo_rom memo_pattern_2 = ([], Returns img').
Proof.
  destruct (rewritten_image_is_decoded_image memo_rom memo_pattern_2)
    as (img & img' & E & E' & _).
  - exact memo_pattern_2_in_rom.
  - vm_compute. reflexivity.
  - intros row Hrow. change (p_height memo_pattern_2) with 2 in Hrow.
    assert (Hc : row = 0 \/ row = 1) by lia.
    destruct Hc as [-> | ->]; left; vm_compute; split; congruence.
  - exists img, img'. split; assumption.
Defined.

(** X25. Round trip between the two scripts: when an image with two gray
    values is loaded by [load_patterns] and its bytes occur in the ROM at
    the bitmap of a monochrome pattern of the image's size (the occurrence
    the exact search looks for), [extract_monochrome_bitmap] decodes that
    pattern into the image again: pixel (x, y) is 0 where the image is
    dark (gray value below 128) and 1 where it is light. *)
Theorem loaded_image_round_trip file name g cand rom p :
  0 <= g_width g -> 0 <= g_height g -> unique_colors g = 2 ->
  load_patterns [(file, name, g)] = Returns [cand] ->
  p_width p = g_width g -> p_height p = g_height g -> 0 <= p_offset p ->
  occurs_at rom (byte_data cand) (bitmap_offset_of p) ->
  (forall row, 0 <= row < p_height p -> valid_memo (memo_value rom p row)) ->
  exists img,
    extract_monochrome_bitmap rom p = ([], Returns img)
    /\ img_width img = g_width g /\ img_height img = g_height g
    /\ forall x y, 0 <= x < g_width g -> 0 <= y < g_height g ->
         getpixel img x y = Some (if gray_at g x y <? 128 then 0 else 1).
Proof.
  intros Hw Hh Hcol Hload Hpw Hph Ho (Hb0 & Hb1 & Hocc) Hvalid.
  destruct (load_loop_spec [(file, name, g)] []) as (ps & E & Hps).
  { repeat constructor; assumption. }
  unfold load_patterns in Hload. rewrite Hload in E. cbn [app] in E.
  injection E as <-.
  cbn [filter snd] in Hps. rewrite Hcol in Hps. cbn [Z.eqb Pos.eqb] in Hps.
  inversion Hps as [|? ? ? ? (_ & _ & _ & _ & Hlen & _ & Hbits) _]; subst.
  cbn [snd] in *.
  destruct (row_bytes_cover (g_width g) Hw) as [Hcov Hrb].
  assert (Hin : pattern_in_rom rom p).
  { unfold pattern_in_rom, row_bytes_of. rewrite Hpw, Hph.
    repeat split; try assumption. rewrite Hlen in Hb1. lia. }
  destruct (extract_monochrome_pixels rom p Hin Hvalid) as (img & Ei & W & H & Hpix).
  exists img. split; [exact Ei|]. split; [congruence|]. split; [congruence|].
  intros x y Hx Hy.
  replace y with (p_height p - 1 - (p_height p - 1 - y)) by lia.
  rewrite Hpix by lia. unfold row_bytes_of. rewrite Hpw, Hph.
  set (row := g_height g - 1 - y).
  assert (Hq : 0 <= x / 8 < (g_width g + 7) / 8).
  { split; [apply Z.div_pos; lia | apply Z.div_lt_upper_bound; lia]. }
  assert (Hbyte : rom_byte rom (bitmap_offset_of p + row * ((g_width g + 7) / 8) + x / 8)
                  = nth (Z.to_nat (row * ((g_width g + 7) / 8) + x / 8)) (byte_data cand) 0).
  { rewrite <- Hocc at 1.
    rewrite nth_slice_inside by (unfold row; nia).
    f_equal. lia. }
  rewrite Hbyte, (Hbits row x) by (unfold row; lia).
  replace (x <? g_width g) with true by (symmetry; apply Z.ltb_lt; lia).
  cbn [andb]. unfold row.
  replace (g_height g - 1 - (g_height g - 1 - y)) with y by lia.
  destruct (gray_at g x y <? 128); reflexivity.
Qed.

End SamePattern.

Section SamePatternWitness.

Local Abbreviation two_rows :=
  {| g_width := 3; g_height := 2; g_data := [0; 255; 0; 255; 255; 0] |}.

Local Abbreviation two_rows_pattern :=
  {| p_type := 2; p_number := 1; p_width := 3; p_height := 2; p_offset := 0 |}.

Lemma loaded_image_round_trip_witness :
  exists img,
    extract_monochrome_bitmap [0x00; 0x04; 0x05] two_rows_pattern = ([], Returns img)
    /\ getpixel img 2 1 = Some 0.
Proof.
  destruct (loaded_image_round_trip "a.png"%string "a"%string two_rows
              {| image_file := "a.png"; basename := "a"; byte_data := [0x04; 0x05];
                 RomScan.height := 2; RomScan.width := 3 |}
              [0x00; 0x04; 0x05] two_rows_pattern)
    as (img & E & _ & _ & Hpix).
  - cbn. lia.
  - cbn. lia.
  - vm_compute. reflexivity.
  - vm_compute. reflexivity.
  - reflexivity.
  - reflexivity.
  - cbn. lia.
  - repeat split; vm_compute; congruence.
  - intros row Hrow. cbn [p_height] in Hrow.
    assert (Hc : row = 0 \/ row = 1) by lia.
    destruct Hc as [-> | ->]; left; vm_compute; split; congruence.
  - exists img. split; [exact E|].
    apply (Hpix 2 1); cbn; lia.
Defined.

End SamePatternWitness.
